(** * DBCEditor: document model, change tracker and persistence adapter

    A shallow embedding of [src/dbc_editor.py] (class [DBCEditor]) and the
    properties its specification states about it.

    Python dictionaries and lists are mutable objects with identity.  The
    editor keeps two lists of message dictionaries, and several of its
    methods copy them only one level deep, so the embedding keeps an explicit
    object store: message dictionaries, signal dictionaries, lists of signals
    and lists of node names live in the store and are referred to by
    location. *)

From stdpp Require Import gmap strings list pretty numbers.
From Stdlib Require Import ZArith Qcanon Ascii.

Local Open Scope Z_scope.

(** ** Exceptions and results *)

(** The exception classes the editor meets.  [ModelError] stands for the
    two situations no Python run can reach but a store-passing model has to
    give a meaning to: a location with no object behind it, and a loop that
    used up its fuel. *)
Inductive exn_class :=
  | DBCEditorError | IndexError | TypeError | OSError | LibraryError | ModelError.

(** An exception: its class and [str(e)]. *)
Record exn := Exn { exn_cls : exn_class; exn_str : string }.

Inductive result (A : Type) : Type :=
  | Ok (a : A)
  | Raise (e : exn).
Arguments Ok {A} a.
Arguments Raise {A} e.

#[global] Instance result_ret : MRet result := fun _ a => Ok a.
#[global] Instance result_bind : MBind result := fun _ _ f r =>
  match r with
  | Ok a => f a
  | Raise e => Raise e
  end.

Definition dbc_error (msg : string) : exn := Exn DBCEditorError msg.

(** A lookup in the store, as a step of a method. *)
Definition deref {A} (o : option A) : result A :=
  match o with
  | Some a => Ok a
  | None => Raise (Exn ModelError "no object at this location")
  end.

#[global] Instance exn_class_eq_dec : EqDecision exn_class.
Proof. solve_decision. Defined.
#[global] Instance exn_eq_dec : EqDecision exn.
Proof. solve_decision. Defined.

(** ** Python list indexing *)

(** [len(l)] as a Python int. *)
Definition len {A} (l : list A) : Z := Z.of_nat (length l).

(** A negative index counts from the end; what remains out of range is an
    [IndexError]. *)
Definition norm_index (n : nat) (i : Z) : option nat :=
  let j := if i <? 0 then i + Z.of_nat n else i in
  if (0 <=? j) && (j <? Z.of_nat n) then Some (Z.to_nat j) else None.

(** [l[i]] *)
Definition py_getitem {A} (l : list A) (i : Z) : result A :=
  match norm_index (length l) i ≫= (l !!.) with
  | Some x => Ok x
  | None => Raise (Exn IndexError "list index out of range")
  end.

(** [l[i] = x] *)
Definition py_setitem {A} (l : list A) (i : Z) (x : A) : result (list A) :=
  match norm_index (length l) i with
  | Some k => Ok (<[k := x]> l)
  | None => Raise (Exn IndexError "list assignment index out of range")
  end.

(** [del l[i]] *)
Definition py_delitem {A} (l : list A) (i : Z) : result (list A) :=
  match norm_index (length l) i with
  | Some k => Ok (delete k l)
  | None => Raise (Exn IndexError "list assignment index out of range")
  end.

(** ** Data model *)

(** A location of the store. *)
Abbreviation loc := nat.

(** A signal dictionary, with the keys [load_dbc_file] writes.  [R] is what
    the ['receivers'] key holds: a location in the store, or the list itself
    when the dictionary is read as a value.  [scale], [offset], [minimum] and
    [maximum] are Python numbers that the editor only stores and compares;
    they are rationals here. *)
Record signal (R : Type) := Signal {
  sig_name : string;
  sig_start_bit : Z;
  sig_length : Z;
  sig_is_signed : bool;
  sig_scale : Qc;
  sig_offset : Qc;
  sig_minimum : option Qc;
  sig_maximum : option Qc;
  sig_unit : string;
  sig_receivers : R;
  sig_comments : string
}.
Arguments Signal {R}.
Arguments sig_name {R}.
Arguments sig_start_bit {R}.
Arguments sig_length {R}.
Arguments sig_is_signed {R}.
Arguments sig_scale {R}.
Arguments sig_offset {R}.
Arguments sig_minimum {R}.
Arguments sig_maximum {R}.
Arguments sig_unit {R}.
Arguments sig_receivers {R}.
Arguments sig_comments {R}.

(** What a key outside the data model holds: [None], an int or a string. *)
Inductive scalar :=
  | NoneValue
  | IntValue (z : Z)
  | StrValue (s : string).

#[global] Instance scalar_eq_dec : EqDecision scalar.
Proof. solve_decision. Defined.

(** A message dictionary; [S] is what ['senders'] holds and [L] what
    ['signals'] holds.  The first six fields are the keys [load_dbc_file]
    writes; [msg_other] holds every other key of the dictionary with its
    value (the edit dialog's [get_data] adds ['cycle_time'] and
    ['message_type']). *)
Record message (S L : Type) := Message {
  msg_name : string;
  msg_frame_id : Z;
  msg_length : Z;
  msg_senders : S;
  msg_signals : L;
  msg_comments : string;
  msg_other : gmap string scalar
}.
Arguments Message {S L}.
Arguments msg_name {S L}.
Arguments msg_frame_id {S L}.
Arguments msg_length {S L}.
Arguments msg_senders {S L}.
Arguments msg_signals {S L}.
Arguments msg_comments {S L}.
Arguments msg_other {S L}.

#[global] Instance signal_eq_dec {R} `{EqDecision R} : EqDecision (signal R).
Proof. solve_decision. Defined.
#[global] Instance message_eq_dec {S L} `{EqDecision S, EqDecision L} :
  EqDecision (message S L).
Proof. solve_decision. Defined.

(** Dictionaries as objects of the store, and as plain values. *)
Abbreviation signal_obj := (signal loc).
Abbreviation message_obj := (message loc loc).
Abbreviation signal_val := (signal (list string)).
Abbreviation message_val := (message (list string) (list signal_val)).

Definition sig_with_receivers {R R'} (s : signal R) (r : R') : signal R' :=
  Signal (sig_name s) (sig_start_bit s) (sig_length s) (sig_is_signed s)
         (sig_scale s) (sig_offset s) (sig_minimum s) (sig_maximum s)
         (sig_unit s) r (sig_comments s).

(** [d['name'] = n] on a copy *)
Definition sig_with_name {R} (s : signal R) (n : string) : signal R :=
  Signal n (sig_start_bit s) (sig_length s) (sig_is_signed s)
         (sig_scale s) (sig_offset s) (sig_minimum s) (sig_maximum s)
         (sig_unit s) (sig_receivers s) (sig_comments s).

Definition msg_with_refs {S L S' L'} (m : message S L) (s : S') (l : L')
  : message S' L' :=
  Message (msg_name m) (msg_frame_id m) (msg_length m) s l (msg_comments m)
          (msg_other m).

Definition msg_with_name {S L} (m : message S L) (n : string) : message S L :=
  Message n (msg_frame_id m) (msg_length m) (msg_senders m) (msg_signals m)
          (msg_comments m) (msg_other m).

(** A dictionary with the six keys of [m] and no other: what the literals
    of lines 107-114, 119-142 and 179-186 build. *)
Definition six_keys {S L} (m : message S L) : message S L :=
  Message (msg_name m) (msg_frame_id m) (msg_length m) (msg_senders m)
          (msg_signals m) (msg_comments m) ∅.

(** ** The object store *)

(** One arena per kind of object; a location is an index into its arena and
    allocation appends, so a location once handed out is never reused. *)
Record store := Store {
  msg_dicts : list message_obj;
  sig_dicts : list signal_obj;
  sig_lists : list (list loc);
  str_lists : list (list string)
}.

Definition empty_store : store := Store [] [] [] [].

Definition alloc_msg (m : message_obj) (h : store) : loc * store :=
  (length (msg_dicts h),
   Store (msg_dicts h ++ [m]) (sig_dicts h) (sig_lists h) (str_lists h)).

Definition alloc_sig (s : signal_obj) (h : store) : loc * store :=
  (length (sig_dicts h),
   Store (msg_dicts h) (sig_dicts h ++ [s]) (sig_lists h) (str_lists h)).

Definition alloc_sig_list (l : list loc) (h : store) : loc * store :=
  (length (sig_lists h),
   Store (msg_dicts h) (sig_dicts h) (sig_lists h ++ [l]) (str_lists h)).

Definition alloc_str_list (l : list string) (h : store) : loc * store :=
  (length (str_lists h),
   Store (msg_dicts h) (sig_dicts h) (sig_lists h) (str_lists h ++ [l])).

(** In-place update of a list of signals. *)
Definition set_sig_list (l : loc) (sigs : list loc) (h : store) : store :=
  Store (msg_dicts h) (sig_dicts h) (<[l := sigs]> (sig_lists h)) (str_lists h).

(** [h'] holds every object of [h], at the same location, and maybe
    more: what allocation does to a store. *)
Definition heap_ext (h h' : store) : Prop :=
  msg_dicts h `prefix_of` msg_dicts h'
  ∧ sig_dicts h `prefix_of` sig_dicts h'
  ∧ sig_lists h `prefix_of` sig_lists h'
  ∧ str_lists h `prefix_of` str_lists h'.

(** Running a step that allocates over each element of a list, left to
    right. *)
Fixpoint mapM_store {A B} (f : A → store → result (B * store))
    (l : list A) (h : store) : result (list B * store) :=
  match l with
  | [] => Ok ([], h)
  | x :: l' =>
      '(y, h1) ← f x h;
      '(ys, h2) ← mapM_store f l' h1;
      Ok (y :: ys, h2)
  end.

(** *** Reading an object as a value

    What Python's [==] on dictionaries and lists looks at: the contents,
    through every reference. *)
Definition view_signal (h : store) (l : loc) : option signal_val :=
  s ← sig_dicts h !! l;
  r ← str_lists h !! sig_receivers s;
  Some (sig_with_receivers s r).

Definition view_signals (h : store) (ls : list loc) : option (list signal_val) :=
  mapM (view_signal h) ls.

Definition view_message (h : store) (l : loc) : option message_val :=
  m ← msg_dicts h !! l;
  snd ← str_lists h !! msg_senders m;
  sl ← sig_lists h !! msg_signals m;
  sigs ← view_signals h sl;
  Some (msg_with_refs m snd sigs).

Definition view_messages (h : store) (ls : list loc) : option (list message_val) :=
  mapM (view_message h) ls.

(** Building fresh dictionaries from values, as a caller does when it writes
    a dictionary literal. *)
Definition alloc_signal_val (v : signal_val) (h : store) : loc * store :=
  let '(r, h1) := alloc_str_list (sig_receivers v) h in
  alloc_sig (sig_with_receivers v r) h1.

Fixpoint alloc_signal_vals (vs : list signal_val) (h : store) : list loc * store :=
  match vs with
  | [] => ([], h)
  | v :: vs' =>
      let '(l, h1) := alloc_signal_val v h in
      let '(ls, h2) := alloc_signal_vals vs' h1 in
      (l :: ls, h2)
  end.

Definition alloc_message_val (v : message_val) (h : store) : loc * store :=
  let '(sigs, h1) := alloc_signal_vals (msg_signals v) h in
  let '(sl, h2) := alloc_sig_list sigs h1 in
  let '(snd, h3) := alloc_str_list (msg_senders v) h2 in
  alloc_msg (msg_with_refs v snd sl) h3.

Fixpoint alloc_message_vals (vs : list message_val) (h : store) : list loc * store :=
  match vs with
  | [] => ([], h)
  | v :: vs' =>
      let '(l, h1) := alloc_message_val v h in
      let '(ls, h2) := alloc_message_vals vs' h1 in
      (l :: ls, h2)
  end.

(** ** The editor *)

(** The fields of a [DBCEditor] together with the store its references point
    into.  [_original_data] and [_modified_data] are [None] or a dictionary
    [{'messages': list}]; every assignment to either field builds that
    dictionary and its list afresh, so the two lists are never one object
    and each field holds its list of message locations directly.  [db] is the
    cantools database, kept as the records read from it. *)
Record editor := Editor {
  db : option (list message_val);
  file_path : option string;
  original_data : option (list loc);
  modified_data : option (list loc);
  heap : store
}.

(** [DBCEditor.__init__] *)
Definition init : editor := Editor None None None None empty_store.

Definition set_modified (ms : option (list loc)) (ed : editor) : editor :=
  Editor (db ed) (file_path ed) (original_data ed) ms (heap ed).

Definition set_heap (h : store) (ed : editor) : editor :=
  Editor (db ed) (file_path ed) (original_data ed) (modified_data ed) h.

(** A method body that raises before it has changed anything the editor can
    reach: the editor is as it was. *)
Definition atomically {A} (ed : editor) (body : result (A * editor))
  : result A * editor :=
  match body with
  | Ok (a, ed') => (Ok a, ed')
  | Raise e => (Raise e, ed)
  end.

(** [create_new_dbc] *)
Definition create_new_dbc (ed : editor) : result (list loc) * editor :=
  (Ok [], Editor (Some []) None (Some []) (Some []) (heap ed)).

(** [get_data]: the working list, or nothing for [{}]. *)
Definition get_data (ed : editor) : option (list loc) := modified_data ed.

(** [add_message] *)
Definition add_message (message : loc) (ed : editor) : result unit * editor :=
  let msgs := match modified_data ed with
              | None => []
              | Some msgs => msgs
              end in
  (Ok (), set_modified (Some (msgs ++ [message])) ed).

(** [update_message] *)
Definition update_message (idx : Z) (message : loc) (ed : editor)
  : result unit * editor :=
  match modified_data ed with
  | None => (Raise (dbc_error "Invalid message index"), ed)
  | Some msgs =>
      if len msgs <=? idx then (Raise (dbc_error "Invalid message index"), ed)
      else atomically ed (
        msgs' ← py_setitem msgs idx message;
        Ok ((), set_modified (Some msgs') ed))
  end.

(** [f"{base_name}_{suffix}"] *)
Definition suffixed (base_name : string) (suffix : nat) : string :=
  base_name +:+ "_" +:+ pretty suffix.

(** The loop of [duplicate_message] and [duplicate_signal]:
    [while candidate in existing_names: ...]. *)
Fixpoint unique_name_loop (fuel : nat) (base_name candidate : string)
    (suffix : nat) (existing_names : gset string) : option string :=
  match fuel with
  | O => None
  | S fuel' =>
      if bool_decide (candidate ∈ existing_names)
      then unique_name_loop fuel' base_name
             (suffixed base_name suffix) (S suffix) existing_names
      else Some candidate
  end.

(** Lines 188-194 and 253-259: start from [base_1], with [suffix = 2].  The
    loop cannot run more often than there are names, plus one. *)
Definition unique_name (base_name : string) (names : list string) : result string :=
  match unique_name_loop (S (length names)) base_name
          (suffixed base_name 1) 2%nat (list_to_set names) with
  | Some candidate => Ok candidate
  | None => Raise (Exn ModelError "loop bound exceeded")
  end.

(** [dict(m)] for a message: a new dictionary holding the same references. *)
Definition copy_msg_dict (l : loc) (h : store) : result (loc * store) :=
  m ← deref (msg_dicts h !! l);
  Ok (alloc_msg m h).

(** [dict(sig)] *)
Definition copy_sig_dict (l : loc) (h : store) : result (loc * store) :=
  s ← deref (sig_dicts h !! l);
  Ok (alloc_sig s h).

(** [{m['name'] for m in messages}], in list order *)
Definition message_names (h : store) (msgs : list loc) : result (list string) :=
  deref (mapM (λ l, msg_name <$> msg_dicts h !! l) msgs).

Definition signal_names (h : store) (sigs : list loc) : result (list string) :=
  deref (mapM (λ l, sig_name <$> sig_dicts h !! l) sigs).

(** [duplicate_message] *)
Definition duplicate_message (idx : Z) (ed : editor) : result Z * editor :=
  match modified_data ed with
  | None => (Raise (dbc_error "Invalid message index"), ed)
  | Some msgs =>
      if (idx <? 0) || (len msgs <=? idx)
      then (Raise (dbc_error "Invalid message index"), ed)
      else atomically ed (
        let h := heap ed in
        ol ← py_getitem msgs idx;
        original ← deref (msg_dicts h !! ol);
        senders ← deref (str_lists h !! msg_senders original);
        let '(senders', h1) := alloc_str_list senders h in
        sigs ← deref (sig_lists h1 !! msg_signals original);
        '(sigs', h2) ← mapM_store copy_sig_dict sigs h1;
        let '(signals', h3) := alloc_sig_list sigs' h2 in
        existing_names ← message_names h3 msgs;
        candidate ← unique_name (msg_name original) existing_names;
        let new_message :=
          Message candidate (msg_frame_id original) (msg_length original)
                  senders' signals' (msg_comments original) ∅ in
        let '(new, h4) := alloc_msg new_message h3 in
        let msgs' := msgs ++ [new] in
        Ok (len msgs' - 1, set_heap h4 (set_modified (Some msgs') ed)))
  end.

(** The tuple assignment [l[i], l[j] = l[j], l[i]]: both reads first, then
    the two writes, left to right. *)
Definition py_swap {A} (l : list A) (i j : Z) : result (list A) :=
  xj ← py_getitem l j;
  xi ← py_getitem l i;
  l1 ← py_setitem l i xj;
  py_setitem l1 j xi.

(** [move_message_up] *)
Definition move_message_up (idx : Z) (ed : editor) : result Z * editor :=
  match modified_data ed with
  | None => (Raise (dbc_error "Invalid message move operation"), ed)
  | Some msgs =>
      if (idx <=? 0) || (len msgs <=? idx)
      then (Raise (dbc_error "Invalid message move operation"), ed)
      else atomically ed (
        msgs' ← py_swap msgs (idx - 1) idx;
        Ok (idx - 1, set_modified (Some msgs') ed))
  end.

(** [move_message_down] *)
Definition move_message_down (idx : Z) (ed : editor) : result Z * editor :=
  match modified_data ed with
  | None => (Raise (dbc_error "Invalid message move operation"), ed)
  | Some msgs =>
      if (idx <? 0) || (len msgs - 1 <=? idx)
      then (Raise (dbc_error "Invalid message move operation"), ed)
      else atomically ed (
        msgs' ← py_swap msgs (idx + 1) idx;
        Ok (idx + 1, set_modified (Some msgs') ed))
  end.

(** [delete_message] *)
Definition delete_message (idx : Z) (ed : editor) : result unit * editor :=
  match modified_data ed with
  | None => (Raise (dbc_error "Invalid message index"), ed)
  | Some msgs =>
      if len msgs <=? idx then (Raise (dbc_error "Invalid message index"), ed)
      else atomically ed (
        msgs' ← py_delitem msgs idx;
        Ok ((), set_modified (Some msgs') ed))
  end.

(** [self._modified_data['messages'][msg_idx]['signals']]: the location of
    the list of signals of a message, and the list. *)
Definition signals_of (h : store) (msgs : list loc) (msg_idx : Z)
  : result (loc * list loc) :=
  ml ← py_getitem msgs msg_idx;
  m ← deref (msg_dicts h !! ml);
  sigs ← deref (sig_lists h !! msg_signals m);
  Ok (msg_signals m, sigs).

(** [add_signal] *)
Definition add_signal (msg_idx : Z) (signal : loc) (ed : editor)
  : result unit * editor :=
  match modified_data ed with
  | None => (Raise (dbc_error "Invalid message index"), ed)
  | Some msgs =>
      if len msgs <=? msg_idx
      then (Raise (dbc_error "Invalid message index"), ed)
      else atomically ed (
        '(sl, sigs) ← signals_of (heap ed) msgs msg_idx;
        Ok ((), set_heap (set_sig_list sl (sigs ++ [signal]) (heap ed)) ed))
  end.

(** [update_signal] *)
Definition update_signal (msg_idx sig_idx : Z) (signal : loc) (ed : editor)
  : result unit * editor :=
  match modified_data ed with
  | None => (Raise (dbc_error "Invalid message index"), ed)
  | Some msgs =>
      if len msgs <=? msg_idx
      then (Raise (dbc_error "Invalid message index"), ed)
      else atomically ed (
        '(sl, sigs) ← signals_of (heap ed) msgs msg_idx;
        if len sigs <=? sig_idx then Raise (dbc_error "Invalid signal index")
        else
          sigs' ← py_setitem sigs sig_idx signal;
          Ok ((), set_heap (set_sig_list sl sigs' (heap ed)) ed))
  end.

(** [duplicate_signal] *)
Definition duplicate_signal (msg_idx sig_idx : Z) (ed : editor)
  : result Z * editor :=
  match modified_data ed with
  | None => (Raise (dbc_error "Invalid message index"), ed)
  | Some msgs =>
      if (msg_idx <? 0) || (len msgs <=? msg_idx)
      then (Raise (dbc_error "Invalid message index"), ed)
      else atomically ed (
        let h := heap ed in
        '(sl, signals) ← signals_of h msgs msg_idx;
        if (sig_idx <? 0) || (len signals <=? sig_idx)
        then Raise (dbc_error "Invalid signal index")
        else
          ol ← py_getitem signals sig_idx;
          original ← deref (sig_dicts h !! ol);
          existing_names ← signal_names h signals;
          candidate ← unique_name (sig_name original) existing_names;
          let '(new, h1) := alloc_sig (sig_with_name original candidate) h in
          let signals' := signals ++ [new] in
          Ok (len signals' - 1, set_heap (set_sig_list sl signals' h1) ed))
  end.

(** [move_signal_up] *)
Definition move_signal_up (msg_idx sig_idx : Z) (ed : editor)
  : result Z * editor :=
  match modified_data ed with
  | None => (Raise (dbc_error "Invalid message index"), ed)
  | Some msgs =>
      if (msg_idx <? 0) || (len msgs <=? msg_idx)
      then (Raise (dbc_error "Invalid message index"), ed)
      else atomically ed (
        '(sl, signals) ← signals_of (heap ed) msgs msg_idx;
        if (sig_idx <=? 0) || (len signals <=? sig_idx)
        then Raise (dbc_error "Invalid signal move operation")
        else
          signals' ← py_swap signals (sig_idx - 1) sig_idx;
          Ok (sig_idx - 1, set_heap (set_sig_list sl signals' (heap ed)) ed))
  end.

(** [move_signal_down] *)
Definition move_signal_down (msg_idx sig_idx : Z) (ed : editor)
  : result Z * editor :=
  match modified_data ed with
  | None => (Raise (dbc_error "Invalid message index"), ed)
  | Some msgs =>
      if (msg_idx <? 0) || (len msgs <=? msg_idx)
      then (Raise (dbc_error "Invalid message index"), ed)
      else atomically ed (
        '(sl, signals) ← signals_of (heap ed) msgs msg_idx;
        if (sig_idx <? 0) || (len signals - 1 <=? sig_idx)
        then Raise (dbc_error "Invalid signal move operation")
        else
          signals' ← py_swap signals (sig_idx + 1) sig_idx;
          Ok (sig_idx + 1, set_heap (set_sig_list sl signals' (heap ed)) ed))
  end.

(** [delete_signal] *)
Definition delete_signal (msg_idx sig_idx : Z) (ed : editor)
  : result unit * editor :=
  match modified_data ed with
  | None => (Raise (dbc_error "Invalid message index"), ed)
  | Some msgs =>
      if len msgs <=? msg_idx
      then (Raise (dbc_error "Invalid message index"), ed)
      else atomically ed (
        '(sl, sigs) ← signals_of (heap ed) msgs msg_idx;
        if len sigs <=? sig_idx then Raise (dbc_error "Invalid signal index")
        else
          sl_ ← py_getitem sigs sig_idx;
          _ ← deref (sig_dicts (heap ed) !! sl_);
          sigs' ← py_delitem sigs sig_idx;
          Ok ((), set_heap (set_sig_list sl sigs' (heap ed)) ed))
  end.

(** [reset_changes] *)
Definition reset_changes (ed : editor) : result unit * editor :=
  match original_data ed with
  | None => (Ok (), ed)
  | Some orig =>
      atomically ed (
        '(copies, h) ← mapM_store copy_msg_dict orig (heap ed);
        Ok ((), set_heap h (set_modified (Some copies) ed)))
  end.

(** ** Change tracker *)

(** [orig_sig != mod_sig] on two signal dictionaries *)
Definition signal_ne (h : store) (a b : loc) : result bool :=
  va ← deref (view_signal h a);
  vb ← deref (view_signal h b);
  Ok (bool_decide (va ≠ vb)).

(** The inner loop of [has_changes] (lines 409-412), over
    [zip(orig_msg['signals'], mod_msg['signals'])]. *)
Fixpoint signals_changed (h : store) (orig_sigs mod_sigs : list loc) : result bool :=
  match orig_sigs, mod_sigs with
  | orig_sig :: orig_sigs', mod_sig :: mod_sigs' =>
      ne ← signal_ne h orig_sig mod_sig;
      if ne : bool then Ok true else signals_changed h orig_sigs' mod_sigs'
  | _, _ => Ok false
  end.

(** The outer loop (lines 394-412), over the two lists of messages. *)
Fixpoint messages_changed (h : store) (orig mod_ : list loc) : result bool :=
  match orig, mod_ with
  | ol :: orig', ml :: mod' =>
      orig_msg ← deref (msg_dicts h !! ol);
      mod_msg ← deref (msg_dicts h !! ml);
      if bool_decide (msg_name orig_msg ≠ msg_name mod_msg)
         || bool_decide (msg_frame_id orig_msg ≠ msg_frame_id mod_msg)
      then Ok true
      else
        orig_sigs ← deref (sig_lists h !! msg_signals orig_msg);
        mod_sigs ← deref (sig_lists h !! msg_signals mod_msg);
        if bool_decide (length orig_sigs ≠ length mod_sigs) then Ok true
        else
          changed ← signals_changed h orig_sigs mod_sigs;
          if changed : bool then Ok true else messages_changed h orig' mod'
  | _, _ => Ok false
  end.

(** [has_changes].  The [except] branch compares the two documents whole
    (their JSON texts); it is reached only from a failed lookup. *)
Definition has_changes (ed : editor) : bool :=
  match original_data ed, modified_data ed with
  | Some orig, Some mod_ =>
      let positional :=
        if bool_decide (length orig ≠ length mod_) then Ok true
        else messages_changed (heap ed) orig mod_ in
      match positional with
      | Ok changed => changed
      | Raise _ =>
          bool_decide (view_messages (heap ed) orig ≠ view_messages (heap ed) mod_)
      end
  | _, _ => false
  end.

(** A Python dictionary with string keys, in insertion order: setting a key
    that is present replaces its value in place. *)
Fixpoint dict_set {V} (k : string) (v : V) (d : list (string * V))
  : list (string * V) :=
  match d with
  | [] => [(k, v)]
  | (k', v') :: d' =>
      if decide (k = k') then (k, v) :: d' else (k', v') :: dict_set k v d'
  end.

Fixpoint dict_get {V} (k : string) (d : list (string * V)) : option V :=
  match d with
  | [] => None
  | (k', v) :: d' => if decide (k = k') then Some v else dict_get k d'
  end.

Definition dict_has {V} (k : string) (d : list (string * V)) : bool :=
  bool_decide (is_Some (dict_get k d)).

Definition dict_of_list {V} (kvs : list (string * V)) : list (string * V) :=
  foldl (λ d kv, dict_set kv.1 kv.2 d) [] kvs.

(** [{m['name']: m for m in messages}] *)
Definition messages_by_name (h : store) (msgs : list loc)
  : result (list (string * loc)) :=
  named ← deref (mapM (λ l, m ← msg_dicts h !! l; Some (msg_name m, l)) msgs);
  Ok (dict_of_list named).

(** [{s['name']: s for s in msg.get('signals', [])}] *)
Definition signals_by_name (h : store) (m : message_obj)
  : result (list (string * loc)) :=
  sigs ← deref (sig_lists h !! msg_signals m);
  named ← deref (mapM (λ l, s ← sig_dicts h !! l; Some (sig_name s, l)) sigs);
  Ok (dict_of_list named).

(** The six lists of the summary. *)
Record changes := Changes {
  added_messages : list string;
  deleted_messages : list string;
  modified_messages : list string;
  added_signals : list string;
  deleted_signals : list string;
  modified_signals : list string
}.

(** What [get_changes_summary] returns: [{"has_changes": False}], the six
    lists, or [{"has_changes": True, "error": ...}]. *)
Inductive summary :=
  | NoChanges
  | Summary (c : changes)
  | SummaryError (msg : string).

#[global] Instance changes_eq_dec : EqDecision changes.
Proof. solve_decision. Defined.
#[global] Instance summary_eq_dec : EqDecision summary.
Proof. solve_decision. Defined.

(** [mod_msg != orig_msg] on two message dictionaries *)
Definition message_ne (h : store) (a b : loc) : result bool :=
  va ← deref (view_message h a);
  vb ← deref (view_message h b);
  Ok (bool_decide (va ≠ vb)).

(** [f"{msg_name}.{sig_name}"] *)
Definition qualified (msg_name sig_name : string) : string :=
  msg_name +:+ "." +:+ sig_name.

(** The signal lists of one modified message (lines 455-471), appended to
    the lists collected so far. *)
Definition signal_changes (h : store) (msg_name : string)
    (orig_msg mod_msg : loc) (acc : changes) : result changes :=
  om ← deref (msg_dicts h !! orig_msg);
  mm ← deref (msg_dicts h !! mod_msg);
  orig_signals ← signals_by_name h om;
  mod_signals ← signals_by_name h mm;
  let added :=
    filter (λ n, dict_has n orig_signals = false) (mod_signals.*1) in
  let deleted :=
    filter (λ n, dict_has n mod_signals = false) (orig_signals.*1) in
  modified ← foldl (λ racc kv,
      acc' ← racc;
      match dict_get kv.1 orig_signals with
      | Some os =>
          ne ← signal_ne h kv.2 os;
          Ok (if ne : bool then acc' ++ [kv.1] else acc')
      | None => Ok acc'
      end) (Ok []) mod_signals;
  Ok (Changes (added_messages acc) (deleted_messages acc)
        (modified_messages acc ++ [msg_name])
        (added_signals acc ++ (qualified msg_name <$> added))
        (deleted_signals acc ++ (qualified msg_name <$> deleted))
        (modified_signals acc ++ (qualified msg_name <$> modified))).

(** The loop [for msg_name in mod] (lines 445-471). *)
Definition summary_loop (h : store) (orig mod_ : list (string * loc))
    (acc : changes) : result changes :=
  foldl (λ racc kv,
      acc' ← racc;
      match dict_get kv.1 orig with
      | Some orig_msg =>
          ne ← message_ne h kv.2 orig_msg;
          if ne : bool then signal_changes h kv.1 orig_msg kv.2 acc'
          else Ok acc'
      | None => Ok acc'
      end) (Ok acc) mod_.

(** [get_changes_summary] *)
Definition get_changes_summary (ed : editor) : summary :=
  if negb (has_changes ed) then NoChanges
  else
    let computed :=
      origs ← match original_data ed with
              | Some l => Ok l
              | None => Raise (Exn TypeError "'NoneType' object is not subscriptable")
              end;
      mods ← match modified_data ed with
             | Some l => Ok l
             | None => Raise (Exn TypeError "'NoneType' object is not subscriptable")
             end;
      orig ← messages_by_name (heap ed) origs;
      mod_ ← messages_by_name (heap ed) mods;
      let added := filter (λ n, dict_has n orig = false) (mod_.*1) in
      let deleted := filter (λ n, dict_has n mod_ = false) (orig.*1) in
      summary_loop (heap ed) orig mod_ (Changes added deleted [] [] [] []) in
    match computed with
    | Ok c => Summary c
    | Raise e => SummaryError (exn_str e)
    end.

(** ** Persistence adapter *)

(** [str.lower], on the ASCII letters *)
Definition lower_ascii (c : ascii) : ascii :=
  let n := nat_of_ascii c in
  if ((65 <=? n) && (n <=? 90))%nat then ascii_of_nat (n + 32) else c.

Fixpoint lower (s : string) : string :=
  match s with
  | EmptyString => EmptyString
  | String c s' => String (lower_ascii c) (lower s')
  end.

(** [s.endswith(suffix)] *)
Fixpoint endswith (s suffix : string) : bool :=
  bool_decide (s = suffix)
  || match s with
     | EmptyString => false
     | String _ s' => endswith s' suffix
     end.

(** The first [n] characters of a text. *)
Fixpoint string_take (n : nat) (s : string) : string :=
  match n, s with
  | S n', String c s' => String c (string_take n' s')
  | _, _ => EmptyString
  end.

(** The file system: the text of every file that exists, by path. *)
Abbreviation files := (gmap string string).

(** [_cleanup_backup_file].  [remove_fault p] says whether [os.remove(p)]
    raises; the exception is caught and logged, and the backup file stays
    where it is. *)
Definition cleanup_backup_file (remove_fault : string → bool)
    (path : string) (fs : files) : files :=
  let backup_path := path +:+ ".backup" in
  match fs !! backup_path with
  | Some _ => if remove_fault backup_path then fs else delete backup_path fs
  | None => fs
  end.

(** [cleanup_all_backups] *)
Definition cleanup_all_backups (remove_fault : string → bool)
    (ed : editor) (fs : files) : files :=
  match file_path ed with
  | Some p =>
      if bool_decide (p = "") then fs
      else cleanup_backup_file remove_fault p fs
  | None => fs
  end.

(** The path [save_dbc_file] writes to: its argument, or [self.file_path]
    when the argument is [None]. *)
Definition target_path (path_arg : option string) (ed : editor)
  : option string :=
  match path_arg with
  | None => file_path ed
  | Some p => Some p
  end.

Section Persistence.

(** The cantools library and the disk, as the editor uses them.

    [parse_dbc text] is [cantools.database.load_file] on a file with that
    text, followed by the attribute reads of lines 61-114, which turn each
    message and signal object into a plain record.

    [new_signal] is the [Signal] constructor with the attribute
    assignments after it (lines 325-343); [new_message] the [Message]
    constructor (lines 348-359), given the record, the signals built for
    it and [is_extended_frame]; [as_dbc_string] the serializer.  Each of
    them can raise.

    The calls that touch the disk can raise as well.  [copy_fault path]
    says how [shutil.copy2(path, path + '.backup')] ends: [None] when the
    copy is made, [Some None] when it raises before the backup file is
    written to, [Some (Some n)] when it raises after [n] characters have
    reached the backup file.  [open_fault path] says whether
    [open(path, 'w')] raises, which leaves the file as it is.
    [write_fault text] says how [f.write(text)] ends: [None] when all of
    the text reaches the file, [Some n] when the write fails after [n]
    characters.  [remove_fault] is that of [_cleanup_backup_file]. *)
Variable parse_dbc : string → result (list message_val).
Variables can_signal can_message : Type.
Variable new_signal : signal_val → result can_signal.
Variable new_message :
  message_obj → list string → list can_signal → bool → result can_message.
Variable as_dbc_string : list can_message → result string.
Variable copy_fault : string → option (option nat).
Variable open_fault : string → bool.
Variable write_fault : string → option nat.
Variable remove_fault : string → bool.

(** The copy of lines 118-145, for one signal: a new dictionary and a new
    list of receivers. *)
Definition deep_copy_signal (l : loc) (h : store) : result (loc * store) :=
  sig ← deref (sig_dicts h !! l);
  receivers ← deref (str_lists h !! sig_receivers sig);
  let '(receivers', h1) := alloc_str_list receivers h in
  Ok (alloc_sig (sig_with_receivers sig receivers') h1).

(** ... and for one message. *)
Definition deep_copy_message (l : loc) (h : store) : result (loc * store) :=
  msg ← deref (msg_dicts h !! l);
  senders ← deref (str_lists h !! msg_senders msg);
  let '(senders', h1) := alloc_str_list senders h in
  sigs ← deref (sig_lists h1 !! msg_signals msg);
  '(sigs', h2) ← mapM_store deep_copy_signal sigs h1;
  let '(signals', h3) := alloc_sig_list sigs' h2 in
  Ok (alloc_msg (six_keys (msg_with_refs msg senders' signals')) h3).

(** [load_dbc_file].  Every exception is re-raised as a [DBCEditorError]
    that quotes it. *)
Definition load_dbc_file (path : string) (ed : editor) (fs : files)
  : result (list loc) * editor :=
  let failed (e : exn) : result (list loc) :=
    Raise (dbc_error ("Failed to load DBC: " +:+ exn_str e)) in
  match fs !! path with
  | None => (failed (dbc_error ("DBC file not found: " +:+ path)), ed)
  | Some text =>
      if negb (endswith (lower path) ".dbc")
      then (failed (dbc_error "File must have .dbc extension"), ed)
      else
        let ed1 := Editor (db ed) (Some path) (original_data ed)
                          (modified_data ed) (heap ed) in
        match parse_dbc text with
        | Raise e => (failed e, ed1)
        | Ok database =>
            let '(messages_data, h1) :=
              alloc_message_vals (six_keys <$> database) (heap ed) in
            match mapM_store deep_copy_message messages_data h1 with
            | Raise e =>
                (failed e,
                 Editor (Some database) (Some path) (Some messages_data)
                        (modified_data ed) h1)
            | Ok (copies, h2) =>
                (Ok messages_data,
                 Editor (Some database) (Some path) (Some messages_data)
                        (Some copies) h2)
            end
        end
  end.

(** Lines 323-345: the signals of one message. *)
Definition rebuild_signals (h : store) (sigs : list loc)
  : result (list can_signal) :=
  mapM (M := result) (λ l,
    sv ← deref (view_signal h l);
    new_signal sv) sigs.

(** Lines 321-361: the cantools messages of the working copy. *)
Definition rebuild_messages (h : store) (msgs : list loc)
  : result (list can_message) :=
  mapM (M := result) (λ l,
    msg ← deref (msg_dicts h !! l);
    sigs ← deref (sig_lists h !! msg_signals msg);
    signals ← rebuild_signals h sigs;
    senders ← deref (str_lists h !! msg_senders msg);
    new_message msg senders signals (0x7FF <? msg_frame_id msg)) msgs.

(** Lines 319-361: the database built from the working copy.  Reading
    [self._modified_data['messages']] raises when no document is open. *)
Definition rebuild_database (ed : editor) : result (list can_message) :=
  msgs ← match modified_data ed with
         | Some msgs => Ok msgs
         | None => Raise (Exn TypeError "'NoneType' object is not subscriptable")
         end;
  rebuild_messages (heap ed) msgs.

(** Lines 313-316: the backup of a file that exists. *)
Definition backup_copy (path : string) (fs : files) : result unit * files :=
  match fs !! path with
  | None => (Ok (), fs)
  | Some text =>
      match copy_fault path with
      | None => (Ok (), <[path +:+ ".backup" := text]> fs)
      | Some None => (Raise (Exn OSError "copy failed"), fs)
      | Some (Some n) =>
          (Raise (Exn OSError "copy failed"),
           <[path +:+ ".backup" := string_take n text]> fs)
      end
  end.

(** [save_dbc_file], with the file system before and after.  [open(path,
    'w')] empties the file before [as_dbc_string] is called. *)
Definition save_dbc_file (path_arg : option string) (ed : editor) (fs : files)
  : result unit * editor * files :=
  let failed (e : exn) : result unit :=
    Raise (dbc_error ("Failed to save DBC: " +:+ exn_str e)) in
  match target_path path_arg ed with
  | None => (failed (dbc_error "No file path specified for saving"), ed, fs)
  | Some path =>
      if bool_decide (path = "")
      then (failed (dbc_error "No file path specified for saving"), ed, fs)
      else
        match backup_copy path fs with
        | (Raise e, fs1) => (failed e, ed, fs1)
        | (Ok _, fs1) =>
            match rebuild_database ed with
            | Raise e => (failed e, ed, fs1)
            | Ok database =>
                if open_fault path
                then (failed (Exn OSError "open failed"), ed, fs1)
                else
                  let fs2 := <[path := ""]> fs1 in
                  match as_dbc_string database with
                  | Raise e => (failed e, ed, fs2)
                  | Ok text =>
                      match write_fault text with
                      | Some n =>
                          (failed (Exn OSError "write failed"), ed,
                           <[path := string_take n text]> fs2)
                      | None =>
                          let fs3 := <[path := text]> fs2 in
                          let msgs := match modified_data ed with
                                      | Some msgs => msgs
                                      | None => []
                                      end in
                          match mapM_store copy_msg_dict msgs (heap ed) with
                          | Raise e => (failed e, ed, fs3)
                          | Ok (copies, h) =>
                              (Ok (),
                               Editor (db ed) (file_path ed) (Some copies)
                                      (modified_data ed) h,
                               cleanup_backup_file remove_fault path fs3)
                          end
                      end
                  end
            end
        end
  end.

End Persistence.

(** ** A concrete library and two small documents, for the examples *)

Module Demo.

(** Signal [S]: start bit 0, length 8, unsigned, scale 1, offset 0. *)
Definition sig_S : signal_val :=
  Signal "S" 0 8 false 1%Qc 0%Qc None None "" [] "".

(** Message [M]: frame id 0x100, length 8, the one signal [S]. *)
Definition msg_M : message_val := Message "M" 0x100 8 [] [sig_S] "" ∅.

Definition msg_N : message_val := Message "N" 0x101 8 [] [] "" ∅.


(** A library that accepts every record: its objects are the records. *)
Definition parse (text : string) : result (list message_val) :=
  if bool_decide (text = "one") then Ok [msg_M] else Ok [msg_M; msg_N].
Definition new_signal (s : signal_val) : result signal_val := Ok s.
Definition new_message (m : message_obj) (senders : list string)
    (signals : list signal_val) (extended : bool) : result message_val :=
  Ok (msg_with_refs m senders signals).
Definition as_dbc_string (d : list message_val) : result string :=
  Ok "VERSION".

(** A serializer that raises. *)
Definition failing_as_dbc_string (d : list message_val) : result string :=
  Raise (Exn LibraryError "cannot serialize").

(** A disk on which nothing fails. *)
Definition no_fault (text : string) : option nat := None.
Definition no_copy_fault (path : string) : option (option nat) := None.
Definition never (path : string) : bool := false.

Definition disk : files :=
  <["one.dbc" := "one"]> (<["two.dbc" := "two"]> (<["TWO.DBC" := "two"]> ∅)).

Definition load (path : string) (ed : editor) (fs : files) :=
  load_dbc_file parse path ed fs.
Definition save (path : option string) (ed : editor) (fs : files) :=
  save_dbc_file signal_val message_val new_signal new_message
                as_dbc_string no_copy_fault never no_fault never path ed fs.
Definition save_failing (path : option string) (ed : editor) (fs : files) :=
  save_dbc_file signal_val message_val new_signal new_message
                failing_as_dbc_string no_copy_fault never no_fault never
                path ed fs.

(** Disks on which the backup copy fails before it has written anything,
    on which the file cannot be opened for writing, and on which the backup
    cannot be removed. *)
Definition copy_fails (path : string) : option (option nat) := Some None.
Definition always (path : string) : bool := true.
Definition save_copy_fails (path : option string) (ed : editor) (fs : files) :=
  save_dbc_file signal_val message_val new_signal new_message
                as_dbc_string copy_fails never no_fault never path ed fs.
Definition save_open_fails (path : option string) (ed : editor) (fs : files) :=
  save_dbc_file signal_val message_val new_signal new_message
                as_dbc_string no_copy_fault always no_fault never path ed fs.
Definition save_remove_fails (path : option string) (ed : editor)
    (fs : files) :=
  save_dbc_file signal_val message_val new_signal new_message
                as_dbc_string no_copy_fault never no_fault always path ed fs.

(** The editor after [load("one.dbc")] and after [load("two.dbc")]. *)
Definition loaded_one : editor := (load "one.dbc" init disk).2.
Definition loaded_two : editor := (load "two.dbc" init disk).2.

(** ... and after a [save()] that follows. *)
Definition saved_one : editor := (save None loaded_one disk).1.2.
Definition saved_two : editor := (save None loaded_two disk).1.2.

(** The snapshot and the working copy, read as values. *)
Definition original_view (ed : editor) : option (list message_val) :=
  original_data ed ≫= view_messages (heap ed).
Definition working_view (ed : editor) : option (list message_val) :=
  modified_data ed ≫= view_messages (heap ed).



(** A caller that builds a signal dictionary and hands it to
    [add_signal]. *)
Definition add_new_signal (msg_idx : Z) (v : signal_val) (ed : editor)
  : result unit * editor :=
  let '(l, h) := alloc_signal_val v (heap ed) in
  add_signal msg_idx l (set_heap h ed).

(** ... to [update_signal]. *)
Definition update_with_new_signal (msg_idx sig_idx : Z) (v : signal_val)
    (ed : editor) : result unit * editor :=
  let '(l, h) := alloc_signal_val v (heap ed) in
  update_signal msg_idx sig_idx l (set_heap h ed).

(** A caller that builds a message dictionary and hands it to
    [update_message]. *)
Definition update_with_new_message (idx : Z) (v : message_val) (ed : editor)
  : result unit * editor :=
  let '(l, h) := alloc_message_val v (heap ed) in
  update_message idx l (set_heap h ed).

End Demo.


(** ** Sequences of edits *)

(** A call of one of the editing methods.  Where the method takes a
    dictionary, the caller builds it from a value just before the call, as
    a dictionary literal does. *)
Inductive edit :=
  | AddMessage (v : message_val)
  | UpdateMessage (idx : Z) (v : message_val)
  | DeleteMessage (idx : Z)
  | DuplicateMessage (idx : Z)
  | MoveMessageUp (idx : Z)
  | MoveMessageDown (idx : Z)
  | AddSignal (msg_idx : Z) (v : signal_val)
  | UpdateSignal (msg_idx sig_idx : Z) (v : signal_val)
  | DeleteSignal (msg_idx sig_idx : Z)
  | DuplicateSignal (msg_idx sig_idx : Z)
  | MoveSignalUp (msg_idx sig_idx : Z)
  | MoveSignalDown (msg_idx sig_idx : Z).

(** The editor after the call, whether it returned or raised. *)
Definition apply_edit (ed : editor) (e : edit) : editor :=
  match e with
  | AddMessage v =>
      let '(l, h) := alloc_message_val v (heap ed) in
      (add_message l (set_heap h ed)).2
  | UpdateMessage idx v =>
      let '(l, h) := alloc_message_val v (heap ed) in
      (update_message idx l (set_heap h ed)).2
  | DeleteMessage idx => (delete_message idx ed).2
  | DuplicateMessage idx => (duplicate_message idx ed).2
  | MoveMessageUp idx => (move_message_up idx ed).2
  | MoveMessageDown idx => (move_message_down idx ed).2
  | AddSignal msg_idx v =>
      let '(l, h) := alloc_signal_val v (heap ed) in
      (add_signal msg_idx l (set_heap h ed)).2
  | UpdateSignal msg_idx sig_idx v =>
      let '(l, h) := alloc_signal_val v (heap ed) in
      (update_signal msg_idx sig_idx l (set_heap h ed)).2
  | DeleteSignal msg_idx sig_idx => (delete_signal msg_idx sig_idx ed).2
  | DuplicateSignal msg_idx sig_idx => (duplicate_signal msg_idx sig_idx ed).2
  | MoveSignalUp msg_idx sig_idx => (move_signal_up msg_idx sig_idx ed).2
  | MoveSignalDown msg_idx sig_idx => (move_signal_down msg_idx sig_idx ed).2
  end.

(** The working copy holds none of the lists of signals that existed in
    the store [h0]: every message of the working copy is a dictionary
    whose list of signals was made after [h0]. *)
Definition apart (h0 : store) (ed : editor) : Prop :=
  heap_ext h0 (heap ed)
  ∧ Forall (λ l, ∃ m, msg_dicts (heap ed) !! l = Some m
                      ∧ (length (sig_lists h0) ≤ msg_signals m)%nat)
      (default [] (modified_data ed)).

(** ** Saving *)

(** The disk after a save that went through: the backup written first,
    the file emptied and written, the backup removed. *)
Definition saved_disk (remove_fault : string → bool) (path text : string)
    (fs : files) : files :=
  cleanup_backup_file remove_fault path
    (<[path := text]>
       (<[path := ""]>
          match fs !! path with
          | Some old => <[path +:+ ".backup" := old]> fs
          | None => fs
          end)).

(** ** The summary *)

(** What the lists of signals hold is filed under a message that is
    listed as modified. *)
Definition filed (c : changes) : Prop :=
  ∀ q, q ∈ added_signals c ++ deleted_signals c ++ modified_signals c →
    ∃ m s, q = qualified m s ∧ m ∈ modified_messages c.

(** ** Comments read from the library *)

(** What [_extract_comment_text] can be handed: [None], a string, a
    dictionary, or an object of another type, of which the function uses
    the truth value only ([str()] of every object is a parameter below).
    The keys of a dictionary are never looked at. *)
Inductive pykey :=
  | KeyNone
  | KeyStr (s : string).

#[warnings="-register-all"] Inductive pyobj :=
  | PyNone
  | PyStr (s : string)
  | PyDict (items : list (pykey * pyobj))
  | PyOther (truth : bool).

(** [bool(obj)] *)
Definition truthy (obj : pyobj) : bool :=
  match obj with
  | PyNone => false
  | PyStr s => negb (String.eqb s EmptyString)
  | PyDict items => negb (bool_decide (items = []))
  | PyOther truth => truth
  end.

(** [s.startswith(prefix)] *)
Fixpoint startswith (s prefix : string) {struct prefix} : bool :=
  match prefix, s with
  | EmptyString, _ => true
  | String a prefix', String b s' => Ascii.eqb a b && startswith s' prefix'
  | String _ _, EmptyString => false
  end.

(** [s.replace(old, new)] for a non-empty [old]: the occurrences of [old]
    are found from the left and do not overlap; [skip] counts the
    characters of an occurrence still to be passed over. *)
Fixpoint replace_from (skip : nat) (old new s : string) : string :=
  match s with
  | EmptyString => EmptyString
  | String c s' =>
      match skip with
      | S skip' => replace_from skip' old new s'
      | O =>
          if startswith s old
          then new +:+ replace_from (String.length old - 1) old new s'
          else String c (replace_from 0 old new s')
      end
  end.

(** [s.replace(old, new)]; with an empty [old], [new] goes before every
    character and at the end. *)
Definition replace (s old new : string) : string :=
  match old with
  | EmptyString =>
      (fix between (s : string) : string :=
         match s with
         | EmptyString => new
         | String c s' => new +:+ String c (between s')
         end) s
  | String _ _ => replace_from 0 old new s
  end.

(** [s.lstrip(chars)], [s.rstrip(chars)] and [s.strip(chars)] *)
Fixpoint lstrip (chars : list ascii) (s : string) : string :=
  match s with
  | EmptyString => EmptyString
  | String c s' => if bool_decide (c ∈ chars) then lstrip chars s' else s
  end.

Fixpoint rstrip (chars : list ascii) (s : string) : string :=
  match s with
  | EmptyString => EmptyString
  | String c s' =>
      match rstrip chars s' with
      | EmptyString =>
          if bool_decide (c ∈ chars) then EmptyString
          else String c EmptyString
      | r => String c r
      end
  end.

Definition strip (chars : list ascii) (s : string) : string :=
  rstrip chars (lstrip chars s).

(** The double quote and the backslash. *)
Definition dquote : ascii := "034"%char.
Definition backslash : ascii := "092"%char.

(** The mis-decoded sequence of line 517, as its UTF-8 bytes. *)
Definition artifact : string :=
  "ÃƒÆÃ†â€™Ãƒâ€šÃ‚Â¢ÃƒÆÃ‚Â¢ÃƒÂ¢Ã¢â€šÂ¬Ã…Â¡Ãƒâ€šÃ‚Â¬ÃƒÆÃ¢â‚¬Å¡Ãƒâ€šÃ‚Â¦".

(** Lines 511-517: what is done to a string found in the dictionary. *)
Definition clean (value : string) : string :=
  let cleaned :=
    replace (replace value (String backslash "'") "'")
            (String backslash (String dquote EmptyString))
            (String dquote EmptyString) in
  let cleaned := replace (replace cleaned "{None: " EmptyString) "}" EmptyString in
  let cleaned := strip ["'"%char; dquote] cleaned in
  replace cleaned artifact EmptyString.

Section Comments.

(** [str(obj)] *)
Variable str : pyobj → string.

(** The loop [for key, value in comment_dict.items()] (lines 508-522);
    [recurse] is the call on a nested dictionary and [fallback] what line
    524 returns. *)
Definition first_comment (recurse : pyobj → string) (fallback : string)
  : list (pykey * pyobj) → string :=
  fix loop (items : list (pykey * pyobj)) : string :=
    match items with
    | [] => fallback
    | (_, PyStr value) :: _ => clean value
    | (_, PyDict _ as value) :: rest =>
        let result := recurse value in
        if negb (String.eqb result EmptyString)
           && negb (String.eqb result (str value))
        then result
        else loop rest
    | _ :: rest => loop rest
    end.

(** [_extract_comment_from_dict] *)
Fixpoint extract_comment_from_dict (comment_dict : pyobj) (max_depth : Z)
  : string :=
  match comment_dict with
  | PyDict items =>
      if max_depth <=? 0 then str comment_dict
      else first_comment
             (λ value, extract_comment_from_dict value (max_depth - 1))
             (str comment_dict) items
  | _ => str comment_dict
  end.

(** [_extract_comment_text] *)
Definition extract_comment_text (comment_obj : pyobj) (max_depth : Z)
  : string :=
  if negb (truthy comment_obj) then EmptyString
  else
    match comment_obj with
    | PyStr s => s
    | PyDict _ => extract_comment_from_dict comment_obj max_depth
    | _ => str comment_obj
    end.

End Comments.

(** A string value of a dictionary, [n] dictionaries below it. *)
Inductive string_at : nat → pyobj → string → Prop :=
  | string_here items k s :
      (k, PyStr s) ∈ items → string_at 0 (PyDict items) s
  | string_below n items k d s :
      (k, d) ∈ items → string_at n d s → string_at (S n) (PyDict items) s.

(** ** Recent files ([RecentFilesManager], home_screen.py) *)

(** An entry [{"path": ..., "last_opened": ...}]. *)
Record recent_entry := RecentEntry {
  entry_path : string;
  last_opened : Z
}.

#[global] Instance recent_entry_eq_dec : EqDecision recent_entry.
Proof. solve_decision. Defined.

Section RecentFiles.

(** [os.path.normpath], [self._max_files] and [os.path.exists]. *)
Variable normpath : string → string.
Variable max_files : nat.
Variable exists_ : string → bool.

(** [_load_entries], from the entries that the JSON text kept under
    ['recentFiles'] encodes. *)
Definition load_entries (stored : list recent_entry) : list recent_entry :=
  take max_files
    (omap (λ it,
       if bool_decide (entry_path it = EmptyString) then None
       else Some (RecentEntry (normpath (entry_path it)) (last_opened it)))
     stored).

(** One turn of the loop of [_save_entries] (lines 83-98), on [unique] and
    [seen]. *)
Definition save_step (st : list recent_entry * gset string)
    (e : recent_entry) : list recent_entry * gset string :=
  if bool_decide (entry_path e = EmptyString) then st
  else
    let p := normpath (entry_path e) in
    if bool_decide (p ∈ st.2) then st
    else (st.1 ++ [RecentEntry p (last_opened e)], {[p]} ∪ st.2).

(** [_save_entries]: the entries written to the settings. *)
Definition save_entries (entries : list recent_entry) : list recent_entry :=
  take max_files (foldl save_step ([], ∅) entries).1.

(** [get_recent_files] *)
Definition get_recent_files (stored : list recent_entry) : list string :=
  entry_path <$> load_entries stored.

(** [set_recent_files] *)
Definition set_recent_files (paths : list string) : list recent_entry :=
  save_entries
    ((λ p, RecentEntry (normpath p) 0)
     <$> filter (λ p, p ≠ EmptyString) paths).

(** [add_file]; [now] is [int(time.time())]. *)
Definition add_file (path : string) (now : Z) (stored : list recent_entry)
  : list recent_entry :=
  if bool_decide (path = EmptyString) then stored
  else
    let path := normpath path in
    let entries := load_entries stored in
    let entries := filter (λ e, entry_path e ≠ path) entries in
    save_entries (RecentEntry path now :: entries).

(** [remove_file] *)
Definition remove_file (path : string) (stored : list recent_entry)
  : list recent_entry :=
  if bool_decide (path = EmptyString) then stored
  else
    let path := normpath path in
    save_entries (filter (λ e, entry_path e ≠ path) (load_entries stored)).

(** [prune_missing] *)
Definition prune_missing (stored : list recent_entry) : list recent_entry :=
  save_entries
    (filter (λ e, exists_ (entry_path e) = true) (load_entries stored)).

End RecentFiles.

(** Entries as [_save_entries] leaves them: paths that are not empty, are
    normalized and are all different. *)
Definition tidy (normpath : string → string) (es : list recent_entry)
  : Prop :=
  Forall (λ e, entry_path e ≠ EmptyString
               ∧ normpath (entry_path e) = entry_path e) es
  ∧ NoDup (entry_path <$> es).

(** * Properties *)

(** ** Indexing *)

Lemma norm_index_nonneg (n : nat) (i : Z) :
  0 ≤ i < Z.of_nat n → norm_index n i = Some (Z.to_nat i).
Proof.
  intros [H0 Hn]. unfold norm_index.
  destruct (Z.ltb_spec i 0) as [?|_]; [lia|].
  destruct (Z.leb_spec 0 i) as [_|?]; [|lia].
  destruct (Z.ltb_spec i (Z.of_nat n)) as [_|?]; [done|lia].
Qed.

Lemma py_getitem_nonneg {A} (l : list A) (i : Z) (x : A) :
  0 ≤ i → l !! Z.to_nat i = Some x → py_getitem l i = Ok x.
Proof.
  intros H0 Hx. unfold py_getitem.
  rewrite norm_index_nonneg; [simpl; by rewrite Hx|].
  apply lookup_lt_Some in Hx. lia.
Qed.

Lemma py_setitem_nonneg {A} (l : list A) (i : Z) (x : A) :
  0 ≤ i < len l → py_setitem l i x = Ok (<[Z.to_nat i := x]> l).
Proof. intros H. unfold py_setitem. by rewrite norm_index_nonneg. Qed.

(** ** Moves at the boundary *)

(** C8: [move_message_up] at index 0 and [move_message_down] at the last
    index raise and leave the editor, hence every element of the working
    list, as it was; so do [move_signal_up] at signal index 0 and
    [move_signal_down] at the last index of a message's list of signals. *)
Theorem move_at_boundary_fails (ed : editor) :
  move_message_up 0 ed
    = (Raise (dbc_error "Invalid message move operation"), ed)
  ∧ (∀ msgs, modified_data ed = Some msgs →
       move_message_down (len msgs - 1) ed
         = (Raise (dbc_error "Invalid message move operation"), ed))
  ∧ (∀ msg_idx, ∃ e, move_signal_up msg_idx 0 ed = (Raise e, ed))
  ∧ (∀ msgs msg_idx sl signals,
       modified_data ed = Some msgs →
       signals_of (heap ed) msgs msg_idx = Ok (sl, signals) →
       ∃ e, move_signal_down msg_idx (len signals - 1) ed = (Raise e, ed)).
Proof.
  repeat split.
  - unfold move_message_up. by destruct (modified_data ed).
  - intros msgs Hm. unfold move_message_down. rewrite Hm.
    rewrite Z.leb_refl. by rewrite orb_true_r.
  - intros msg_idx. unfold move_signal_up.
    destruct (modified_data ed) as [msgs|]; [|eauto].
    destruct ((msg_idx <? 0) || (len msgs <=? msg_idx)); [eauto|].
    destruct (signals_of (heap ed) msgs msg_idx) as [[sl signals]|e];
      simpl; eauto.
  - intros msgs msg_idx sl signals Hm Hs. unfold move_signal_down.
    rewrite Hm.
    destruct ((msg_idx <? 0) || (len msgs <=? msg_idx)); [eauto|].
    rewrite Hs. simpl. rewrite Z.leb_refl, orb_true_r. simpl. eauto.
Qed.

Lemma move_at_boundary_fails_witness :
  ∃ e, move_signal_down 0 0 Demo.loaded_one = (Raise e, Demo.loaded_one).
Proof.
  destruct (move_at_boundary_fails Demo.loaded_one) as (_ & _ & _ & H).
  apply (H [1%nat] 0 1%nat [1%nat]); reflexivity.
Defined.

(** ** Before any document is open *)

(** C10: while the original snapshot is absent, [has_changes] is false
    whatever the working copy holds; [add_message] succeeds there, starting
    from an empty working list when there is none, and [has_changes] is
    still false afterwards. *)
Theorem no_snapshot_no_changes (ed : editor) (H : original_data ed = None) :
  has_changes ed = false
  ∧ ∀ message, ∃ ed',
      add_message message ed = (Ok (), ed')
      ∧ modified_data ed' = Some (default [] (modified_data ed) ++ [message])
      ∧ (modified_data ed = None → modified_data ed' = Some [message])
      ∧ original_data ed' = None
      ∧ has_changes ed' = false.
Proof.
  split.
  - unfold has_changes. by rewrite H.
  - intros message.
    exists (set_modified (Some (default [] (modified_data ed) ++ [message])) ed).
    unfold add_message, has_changes. simpl. rewrite H.
    destruct (modified_data ed); simpl; repeat split; done.
Qed.

Lemma no_snapshot_no_changes_witness :
  has_changes init = false
  ∧ ∀ message, ∃ ed',
      add_message message init = (Ok (), ed')
      ∧ modified_data ed' = Some (default [] (modified_data init) ++ [message])
      ∧ (modified_data init = None → modified_data ed' = Some [message])
      ∧ original_data ed' = None
      ∧ has_changes ed' = false.
Proof. apply (no_snapshot_no_changes init). reflexivity. Defined.

(** ** The two views of a change *)

(** C4: there is a snapshot and a working list, the same two messages in
    swapped order, for which [has_changes] is true and every list of
    [get_changes_summary] is empty. *)
Theorem swapped_messages_disagree :
  ∃ (ed : editor) (orig work : list loc) (a b : message_val),
    original_data ed = Some orig
    ∧ modified_data ed = Some work
    ∧ view_messages (heap ed) orig = Some [a; b]
    ∧ view_messages (heap ed) work = Some [b; a]
    ∧ a ≠ b
    ∧ has_changes ed = true
    ∧ get_changes_summary ed = Summary (Changes [] [] [] [] [] []).
Proof.
  exists (move_message_down 0 Demo.loaded_two).2.
  exists [0%nat; 1%nat], [3%nat; 2%nat], Demo.msg_M, Demo.msg_N.
  repeat split; try by vm_compute.
Qed.

(** ** Indices out of range *)

(** An index at or past the end is refused by every index-based method, and
    nothing changes. *)
Lemma index_past_end_rejected (ed : editor) (msgs : list loc) (idx : Z) :
  modified_data ed = Some msgs → len msgs ≤ idx →
  (∀ message, update_message idx message ed
     = (Raise (dbc_error "Invalid message index"), ed))
  ∧ delete_message idx ed = (Raise (dbc_error "Invalid message index"), ed)
  ∧ (∀ signal, add_signal idx signal ed
       = (Raise (dbc_error "Invalid message index"), ed))
  ∧ (∀ sig_idx signal, update_signal idx sig_idx signal ed
       = (Raise (dbc_error "Invalid message index"), ed))
  ∧ (∀ sig_idx, delete_signal idx sig_idx ed
       = (Raise (dbc_error "Invalid message index"), ed)).
Proof.
  intros Hm Hidx.
  unfold update_message, delete_message, add_signal, update_signal,
    delete_signal.
  rewrite Hm. destruct (Z.leb_spec (len msgs) idx) as [_|?]; [|lia].
  repeat split.
Qed.

(** C7, at the inputs where it fails: with a working list of two
    messages, [update_message(-1, X)] replaces the last message,
    [delete_message(-1)] removes it and [delete_signal(-2, -1)] removes the
    signal of the first message; none of them raises.  An index below
    [-len] leaves the list alone but raises [IndexError], not the editor's
    "Invalid message index". *)
Theorem negative_index_not_rejected :
  let replacement : message_val := Message "X" 0x200 8 [] [] "" ∅ in
  Demo.working_view Demo.loaded_two = Some [Demo.msg_M; Demo.msg_N]
  ∧ (∃ ed', Demo.update_with_new_message (-1) replacement Demo.loaded_two
              = (Ok (), ed')
            ∧ Demo.working_view ed' = Some [Demo.msg_M; replacement])
  ∧ (∃ ed', delete_message (-1) Demo.loaded_two = (Ok (), ed')
            ∧ Demo.working_view ed' = Some [Demo.msg_M])
  ∧ (∃ ed', delete_signal (-2) (-1) Demo.loaded_two = (Ok (), ed')
            ∧ Demo.working_view ed'
              = Some [msg_with_refs Demo.msg_M [] []; Demo.msg_N])
  ∧ delete_message (-3) Demo.loaded_two
    = (Raise (Exn IndexError "list assignment index out of range"),
       Demo.loaded_two).
Proof.
  repeat split; try (eexists; split); by vm_compute.
Qed.

(** ** Sharing between the snapshot and the working copy *)

(** C2, at the inputs where it fails: after [load] and [save] of a
    document with one message [M] holding one signal [S], adding a signal
    [T] to the working copy adds it to the snapshot as well, and
    [has_changes] stays false; the same happens after [load] and
    [reset_changes].  Straight after [load] the snapshot is not touched. *)
Theorem snapshot_shared_after_save :
  let sig_T : signal_val := sig_with_name Demo.sig_S "T" in
  let grown : message_val := msg_with_refs Demo.msg_M [] [Demo.sig_S; sig_T] in
  Demo.original_view Demo.saved_one = Some [Demo.msg_M]
  ∧ (∃ ed', Demo.add_new_signal 0 sig_T Demo.saved_one = (Ok (), ed')
            ∧ Demo.working_view ed' = Some [grown]
            ∧ Demo.original_view ed' = Some [grown]
            ∧ has_changes ed' = false)
  ∧ (∃ ed1 ed', reset_changes Demo.loaded_one = (Ok (), ed1)
            ∧ Demo.original_view ed1 = Some [Demo.msg_M]
            ∧ Demo.add_new_signal 0 sig_T ed1 = (Ok (), ed')
            ∧ Demo.original_view ed' = Some [grown])
  ∧ (∃ ed', Demo.add_new_signal 0 sig_T Demo.loaded_one = (Ok (), ed')
            ∧ Demo.working_view ed' = Some [grown]
            ∧ Demo.original_view ed' = Some [Demo.msg_M]
            ∧ has_changes ed' = true).
Proof.
  repeat split; try (do 2 eexists; repeat split);
    try (eexists; repeat split); by vm_compute.
Qed.

(** ** The store only grows *)

#[global] Instance heap_ext_preorder : PreOrder heap_ext.
Proof.
  split.
  - intros h. by repeat split.
  - intros h1 h2 h3 (?&?&?&?) (?&?&?&?). repeat split; by etrans.
Qed.

Lemma alloc_msg_ext m h : heap_ext h (alloc_msg m h).2.
Proof. repeat split; simpl; try done. by apply prefix_app_r. Qed.
Lemma alloc_sig_ext s h : heap_ext h (alloc_sig s h).2.
Proof. repeat split; simpl; try done. by apply prefix_app_r. Qed.
Lemma alloc_sig_list_ext l h : heap_ext h (alloc_sig_list l h).2.
Proof. repeat split; simpl; try done. by apply prefix_app_r. Qed.
Lemma alloc_str_list_ext l h : heap_ext h (alloc_str_list l h).2.
Proof. repeat split; simpl; try done. by apply prefix_app_r. Qed.

Lemma lookup_snoc_new {A} (l : list A) (x : A) : (l ++ [x]) !! length l = Some x.
Proof. by apply list_lookup_middle. Qed.

Lemma view_signal_ext h h' l v :
  heap_ext h h' → view_signal h l = Some v → view_signal h' l = Some v.
Proof.
  intros (_ & Hs & _ & Hr). unfold view_signal.
  intros (s & Es & (r & Er & Ev)%bind_Some)%bind_Some.
  rewrite (prefix_lookup_Some _ _ _ _ Es Hs). simpl.
  by rewrite (prefix_lookup_Some _ _ _ _ Er Hr).
Qed.

Lemma view_signals_ext h h' ls vs :
  heap_ext h h' → view_signals h ls = Some vs → view_signals h' ls = Some vs.
Proof.
  intros He. unfold view_signals. rewrite !mapM_Some.
  apply Forall2_impl. intros l v. by apply view_signal_ext.
Qed.

Lemma view_message_ext h h' l v :
  heap_ext h h' → view_message h l = Some v → view_message h' l = Some v.
Proof.
  intros He. pose proof He as (Hm & _ & Hl & Hr). unfold view_message.
  intros (m & Em & (snd & Esnd & (sl & Esl & (sigs & Esigs & Ev)%bind_Some)
    %bind_Some)%bind_Some)%bind_Some.
  rewrite (prefix_lookup_Some _ _ _ _ Em Hm). simpl.
  rewrite (prefix_lookup_Some _ _ _ _ Esnd Hr). simpl.
  rewrite (prefix_lookup_Some _ _ _ _ Esl Hl). simpl.
  by rewrite (view_signals_ext _ _ _ _ He Esigs).
Qed.

Lemma view_messages_ext h h' ls vs :
  heap_ext h h' → view_messages h ls = Some vs → view_messages h' ls = Some vs.
Proof.
  intros He. unfold view_messages. rewrite !mapM_Some.
  apply Forall2_impl. intros l v. by apply view_message_ext.
Qed.

(** A signal is read through [sig_dicts] and [str_lists] only. *)
Lemma view_signal_same h h' l :
  sig_dicts h = sig_dicts h' → str_lists h = str_lists h' →
  view_signal h l = view_signal h' l.
Proof. intros Hs Hr. unfold view_signal. by rewrite Hs, Hr. Qed.

Lemma view_signals_same h h' ls :
  sig_dicts h = sig_dicts h' → str_lists h = str_lists h' →
  view_signals h ls = view_signals h' ls.
Proof.
  intros Hs Hr. unfold view_signals. induction ls as [|l ls IH]; [done|].
  simpl. by rewrite (view_signal_same h h' l Hs Hr), IH.
Qed.

(** *** Steps that copy *)

(** A step [f] that, given an object it can read as [v], allocates an
    object read as [v] too: run over a list, it yields a list read as the
    same values. *)
Lemma mapM_store_copies {V} (view : store → loc → option V)
    (f : loc → store → result (loc * store)) :
  (∀ h h' l v, heap_ext h h' → view h l = Some v → view h' l = Some v) →
  (∀ h l v, view h l = Some v →
     ∃ l' h', f l h = Ok (l', h') ∧ heap_ext h h' ∧ view h' l' = Some v) →
  ∀ ls h vs, mapM (view h) ls = Some vs →
    ∃ ls' h', mapM_store f ls h = Ok (ls', h') ∧ heap_ext h h'
              ∧ mapM (view h') ls' = Some vs.
Proof.
  intros Hmono Hf ls. induction ls as [|l ls IH]; intros h vs Hvs.
  - apply mapM_Some in Hvs. inversion Hvs; subst.
    exists [], h. by repeat split.
  - apply mapM_Some in Hvs. inversion Hvs as [|? v ? vs' Hv Hrest]; subst.
    destruct (Hf h l v Hv) as (l' & h1 & Ef & He1 & Hv').
    assert (mapM (view h1) ls = Some vs') as Hrest1.
    { apply mapM_Some. eapply Forall2_impl; [|exact Hrest].
      intros ???. by eapply Hmono. }
    destruct (IH h1 vs' Hrest1) as (ls' & h2 & Em & He2 & Hvs').
    exists (l' :: ls'), h2. simpl. rewrite Ef. simpl. rewrite Em. simpl.
    split; [done|]. split; [by etrans|].
    rewrite (Hmono h1 h2 l' v He2 Hv'). simpl. by rewrite Hvs'.
Qed.

(** The same for a step whose copy reads as [g v]. *)
Lemma mapM_store_maps {V} (view : store → loc → option V) (g : V → V)
    (f : loc → store → result (loc * store)) :
  (∀ h h' l v, heap_ext h h' → view h l = Some v → view h' l = Some v) →
  (∀ h l v, view h l = Some v →
     ∃ l' h', f l h = Ok (l', h') ∧ heap_ext h h'
              ∧ view h' l' = Some (g v)) →
  ∀ ls h (vs : list V), mapM (view h) ls = Some vs →
    ∃ ls' h', mapM_store f ls h = Ok (ls', h') ∧ heap_ext h h'
              ∧ mapM (view h') ls' = Some (g <$> vs).
Proof.
  intros Hmono Hf ls. induction ls as [|l ls IH]; intros h vs Hvs.
  - apply mapM_Some in Hvs. inversion Hvs; subst.
    exists [], h. by repeat split.
  - apply mapM_Some in Hvs. inversion Hvs as [|? v ? vs' Hv Hrest]; subst.
    destruct (Hf h l v Hv) as (l' & h1 & Ef & He1 & Hv').
    assert (mapM (view h1) ls = Some vs') as Hrest1.
    { apply mapM_Some. eapply Forall2_impl; [|exact Hrest].
      intros ???. by eapply Hmono. }
    destruct (IH h1 vs' Hrest1) as (ls' & h2 & Em & He2 & Hvs').
    exists (l' :: ls'), h2. simpl. rewrite Ef. simpl. rewrite Em. simpl.
    split; [done|]. split; [by etrans|].
    rewrite (Hmono h1 h2 l' (g v) He2 Hv'). simpl. by rewrite Hvs'.
Qed.



Lemma deep_copy_signal_spec h l v :
  view_signal h l = Some v →
  ∃ l' h', deep_copy_signal l h = Ok (l', h') ∧ heap_ext h h'
           ∧ view_signal h' l' = Some v.
Proof.
  unfold view_signal at 1.
  intros (s & Es & (r & Er & Ev)%bind_Some)%bind_Some.
  unfold deep_copy_signal. rewrite Es. simpl. rewrite Er. simpl.
  eexists _, _. split; [done|]. split.
  - etrans; [apply (alloc_str_list_ext r)|]. apply alloc_sig_ext.
  - unfold view_signal. simpl. rewrite lookup_snoc_new. simpl.
    rewrite lookup_snoc_new. simpl. simplify_eq. done.
Qed.

(** *** Dictionaries built from values *)

Lemma sig_with_receivers_id (v : signal_val) (l : loc) :
  sig_with_receivers (sig_with_receivers v l) (sig_receivers v) = v.
Proof. by destruct v. Qed.

Lemma msg_with_refs_id (v : message_val) (a b : loc) :
  msg_with_refs (msg_with_refs v a b) (msg_senders v) (msg_signals v) = v.
Proof. by destruct v. Qed.

Lemma alloc_signal_val_spec v h :
  heap_ext h (alloc_signal_val v h).2
  ∧ view_signal (alloc_signal_val v h).2 (alloc_signal_val v h).1 = Some v.
Proof.
  unfold alloc_signal_val. split.
  - trans (alloc_str_list (sig_receivers v) h).2; [apply alloc_str_list_ext|].
    apply (alloc_sig_ext (sig_with_receivers v (length (str_lists h)))).
  - unfold view_signal. simpl. rewrite lookup_snoc_new. simpl.
    rewrite lookup_snoc_new. simpl. by rewrite sig_with_receivers_id.
Qed.

Lemma alloc_signal_vals_spec vs h :
  heap_ext h (alloc_signal_vals vs h).2
  ∧ view_signals (alloc_signal_vals vs h).2 (alloc_signal_vals vs h).1 = Some vs.
Proof.
  revert h. induction vs as [|v vs IH]; intros h; [done|].
  cbn [alloc_signal_vals]. destruct (alloc_signal_val_spec v h) as [He1 Hv1].
  destruct (alloc_signal_val v h) as [l h1]. simpl in *.
  destruct (IH h1) as [He2 Hv2].
  destruct (alloc_signal_vals vs h1) as [ls h2]. simpl in *.
  split; [etrans; [exact He1|exact He2]|].
  unfold view_signals in *. simpl.
  rewrite (view_signal_ext h1 h2 l v He2 Hv1). simpl. by rewrite Hv2.
Qed.

Lemma view_message_inv h l v :
  view_message h l = Some v →
  ∃ m snd sl sigs,
    msg_dicts h !! l = Some m ∧ str_lists h !! msg_senders m = Some snd
    ∧ sig_lists h !! msg_signals m = Some sl ∧ view_signals h sl = Some sigs
    ∧ v = msg_with_refs m snd sigs.
Proof.
  unfold view_message.
  intros (m & Em & (snd & Esnd & (sl & Esl & (sigs & Esigs & Ev)%bind_Some)
    %bind_Some)%bind_Some)%bind_Some.
  exists m, snd, sl, sigs. by simplify_eq.
Qed.

Lemma view_message_intro h l m snd sl sigs :
  msg_dicts h !! l = Some m → str_lists h !! msg_senders m = Some snd →
  sig_lists h !! msg_signals m = Some sl → view_signals h sl = Some sigs →
  view_message h l = Some (msg_with_refs m snd sigs).
Proof.
  intros Em Esnd Esl Esigs. unfold view_message.
  rewrite Em. simpl. rewrite Esnd. simpl. rewrite Esl. simpl.
  by rewrite Esigs.
Qed.

Lemma alloc_message_val_spec v h :
  heap_ext h (alloc_message_val v h).2
  ∧ view_message (alloc_message_val v h).2 (alloc_message_val v h).1 = Some v.
Proof.
  unfold alloc_message_val.
  destruct (alloc_signal_vals_spec (msg_signals v) h) as [He1 Hv1].
  destruct (alloc_signal_vals (msg_signals v) h) as [sigs h1].
  cbn [fst snd] in He1, Hv1.
  assert (heap_ext h1
    (let '(sl, h2) := alloc_sig_list sigs h1 in
     let '(snd, h3) := alloc_str_list (msg_senders v) h2 in
     alloc_msg (msg_with_refs v snd sl) h3).2) as He2.
  { trans (alloc_sig_list sigs h1).2; [apply alloc_sig_list_ext|].
    trans (alloc_str_list (msg_senders v) (alloc_sig_list sigs h1).2).2;
      [apply alloc_str_list_ext|].
    apply (alloc_msg_ext
      (msg_with_refs v (length (str_lists h1)) (length (sig_lists h1)))). }
  split; [by trans h1|].
  rewrite (view_message_intro _ _
    (msg_with_refs v (length (str_lists h1)) (length (sig_lists h1)))
    (msg_senders v) sigs (msg_signals v)).
  - by rewrite msg_with_refs_id.
  - by apply list_lookup_middle.
  - by apply list_lookup_middle.
  - by apply list_lookup_middle.
  - by apply (view_signals_ext h1).
Qed.

Lemma alloc_message_vals_spec vs h :
  heap_ext h (alloc_message_vals vs h).2
  ∧ view_messages (alloc_message_vals vs h).2 (alloc_message_vals vs h).1
    = Some vs.
Proof.
  revert h. induction vs as [|v vs IH]; intros h; [done|].
  cbn [alloc_message_vals]. destruct (alloc_message_val_spec v h) as [He1 Hv1].
  destruct (alloc_message_val v h) as [l h1]. simpl in *.
  destruct (IH h1) as [He2 Hv2].
  destruct (alloc_message_vals vs h1) as [ls h2]. simpl in *.
  split; [etrans; [exact He1|exact He2]|].
  unfold view_messages in *. simpl.
  rewrite (view_message_ext h1 h2 l v He2 Hv1). simpl. by rewrite Hv2.
Qed.

(** *** Copies of a message *)

Lemma copy_msg_dict_spec h l v :
  view_message h l = Some v →
  ∃ l' h', copy_msg_dict l h = Ok (l', h') ∧ heap_ext h h'
           ∧ view_message h' l' = Some v.
Proof.
  intros Hv. pose proof Hv as (m & snd & sl & sigs & Em & Esnd & Esl & Es & ->)
    %view_message_inv.
  exists (alloc_msg m h).1, (alloc_msg m h).2.
  unfold copy_msg_dict. rewrite Em.
  split; [done|]. split; [apply alloc_msg_ext|].
  apply view_message_intro with sl; simpl; try done.
  by apply list_lookup_middle.
Qed.

Lemma six_keys_idem {S L} (m : message S L) : six_keys (six_keys m) = six_keys m.
Proof. done. Qed.

Lemma six_keys_refs {S L S' L'} (m : message S L) (s : S') (l : L') :
  six_keys (msg_with_refs m s l) = msg_with_refs (six_keys m) s l.
Proof. done. Qed.

(** The copy made at load reads as the original does, on the six keys
    named by the literal. *)
Lemma deep_copy_message_spec h l v :
  view_message h l = Some v →
  ∃ l' h', deep_copy_message l h = Ok (l', h') ∧ heap_ext h h'
           ∧ view_message h' l' = Some (six_keys v).
Proof.
  intros (m & snd & sl & sigs & Em & Esnd & Esl & Es & ->)%view_message_inv.
  unfold deep_copy_message. rewrite Em. simpl. rewrite Esnd. simpl.
  rewrite Esl. simpl.
  set (h1 := Store (msg_dicts h) (sig_dicts h) (sig_lists h)
                   (str_lists h ++ [snd])).
  assert (heap_ext h h1) as He1 by apply (alloc_str_list_ext snd).
  destruct (mapM_store_copies view_signal deep_copy_signal view_signal_ext
              deep_copy_signal_spec sl h1 sigs) as (sl' & h2 & Ec & He2 & Hv2).
  { by apply (view_signals_ext h). }
  rewrite Ec. simpl.
  eexists _, _. split; [done|]. split.
  - trans h1; [done|]. trans h2; [done|].
    trans (alloc_sig_list sl' h2).2; [apply alloc_sig_list_ext|].
    apply (alloc_msg_ext
      (six_keys
         (msg_with_refs m (length (str_lists h)) (length (sig_lists h2))))).
  - rewrite six_keys_refs.
    apply (view_message_intro _ _
      (six_keys
         (msg_with_refs m (length (str_lists h)) (length (sig_lists h2))))
      snd sl' sigs); simpl.
    + by apply list_lookup_middle.
    + destruct He2 as (_ & _ & _ & Hr).
      apply (prefix_lookup_Some (str_lists h1)); [|done].
      by apply list_lookup_middle.
    + by apply list_lookup_middle.
    + by rewrite (view_signals_same _ h2).
Qed.

(** ** Loading *)

Lemma endswith_spec (s suffix : string) :
  endswith s suffix = true ↔ ∃ p, s = p +:+ suffix.
Proof.
  induction s as [|c s IH]; simpl.
  - rewrite orb_false_r, bool_decide_eq_true. split.
    + intros <-. by exists "".
    + intros [p Hp]. destruct p; [done|discriminate].
  - rewrite orb_true_iff, bool_decide_eq_true, IH. split.
    + intros [<-|[p ->]]; [by exists ""|by exists (String c p)].
    + intros [[|c' p] Hp]; [by left|].
      injection Hp as -> ->. right. by exists p.
Qed.

(** A file that exists, has the suffix and parses is loaded: the snapshot
    and the working copy both read as the parsed records, with the six
    keys. *)
Lemma load_dbc_file_ok parse_dbc path ed fs text database :
  fs !! path = Some text → endswith (lower path) ".dbc" = true →
  parse_dbc text = Ok database →
  ∃ orig work h,
    load_dbc_file parse_dbc path ed fs
      = (Ok orig, Editor (Some database) (Some path) (Some orig) (Some work) h)
    ∧ view_messages h orig = Some (six_keys <$> database)
    ∧ view_messages h work = Some (six_keys <$> database).
Proof.
  intros Hfs Hsuf Hparse. unfold load_dbc_file.
  rewrite Hfs, Hsuf, Hparse. simpl.
  destruct (alloc_message_vals_spec (six_keys <$> database) (heap ed))
    as [He1 Hv1].
  destruct (alloc_message_vals (six_keys <$> database) (heap ed))
    as [orig h1].
  simpl in *.
  destruct (mapM_store_maps view_message six_keys deep_copy_message
              view_message_ext deep_copy_message_spec orig h1
              (six_keys <$> database) Hv1)
    as (work & h2 & Ec & He2 & Hv2).
  rewrite Ec. exists orig, work, h2. split; [done|]. split.
  - by apply (view_messages_ext h1).
  - unfold view_messages. rewrite Hv2. f_equal.
    rewrite <- list_fmap_compose. by apply list_fmap_ext.
Qed.

(** C9, as stated, fails for ["TWO.DBC"]: the file exists and its name does
    not end in [".dbc"], yet [load_dbc_file] accepts it. *)
Lemma load_accepts_upper_case_suffix :
  Demo.disk !! "TWO.DBC" = Some "two"
  ∧ (¬ ∃ p, "TWO.DBC" = p +:+ ".dbc")
  ∧ ∃ orig ed', Demo.load "TWO.DBC" init Demo.disk = (Ok orig, ed')
                ∧ file_path ed' = Some "TWO.DBC"
                ∧ Demo.working_view ed' = Some [Demo.msg_M; Demo.msg_N].
Proof.
  split; [by vm_compute|]. split.
  - rewrite <- endswith_spec. by vm_compute.
  - eexists _, _. split; [by vm_compute|]. split; by vm_compute.
Qed.

(** C9, amended: [load_dbc_file] fails with "DBC file not found" when the
    path does not exist, and with "File must have .dbc extension" when it
    exists and its lower-cased form does not end in [".dbc"]; in both cases
    the editor is left as it was.  Otherwise the file is handed to the
    parser: what the parser raises is raised, and what it parses is
    loaded, as dictionaries with the six keys of the data model. *)
Theorem load_rejects_missing_and_misnamed
    (parse_dbc : string → result (list message_val))
    (path : string) (ed : editor) (fs : files) :
  (fs !! path = None →
     load_dbc_file parse_dbc path ed fs
     = (Raise (dbc_error
          ("Failed to load DBC: DBC file not found: " +:+ path)), ed))
  ∧ (is_Some (fs !! path) → (¬ ∃ p, lower path = p +:+ ".dbc") →
     load_dbc_file parse_dbc path ed fs
     = (Raise (dbc_error
          "Failed to load DBC: File must have .dbc extension"), ed))
  ∧ (∀ text, fs !! path = Some text → (∃ p, lower path = p +:+ ".dbc") →
     match parse_dbc text with
     | Raise e =>
         load_dbc_file parse_dbc path ed fs
         = (Raise (dbc_error ("Failed to load DBC: " +:+ exn_str e)),
            Editor (db ed) (Some path) (original_data ed) (modified_data ed)
                   (heap ed))
     | Ok database =>
         ∃ orig work h,
           load_dbc_file parse_dbc path ed fs
           = (Ok orig,
              Editor (Some database) (Some path) (Some orig) (Some work) h)
           ∧ view_messages h orig = Some (six_keys <$> database)
           ∧ view_messages h work = Some (six_keys <$> database)
     end).
Proof.
  repeat split.
  - intros Hfs. unfold load_dbc_file. by rewrite Hfs.
  - intros [text Hfs] Hsuf. unfold load_dbc_file. rewrite Hfs.
    destruct (endswith (lower path) ".dbc") eqn:E; [|done].
    by apply endswith_spec in E.
  - intros text Hfs Hsuf%endswith_spec.
    destruct (parse_dbc text) as [database|e] eqn:Hparse.
    + by apply load_dbc_file_ok with text.
    + unfold load_dbc_file. by rewrite Hfs, Hsuf, Hparse.
Qed.

Lemma load_rejects_missing_and_misnamed_witness :
  Demo.load "none.dbc" init Demo.disk
  = (Raise (dbc_error "Failed to load DBC: DBC file not found: none.dbc"),
     init)
  ∧ ∃ orig work h,
      Demo.load "TWO.DBC" init Demo.disk
      = (Ok orig,
         Editor (Some [Demo.msg_M; Demo.msg_N]) (Some "TWO.DBC")
                (Some orig) (Some work) h)
      ∧ view_messages h orig = Some [Demo.msg_M; Demo.msg_N]
      ∧ view_messages h work = Some [Demo.msg_M; Demo.msg_N].
Proof.
  destruct (load_rejects_missing_and_misnamed Demo.parse "none.dbc" init
              Demo.disk) as (Hmissing & _ & _).
  destruct (load_rejects_missing_and_misnamed Demo.parse "TWO.DBC" init
              Demo.disk) as (_ & _ & Hgood).
  split.
  - apply Hmissing. reflexivity.
  - apply (Hgood "two"); [reflexivity|]. exists "two". reflexivity.
Defined.

(** ** Saving *)

Lemma backup_path_ne (path : string) : path +:+ ".backup" ≠ path.
Proof.
  induction path as [|c path IH]; [done|].
  intros H. apply IH. by injection H.
Qed.

Section Save.

Context {can_signal can_message : Type}.
Context (new_signal : signal_val → result can_signal).
Context (new_message :
  message_obj → list string → list can_signal → bool → result can_message).
Context (as_dbc_string : list can_message → result string).
Context (copy_fault : string → option (option nat)).
Context (open_fault : string → bool).
Context (write_fault : string → option nat).
Context (remove_fault : string → bool).

Local Abbreviation save :=
  (save_dbc_file can_signal can_message new_signal new_message
                 as_dbc_string copy_fault open_fault write_fault
                 remove_fault).
Local Abbreviation rebuild :=
  (rebuild_database can_signal can_message new_signal new_message).

(** C1, amended: when [save_dbc_file] on an existing file raises, the
    editor is as before and no file but the target and its backup is
    touched.  If it was the backup copy that failed, the target holds its
    old text and the backup is as it was before, or holds the part of the
    old text the copy had written.  Otherwise the backup holds the old
    text; the target has that text too if the failure came while the
    library objects were rebuilt or when the target was opened for
    writing; once it has been opened it is empty if [as_dbc_string]
    raised, and holds what was written of the new text otherwise. *)
Theorem failed_save_outcome path_arg ed fs path text e ed' fs' :
  target_path path_arg ed = Some path → path ≠ "" →
  fs !! path = Some text →
  save path_arg ed fs = (Raise e, ed', fs') →
  ed' = ed
  ∧ (∀ p, p ≠ path → p ≠ path +:+ ".backup" → fs' !! p = fs !! p)
  ∧ match copy_fault path with
    | Some written =>
        fs' !! path = Some text
        ∧ fs' !! (path +:+ ".backup")
          = match written with
            | None => fs !! (path +:+ ".backup")
            | Some n => Some (string_take n text)
            end
    | None =>
        fs' !! (path +:+ ".backup") = Some text
        ∧ match rebuild ed with
          | Raise _ => fs' !! path = Some text
          | Ok database =>
              if open_fault path then fs' !! path = Some text
              else
                match as_dbc_string database with
                | Raise _ => fs' !! path = Some ""
                | Ok new_text =>
                    match write_fault new_text with
                    | Some n => fs' !! path = Some (string_take n new_text)
                    | None => fs' !! path = Some new_text
                    end
                end
          end
    end.
Proof.
  intros Hpath Hne Hfs. unfold save_dbc_file, target_path in *.
  rewrite Hpath. rewrite bool_decide_eq_false_2 by done.
  unfold backup_copy. rewrite Hfs.
  pose proof (backup_path_ne path) as Hb.
  destruct (copy_fault path) as [[n|]|].
  { intros [= <- <- <-]. split; [done|]. split.
    - intros p _ Hp. by rewrite lookup_insert_ne.
    - split; [by rewrite lookup_insert_ne|by rewrite lookup_insert_eq]. }
  { by intros [= <- <- <-]. }
  destruct (rebuild ed) as [database|e0].
  2:{ intros [= <- <- <-]. split; [done|]. split.
      - intros p _ Hp. by rewrite lookup_insert_ne.
      - rewrite lookup_insert_eq. by rewrite lookup_insert_ne. }
  destruct (open_fault path).
  { intros [= <- <- <-]. split; [done|]. split.
    - intros p _ Hp. by rewrite lookup_insert_ne.
    - rewrite lookup_insert_eq. by rewrite lookup_insert_ne. }
  destruct (as_dbc_string database) as [new_text|e1].
  2:{ intros [= <- <- <-]. split; [done|]. split.
      - intros p Hp1 Hp2. by rewrite !lookup_insert_ne.
      - rewrite lookup_insert_eq.
        rewrite lookup_insert_ne by done. by rewrite lookup_insert_eq. }
  destruct (write_fault new_text) as [n|].
  { intros [= <- <- <-]. split; [done|]. split.
    - intros p Hp1 Hp2. by rewrite !lookup_insert_ne.
    - rewrite lookup_insert_eq.
      rewrite !lookup_insert_ne by done. by rewrite lookup_insert_eq. }
  destruct (mapM_store copy_msg_dict _ (heap ed)) as [[copies h]|e2];
    [done|].
  intros [= <- <- <-]. split; [done|]. split.
  - intros p Hp1 Hp2. by rewrite !lookup_insert_ne.
  - rewrite lookup_insert_eq.
    rewrite !lookup_insert_ne by done. by rewrite lookup_insert_eq.
Qed.

End Save.

(** C1, as stated, fails when [as_dbc_string] raises: the file
    ["one.dbc"], loaded before, held ["one"] and is empty afterwards.  The
    backup is there. *)
Lemma failed_save_empties_target :
  Demo.disk !! "one.dbc" = Some "one"
  ∧ ∃ fs',
      Demo.save_failing None Demo.loaded_one Demo.disk
      = (Raise (dbc_error "Failed to save DBC: cannot serialize"),
         Demo.loaded_one, fs')
      ∧ fs' !! "one.dbc" = Some ""
      ∧ fs' !! "one.dbc" ≠ Demo.disk !! "one.dbc"
      ∧ fs' !! "one.dbc.backup" = Some "one".
Proof.
  split; [vm_compute; reflexivity|].
  exists (Demo.save_failing None Demo.loaded_one Demo.disk).2.
  split; [vm_compute; reflexivity|]. split; [vm_compute; reflexivity|].
  split; [by vm_compute|]. vm_compute; reflexivity.
Qed.

Lemma failed_save_outcome_witness :
  (Demo.save_failing None Demo.loaded_one Demo.disk).2 !! "one.dbc.backup"
  = Some "one"
  ∧ (Demo.save_failing None Demo.loaded_one Demo.disk).2 !! "one.dbc"
    = Some "".
Proof.
  pose proof (failed_save_outcome Demo.new_signal Demo.new_message
                Demo.failing_as_dbc_string Demo.no_copy_fault Demo.never
                Demo.no_fault Demo.never
                None Demo.loaded_one Demo.disk "one.dbc" "one"
                (dbc_error "Failed to save DBC: cannot serialize")
                Demo.loaded_one
                (Demo.save_failing None Demo.loaded_one Demo.disk).2)
    as H.
  destruct H as (_ & _ & H).
  - vm_compute. reflexivity.
  - discriminate.
  - vm_compute. reflexivity.
  - vm_compute. reflexivity.
  - vm_compute in H. vm_compute. exact H.
Defined.

(** The two failures before the file is opened.  When [shutil.copy2]
    raises there is no backup; when [open] raises the backup is there and
    the file has its old text. *)
Example failed_copy_leaves_no_backup :
  ∃ fs',
    Demo.save_copy_fails None Demo.loaded_one Demo.disk
    = (Raise (dbc_error "Failed to save DBC: copy failed"),
       Demo.loaded_one, fs')
    ∧ fs' !! "one.dbc" = Some "one"
    ∧ fs' !! "one.dbc.backup" = None.
Proof.
  exists (Demo.save_copy_fails None Demo.loaded_one Demo.disk).2.
  split; [vm_compute; reflexivity|]. split; vm_compute; reflexivity.
Qed.

Example failed_open_keeps_target :
  ∃ fs',
    Demo.save_open_fails None Demo.loaded_one Demo.disk
    = (Raise (dbc_error "Failed to save DBC: open failed"),
       Demo.loaded_one, fs')
    ∧ fs' !! "one.dbc" = Some "one"
    ∧ fs' !! "one.dbc.backup" = Some "one".
Proof.
  exists (Demo.save_open_fails None Demo.loaded_one Demo.disk).2.
  split; [vm_compute; reflexivity|]. split; vm_compute; reflexivity.
Qed.

(** ** Change detection *)

Lemma mapM_result_ok {A B} (f : A → result B) (l : list A) (ys : list B) :
  mapM f l = Ok ys → Forall2 (λ x y, f x = Ok y) l ys.
Proof.
  revert ys. induction l as [|x l IH]; intros ys; simpl.
  - intros [= <-]. constructor.
  - destruct (f x) as [y|e] eqn:Ef; [|done]. simpl.
    destruct (mapM f l) as [k|e]; [|done]. simpl.
    intros [= <-]. constructor; [done|by apply IH].
Qed.

Lemma view_signals_cons_inv h l ls vs :
  view_signals h (l :: ls) = Some vs →
  ∃ v vs', vs = v :: vs' ∧ view_signal h l = Some v
           ∧ view_signals h ls = Some vs'.
Proof.
  unfold view_signals. intros H%mapM_Some.
  inversion H as [|? v ? vs' Hv Hrest]; subst.
  exists v, vs'. by rewrite mapM_Some.
Qed.

Lemma view_messages_cons_inv h l ls vs :
  view_messages h (l :: ls) = Some vs →
  ∃ v vs', vs = v :: vs' ∧ view_message h l = Some v
           ∧ view_messages h ls = Some vs'.
Proof.
  unfold view_messages. intros H%mapM_Some.
  inversion H as [|? v ? vs' Hv Hrest]; subst.
  exists v, vs'. by rewrite mapM_Some.
Qed.

Lemma view_signals_length h ls vs :
  view_signals h ls = Some vs → length ls = length vs.
Proof. unfold view_signals. intros H%mapM_Some. by eapply Forall2_length. Qed.

Lemma view_messages_length h ls vs :
  view_messages h ls = Some vs → length ls = length vs.
Proof. unfold view_messages. intros H%mapM_Some. by eapply Forall2_length. Qed.

(** Two lists of signals that read as the same values do not differ. *)
Lemma signals_changed_same h a b vs :
  view_signals h a = Some vs → view_signals h b = Some vs →
  signals_changed h a b = Ok false.
Proof.
  revert b vs. induction a as [|x a IH]; intros b vs Ha Hb; [done|].
  apply view_signals_cons_inv in Ha as (v & vs' & -> & Hx & Ha).
  destruct b as [|y b]; [done|].
  apply view_signals_cons_inv in Hb as (v' & vs'' & [= <- <-] & Hy & Hb).
  simpl. unfold signal_ne. rewrite Hx, Hy. simpl.
  rewrite bool_decide_eq_false_2 by (intros ?; done).
  by apply (IH b vs').
Qed.

(** A leading pair of messages that read as the same value is passed
    over. *)
Lemma messages_changed_skip h c l cs ls v :
  view_message h c = Some v → view_message h l = Some v →
  messages_changed h (c :: cs) (l :: ls) = messages_changed h cs ls.
Proof.
  intros (mc & snd & slc & sigs & Ec & _ & Eslc & Esc & ->)%view_message_inv.
  intros (ml & snd' & sll & sigs' & El & _ & Esll & Esl & Heq)
    %view_message_inv.
  injection Heq as Hn Hf _ _ <- _.
  simpl. rewrite Ec, El. simpl.
  rewrite Hn, Hf.
  rewrite !bool_decide_eq_false_2 by (intros ?; done). simpl.
  rewrite Eslc, Esll. simpl.
  rewrite (view_signals_length _ _ _ Esc), (view_signals_length _ _ _ Esl).
  rewrite bool_decide_eq_false_2 by (intros ?; done).
  by rewrite (signals_changed_same h slc sll sigs).
Qed.

Lemma messages_changed_same h a b vs :
  view_messages h a = Some vs → view_messages h b = Some vs →
  messages_changed h a b = Ok false.
Proof.
  revert b vs. induction a as [|x a IH]; intros b vs Ha Hb; [done|].
  apply view_messages_cons_inv in Ha as (v & vs' & -> & Hx & Ha).
  destruct b as [|y b]; [done|].
  apply view_messages_cons_inv in Hb as (v' & vs'' & [= <- <-] & Hy & Hb).
  rewrite (messages_changed_skip h x y a b v) by done.
  by apply (IH b vs').
Qed.

(** Replacing the message at position [k] by one with another name or
    frame id is seen. *)
Lemma messages_changed_replaced h a b vs k v new m :
  view_messages h a = Some vs → view_messages h b = Some vs →
  vs !! k = Some v → msg_dicts h !! new = Some m →
  msg_name m ≠ msg_name v ∨ msg_frame_id m ≠ msg_frame_id v →
  messages_changed h a (<[k := new]> b) = Ok true.
Proof.
  intros Ha Hb Hk Hnew Hdiff.
  revert b vs k Ha Hb Hk. induction a as [|x a IH]; intros b vs k Ha Hb Hk.
  { apply view_messages_length in Ha. by destruct vs. }
  apply view_messages_cons_inv in Ha as (v0 & vs' & -> & Hx & Ha).
  destruct b as [|y b]; [done|].
  apply view_messages_cons_inv in Hb as (v' & vs'' & [= <- <-] & Hy & Hb).
  destruct k as [|k]; simpl in Hk.
  - injection Hk as ->.
    apply view_message_inv in Hx
      as (mc & snd & slc & sigs & Ec & _ & _ & _ & ->).
    simpl. rewrite Ec, Hnew. simpl.
    destruct Hdiff as [Hd|Hd].
    + rewrite (bool_decide_eq_true_2 (msg_name mc ≠ msg_name m)); [done|].
      intros E. apply Hd. by rewrite <- E.
    + rewrite (bool_decide_eq_true_2 (msg_frame_id mc ≠ msg_frame_id m));
        [by rewrite orb_true_r|].
      intros E. apply Hd. by rewrite <- E.
  - change (<[S k := new]> (y :: b)) with (y :: <[k := new]> b).
    rewrite (messages_changed_skip h x y a _ v0) by done.
    by apply (IH b vs' k).
Qed.

Section SavedState.

Context {can_signal can_message : Type}.
Context (new_signal : signal_val → result can_signal).
Context (new_message :
  message_obj → list string → list can_signal → bool → result can_message).
Context (as_dbc_string : list can_message → result string).
Context (copy_fault : string → option (option nat)).
Context (open_fault : string → bool).
Context (write_fault : string → option nat).
Context (remove_fault : string → bool).

Local Abbreviation save :=
  (save_dbc_file can_signal can_message new_signal new_message
                 as_dbc_string copy_fault open_fault write_fault
                 remove_fault).

(** The signals of a message could be rebuilt: they can be read. *)
Lemma rebuild_signals_view h sigs signals :
  rebuild_signals can_signal new_signal h sigs = Ok signals →
  ∃ svs, view_signals h sigs = Some svs.
Proof.
  unfold rebuild_signals. intros H%mapM_result_ok.
  induction H as [|l y ls ys Hl _ IH].
  - by exists [].
  - destruct IH as [svs Hsvs].
    destruct (view_signal h l) as [sv|] eqn:Ev; [|done].
    exists (sv :: svs). unfold view_signals in *. simpl.
    rewrite Ev. simpl. by rewrite Hsvs.
Qed.

(** The working copy could be rebuilt: it can be read. *)
Lemma rebuild_messages_view h msgs database :
  rebuild_messages can_signal can_message new_signal new_message h msgs
    = Ok database →
  ∃ vs, view_messages h msgs = Some vs.
Proof.
  unfold rebuild_messages. intros H%mapM_result_ok.
  induction H as [|l y ls ys Hl _ IH].
  - by exists [].
  - destruct IH as [vs Hvs].
    destruct (msg_dicts h !! l) as [m|] eqn:Em; [|done]. simpl in Hl.
    destruct (sig_lists h !! msg_signals m) as [sl|] eqn:Esl; [|done].
    simpl in Hl.
    destruct (rebuild_signals can_signal new_signal h sl) as [signals|]
      eqn:Er; [|done].
    simpl in Hl.
    destruct (str_lists h !! msg_senders m) as [snd|] eqn:Esnd; [|done].
    destruct (rebuild_signals_view h sl signals Er) as [svs Hsvs].
    exists (msg_with_refs m snd svs :: vs).
    unfold view_messages in *. simpl.
    rewrite (view_message_intro h l m snd sl svs) by done.
    simpl. by rewrite Hvs.
Qed.

(** After a successful [save_dbc_file] the snapshot is a list of new
    dictionaries that read as the working copy does. *)
Lemma save_ok_inv path_arg ed fs ed' fs' :
  save path_arg ed fs = (Ok (), ed', fs') →
  ∃ msgs copies vs,
    modified_data ed = Some msgs
    ∧ ed' = Editor (db ed) (file_path ed) (Some copies) (Some msgs) (heap ed')
    ∧ heap_ext (heap ed) (heap ed')
    ∧ view_messages (heap ed') copies = Some vs
    ∧ view_messages (heap ed') msgs = Some vs.
Proof.
  unfold save_dbc_file.
  destruct (target_path path_arg ed) as [path|]; [|done].
  destruct (bool_decide (path = "")); [done|].
  destruct (backup_copy copy_fault path fs) as [[[]|] fs1]; [|done].
  unfold rebuild_database.
  destruct (modified_data ed) as [msgs|] eqn:Hm; [|done]. simpl.
  destruct (rebuild_messages _ _ _ _ (heap ed) msgs) as [database|]
    eqn:Hr; [|done].
  destruct (open_fault path); [done|].
  destruct (as_dbc_string database); [|done].
  destruct (write_fault _); [done|].
  destruct (rebuild_messages_view _ _ _ Hr) as [vs Hvs].
  destruct (mapM_store_copies view_message copy_msg_dict view_message_ext
              copy_msg_dict_spec msgs (heap ed) vs Hvs)
    as (copies & h' & Ec & He & Hc).
  rewrite Ec. intros [= <- <-]. exists msgs, copies, vs. simpl.
  repeat split; try done; try apply He.
  by apply (view_messages_ext (heap ed)).
Qed.

(** Straight after a successful [save_dbc_file], [has_changes] is false;
    and when [update_message] then replaces a message of the working copy
    by a dictionary with another name or another frame id, [has_changes]
    is true.  (The caller may have built new objects in between: the store
    [h] extends the one [save_dbc_file] left.) *)
Lemma saved_then_renamed path_arg ed fs ed' fs' :
  save path_arg ed fs = (Ok (), ed', fs') →
  has_changes ed' = false
  ∧ ∀ (h : store) (msgs : list loc) (idx : Z) (old new : loc)
      (mo m : message_obj),
      heap_ext (heap ed') h →
      modified_data ed' = Some msgs →
      0 ≤ idx < len msgs →
      msgs !! Z.to_nat idx = Some old →
      msg_dicts h !! old = Some mo →
      msg_dicts h !! new = Some m →
      msg_name m ≠ msg_name mo ∨ msg_frame_id m ≠ msg_frame_id mo →
      ∃ ed'', update_message idx new (set_heap h ed') = (Ok (), ed'')
              ∧ modified_data ed'' = Some (<[Z.to_nat idx := new]> msgs)
              ∧ has_changes ed'' = true.
Proof.
  intros (msgs & copies & vs & Hm & -> & He & Hc & Hw)%save_ok_inv.
  split.
  - unfold has_changes. simpl.
    rewrite bool_decide_eq_false_2.
    + by rewrite (messages_changed_same _ copies msgs vs).
    + intros Hlen. apply Hlen.
      by rewrite (view_messages_length _ _ _ Hc),
                 (view_messages_length _ _ _ Hw).
  - simpl. intros h msgs' idx old new mo m Hext [= <-] Hidx Hold Hmo Hnew Hd.
    unfold update_message. simpl.
    destruct (Z.leb_spec (len msgs) idx) as [?|_]; [lia|].
    rewrite py_setitem_nonneg by done. simpl.
    eexists. split; [done|]. split; [done|].
    unfold has_changes. simpl.
    rewrite bool_decide_eq_false_2.
    2:{ intros Hlen. apply Hlen. rewrite length_insert.
        by rewrite (view_messages_length _ _ _ Hc),
                   (view_messages_length _ _ _ Hw). }
    apply (view_messages_ext _ h) in Hc, Hw; [|done..].
    assert (∃ v, vs !! Z.to_nat idx = Some v ∧ view_message h old = Some v)
      as (v & Hv & Hview).
    { unfold view_messages in Hw. apply mapM_Some in Hw.
      by apply (Forall2_lookup_l _ _ _ _ _ Hw Hold). }
    apply view_message_inv in Hview
      as (mo' & snd & sl & sigs & Emo' & _ & _ & _ & ->).
    assert (mo' = mo) as -> by congruence.
    by rewrite (messages_changed_replaced h copies msgs vs (Z.to_nat idx)
                  (msg_with_refs mo snd sigs) new m).
Qed.

End SavedState.

(** C3: a defect of [has_changes].  After [load] and [save] it is false,
    as the claim says.  Then [update_message] puts a copy of [M] with
    length 4 in place of [M] (length 8): the working copy differs from the
    snapshot and [has_changes] is still false, because lines 396-412 look
    at the name, the frame id and the signals of a message only.  And
    [update_signal] puts a signal [T] in place of [S]: the list it writes
    to is the snapshot's list too, and [has_changes] is false again. *)
Theorem mutation_after_save_not_detected :
  let shorter : message_val := Message "M" 0x100 4 [] [Demo.sig_S] "" ∅ in
  let sig_T : signal_val := sig_with_name Demo.sig_S "T" in
  let other : message_val := msg_with_refs Demo.msg_M [] [sig_T] in
  has_changes Demo.saved_one = false
  ∧ Demo.original_view Demo.saved_one = Some [Demo.msg_M]
  ∧ Demo.working_view Demo.saved_one = Some [Demo.msg_M]
  ∧ (∃ ed', Demo.update_with_new_message 0 shorter Demo.saved_one
            = (Ok (), ed')
            ∧ Demo.original_view ed' = Some [Demo.msg_M]
            ∧ Demo.working_view ed' = Some [shorter]
            ∧ has_changes ed' = false)
  ∧ (∃ ed', Demo.update_with_new_signal 0 0 sig_T Demo.saved_one
            = (Ok (), ed')
            ∧ Demo.working_view ed' = Some [other]
            ∧ has_changes ed' = false).
Proof.
  split; [vm_compute; reflexivity|].
  split; [vm_compute; reflexivity|].
  split; [vm_compute; reflexivity|].
  split.
  - eexists. split; [vm_compute; reflexivity|].
    split; [vm_compute; reflexivity|].
    split; vm_compute; reflexivity.
  - eexists. split; [vm_compute; reflexivity|].
    split; vm_compute; reflexivity.
Qed.

(** ** Duplicates *)

#[global] Instance suffixed_inj base_name : Inj (=) (=) (suffixed base_name).
Proof.
  intros j k H. unfold suffixed in H.
  apply (inj (String.append base_name)) in H.
  apply (inj (String.append "_")) in H.
  by apply (inj pretty) in H.
Qed.










Lemma signals_of_inv h msgs msg_idx sl signals :
  signals_of h msgs msg_idx = Ok (sl, signals) →
  ∃ ml m, py_getitem msgs msg_idx = Ok ml ∧ msg_dicts h !! ml = Some m
          ∧ sl = msg_signals m ∧ sig_lists h !! sl = Some signals.
Proof.
  unfold signals_of.
  destruct (py_getitem msgs msg_idx) as [ml|]; [|done]. simpl.
  destruct (msg_dicts h !! ml) as [m|] eqn:Em; [|done]. simpl.
  destruct (sig_lists h !! msg_signals m) as [sigs|] eqn:E; [|done]. simpl.
  intros [= <- <-]. by exists ml, m.
Qed.







(** The scenario of the specification: after [duplicate_message(0)] on the
    document with the one message [M] there are two messages, the second
    named [M_1] and otherwise equal to [M]; a second copy is [M_2], and the
    copy of the signal [S] is [S_1]. *)
Example duplicate_M :
  Demo.working_view (duplicate_message 0 Demo.loaded_one).2
  = Some [Demo.msg_M; msg_with_name Demo.msg_M "M_1"]
  ∧ Demo.working_view
      (duplicate_message 0 (duplicate_message 0 Demo.loaded_one).2).2
    = Some [Demo.msg_M; msg_with_name Demo.msg_M "M_1";
            msg_with_name Demo.msg_M "M_2"]
  ∧ Demo.working_view (duplicate_signal 0 0 Demo.loaded_one).2
    = Some [msg_with_refs Demo.msg_M []
              [Demo.sig_S; sig_with_name Demo.sig_S "S_1"]].
Proof.
  split; [vm_compute; reflexivity|]. split; vm_compute; reflexivity.
Qed.

(** ** Moving, deleting and replacing messages *)

Lemma py_swap_nonneg {A} (l : list A) (i j : Z) (xi xj : A) :
  0 ≤ i → 0 ≤ j →
  l !! Z.to_nat i = Some xi → l !! Z.to_nat j = Some xj →
  py_swap l i j = Ok (<[Z.to_nat j := xi]> (<[Z.to_nat i := xj]> l)).
Proof.
  intros Hi Hj Exi Exj. unfold py_swap.
  rewrite (py_getitem_nonneg l j xj), (py_getitem_nonneg l i xi) by done.
  simpl.
  pose proof (lookup_lt_Some _ _ _ Exi). pose proof (lookup_lt_Some _ _ _ Exj).
  rewrite py_setitem_nonneg by (unfold len; lia). simpl.
  rewrite py_setitem_nonneg; [done|]. unfold len. rewrite length_insert. lia.
Qed.

Lemma py_delitem_nonneg {A} (l : list A) (i : Z) :
  0 ≤ i < len l → py_delitem l i = Ok (delete (Z.to_nat i) l).
Proof. intros H. unfold py_delitem. by rewrite norm_index_nonneg. Qed.

Lemma set_modified_same ed msgs :
  modified_data ed = Some msgs → set_modified (Some msgs) ed = ed.
Proof. destruct ed. simpl. by intros ->. Qed.

(** Exchanging two neighbours twice gives the list back. *)
Lemma swap_back {A} (l : list A) (i : nat) (a b : A) :
  l !! i = Some a → l !! S i = Some b →
  <[S i := b]> (<[i := a]> (<[i := b]> (<[S i := a]> l))) = l.
Proof.
  intros Ha Hb.
  rewrite list_insert_insert_eq.
  rewrite (list_insert_insert_ne _ i (S i)) by lia.
  rewrite list_insert_insert_eq.
  rewrite (list_insert_id l i a) by done.
  by rewrite list_insert_id.
Qed.

(** [move_message_up] inside the list exchanges the message with the one
    before it and returns the index it now has; every other position, the
    length, the snapshot and the store stay as they were. *)
Theorem move_message_up_swaps (ed : editor) (msgs : list loc) (idx : Z) :
  modified_data ed = Some msgs → 0 < idx < len msgs →
  ∃ (a b : loc) (msgs' : list loc),
    msgs !! Z.to_nat (idx - 1) = Some a
    ∧ msgs !! Z.to_nat idx = Some b
    ∧ move_message_up idx ed
      = (Ok (idx - 1), set_modified (Some msgs') ed)
    ∧ msgs' !! Z.to_nat (idx - 1) = Some b
    ∧ msgs' !! Z.to_nat idx = Some a
    ∧ length msgs' = length msgs
    ∧ (∀ j, j ≠ Z.to_nat (idx - 1) → j ≠ Z.to_nat idx →
         msgs' !! j = msgs !! j).
Proof.
  intros Hm Hidx. unfold len in Hidx.
  destruct (lookup_lt_is_Some_2 msgs (Z.to_nat (idx - 1))) as [a Ha]; [lia|].
  destruct (lookup_lt_is_Some_2 msgs (Z.to_nat idx)) as [b Hb]; [lia|].
  exists a, b, (<[Z.to_nat idx := a]> (<[Z.to_nat (idx - 1) := b]> msgs)).
  split; [done|]. split; [done|]. split.
  { unfold move_message_up. rewrite Hm.
    destruct (Z.leb_spec idx 0) as [?|_]; [lia|].
    destruct (Z.leb_spec (len msgs) idx) as [?|_]; [unfold len in *; lia|].
    simpl. by rewrite (py_swap_nonneg msgs (idx - 1) idx a b) by (done || lia). }
  pose proof (lookup_lt_Some _ _ _ Ha). pose proof (lookup_lt_Some _ _ _ Hb).
  split.
  { rewrite list_lookup_insert_ne by lia.
    by rewrite list_lookup_insert_eq by lia. }
  split.
  { by rewrite list_lookup_insert_eq by (rewrite length_insert; lia). }
  split; [by rewrite !length_insert|].
  intros j Hj1 Hj2. by rewrite !list_lookup_insert_ne by done.
Qed.

Lemma move_message_up_swaps_witness :
  ∃ (a b : loc) (msgs' : list loc),
    [2%nat; 3%nat] !! Z.to_nat (1 - 1) = Some a
    ∧ [2%nat; 3%nat] !! Z.to_nat 1 = Some b
    ∧ move_message_up 1 Demo.loaded_two
      = (Ok (1 - 1), set_modified (Some msgs') Demo.loaded_two)
    ∧ msgs' !! Z.to_nat (1 - 1) = Some b
    ∧ msgs' !! Z.to_nat 1 = Some a
    ∧ length msgs' = length [2%nat; 3%nat]
    ∧ (∀ j, j ≠ Z.to_nat (1 - 1) → j ≠ Z.to_nat 1 →
         msgs' !! j = [2%nat; 3%nat] !! j).
Proof.
  apply (move_message_up_swaps Demo.loaded_two [2%nat; 3%nat] 1).
  - reflexivity.
  - split; reflexivity.
Defined.

(** [move_message_down] followed by [move_message_up] at the index it
    returned gives the editor back as it was. *)
Theorem move_message_down_then_up (ed : editor) (msgs : list loc) (idx : Z) :
  modified_data ed = Some msgs → 0 ≤ idx < len msgs - 1 →
  ∃ ed1,
    move_message_down idx ed = (Ok (idx + 1), ed1)
    ∧ move_message_up (idx + 1) ed1 = (Ok idx, ed).
Proof.
  intros Hm Hidx. unfold len in Hidx.
  assert (Z.to_nat (idx + 1) = S (Z.to_nat idx)) as Hn by lia.
  destruct (lookup_lt_is_Some_2 msgs (Z.to_nat idx)) as [a Ha]; [lia|].
  destruct (lookup_lt_is_Some_2 msgs (S (Z.to_nat idx))) as [b Hb]; [lia|].
  pose proof (lookup_lt_Some _ _ _ Ha). pose proof (lookup_lt_Some _ _ _ Hb).
  set (msgs1 := <[Z.to_nat idx := b]> (<[S (Z.to_nat idx) := a]> msgs)).
  exists (set_modified (Some msgs1) ed). split.
  - unfold move_message_down. rewrite Hm.
    destruct (Z.ltb_spec idx 0) as [?|_]; [lia|].
    destruct (Z.leb_spec (len msgs - 1) idx) as [?|_];
      [unfold len in *; lia|].
    simpl. rewrite (py_swap_nonneg msgs (idx + 1) idx b a);
      [by rewrite Hn|lia|lia|by rewrite Hn|done].
  - unfold move_message_up. simpl.
    destruct (Z.leb_spec (idx + 1) 0) as [?|_]; [lia|].
    destruct (Z.leb_spec (len msgs1) (idx + 1)) as [Hlen|_].
    { unfold len, msgs1 in Hlen. rewrite !length_insert in Hlen. lia. }
    simpl. replace (idx + 1 - 1) with idx by lia.
    rewrite (py_swap_nonneg msgs1 idx (idx + 1) b a); [|lia|lia|..].
    + simpl. rewrite Hn. unfold msgs1.
      rewrite (swap_back msgs (Z.to_nat idx) a b) by done.
      destruct ed. simpl in *. by rewrite Hm.
    + unfold msgs1.
      by rewrite list_lookup_insert_eq by (rewrite length_insert; lia).
    + rewrite Hn. unfold msgs1. rewrite list_lookup_insert_ne by lia.
      by rewrite list_lookup_insert_eq by lia.
Qed.

Lemma move_message_down_then_up_witness :
  ∃ ed1,
    move_message_down 0 Demo.loaded_two = (Ok (0 + 1), ed1)
    ∧ move_message_up (0 + 1) ed1 = (Ok 0, Demo.loaded_two).
Proof.
  apply (move_message_down_then_up Demo.loaded_two [2%nat; 3%nat] 0).
  - reflexivity.
  - split; [discriminate|reflexivity].
Defined.

(** [delete_message] at an index inside the list removes that message and
    nothing else: the messages before it keep their index, the ones after
    move down by one. *)
Theorem delete_message_removes (ed : editor) (msgs : list loc) (idx : Z) :
  modified_data ed = Some msgs → 0 ≤ idx < len msgs →
  ∃ msgs',
    delete_message idx ed = (Ok (), set_modified (Some msgs') ed)
    ∧ len msgs' = len msgs - 1
    ∧ (∀ j, (j < Z.to_nat idx)%nat → msgs' !! j = msgs !! j)
    ∧ (∀ j, (Z.to_nat idx ≤ j)%nat → msgs' !! j = msgs !! S j).
Proof.
  intros Hm Hidx. exists (delete (Z.to_nat idx) msgs).
  split; [|split; [|split]].
  - unfold delete_message. rewrite Hm.
    destruct (Z.leb_spec (len msgs) idx) as [?|_]; [lia|]. simpl.
    by rewrite py_delitem_nonneg.
  - unfold len in *. rewrite length_delete; [lia|].
    apply lookup_lt_is_Some. lia.
  - intros j Hj. by apply list_lookup_delete_lt.
  - intros j Hj. by apply list_lookup_delete_ge.
Qed.

Lemma delete_message_removes_witness :
  ∃ msgs',
    delete_message 0 Demo.loaded_two
    = (Ok (), set_modified (Some msgs') Demo.loaded_two)
    ∧ len msgs' = len [2%nat; 3%nat] - 1
    ∧ (∀ j, (j < Z.to_nat 0)%nat → msgs' !! j = [2%nat; 3%nat] !! j)
    ∧ (∀ j, (Z.to_nat 0 ≤ j)%nat → msgs' !! j = [2%nat; 3%nat] !! S j).
Proof.
  apply (delete_message_removes Demo.loaded_two [2%nat; 3%nat] 0).
  - reflexivity.
  - split; [discriminate|reflexivity].
Defined.

(** [add_message] puts the message at the end of the working list, at
    index [len] of the list before; [delete_message] at that index then
    gives the editor back as it was. *)
Theorem add_message_then_delete (ed : editor) (msgs : list loc) (message : loc) :
  modified_data ed = Some msgs →
  ∃ ed1,
    add_message message ed = (Ok (), ed1)
    ∧ modified_data ed1 = Some (msgs ++ [message])
    ∧ (msgs ++ [message]) !! Z.to_nat (len msgs) = Some message
    ∧ delete_message (len msgs) ed1 = (Ok (), ed).
Proof.
  intros Hm. exists (set_modified (Some (msgs ++ [message])) ed).
  split; [|split; [|split]].
  - unfold add_message. by rewrite Hm.
  - done.
  - unfold len. rewrite Nat2Z.id. by apply list_lookup_middle.
  - unfold delete_message. simpl.
    destruct (Z.leb_spec (len (msgs ++ [message])) (len msgs)) as [Hl|_].
    { unfold len in Hl. rewrite length_app in Hl. simpl in Hl. lia. }
    simpl. rewrite py_delitem_nonneg.
    + simpl. unfold len. rewrite Nat2Z.id.
      replace (delete (length msgs) (msgs ++ [message])) with msgs.
      * destruct ed. simpl in *. by rewrite Hm.
      * rewrite (delete_middle msgs [] message). by rewrite app_nil_r.
    + unfold len. rewrite length_app. simpl. lia.
Qed.

Lemma add_message_then_delete_witness :
  ∃ ed1,
    add_message 0%nat Demo.loaded_two = (Ok (), ed1)
    ∧ modified_data ed1 = Some ([2%nat; 3%nat] ++ [0%nat])
    ∧ ([2%nat; 3%nat] ++ [0%nat]) !! Z.to_nat (len [2%nat; 3%nat])
      = Some 0%nat
    ∧ delete_message (len [2%nat; 3%nat]) ed1 = (Ok (), Demo.loaded_two).
Proof.
  apply (add_message_then_delete Demo.loaded_two [2%nat; 3%nat] 0%nat).
  reflexivity.
Defined.

(** [update_message] at an index inside the list puts the given dictionary
    at that index and leaves every other position, the length, the snapshot
    and the store as they were. *)
Theorem update_message_replaces (ed : editor) (msgs : list loc) (idx : Z)
    (message : loc) :
  modified_data ed = Some msgs → 0 ≤ idx < len msgs →
  ∃ msgs',
    update_message idx message ed = (Ok (), set_modified (Some msgs') ed)
    ∧ msgs' !! Z.to_nat idx = Some message
    ∧ length msgs' = length msgs
    ∧ (∀ j, j ≠ Z.to_nat idx → msgs' !! j = msgs !! j).
Proof.
  intros Hm Hidx. exists (<[Z.to_nat idx := message]> msgs).
  split; [|split; [|split]].
  - unfold update_message. rewrite Hm.
    destruct (Z.leb_spec (len msgs) idx) as [?|_]; [lia|]. simpl.
    by rewrite py_setitem_nonneg.
  - apply list_lookup_insert_eq. unfold len in Hidx. lia.
  - by rewrite length_insert.
  - intros j Hj. by rewrite list_lookup_insert_ne.
Qed.

Lemma update_message_replaces_witness :
  ∃ msgs',
    update_message 1 0%nat Demo.loaded_two
    = (Ok (), set_modified (Some msgs') Demo.loaded_two)
    ∧ msgs' !! Z.to_nat 1 = Some 0%nat
    ∧ length msgs' = length [2%nat; 3%nat]
    ∧ (∀ j, j ≠ Z.to_nat 1 → msgs' !! j = [2%nat; 3%nat] !! j).
Proof.
  apply (update_message_replaces Demo.loaded_two [2%nat; 3%nat] 1 0%nat).
  - reflexivity.
  - split; [discriminate|reflexivity].
Defined.

(** ** Indices the guarded methods refuse *)

(** [duplicate_message], [move_message_up], [move_message_down] and the
    message index of [duplicate_signal], [move_signal_up] and
    [move_signal_down] are tested on both sides: a negative index, like
    one at or past the end, raises the editor's error and changes
    nothing. *)
Theorem guarded_methods_reject_bad_index (ed : editor) (msgs : list loc)
    (idx : Z) :
  modified_data ed = Some msgs → idx < 0 ∨ len msgs ≤ idx →
  duplicate_message idx ed = (Raise (dbc_error "Invalid message index"), ed)
  ∧ move_message_up idx ed
    = (Raise (dbc_error "Invalid message move operation"), ed)
  ∧ move_message_down idx ed
    = (Raise (dbc_error "Invalid message move operation"), ed)
  ∧ (∀ sig_idx,
       duplicate_signal idx sig_idx ed
       = (Raise (dbc_error "Invalid message index"), ed)
       ∧ move_signal_up idx sig_idx ed
         = (Raise (dbc_error "Invalid message index"), ed)
       ∧ move_signal_down idx sig_idx ed
         = (Raise (dbc_error "Invalid message index"), ed)).
Proof.
  intros Hm Hidx.
  unfold duplicate_message, move_message_up, move_message_down,
    duplicate_signal, move_signal_up, move_signal_down.
  rewrite Hm.
  assert ((idx <? 0) || (len msgs <=? idx) = true) as ->.
  { destruct Hidx; [apply orb_true_iff; left|apply orb_true_iff; right]; lia. }
  assert ((idx <=? 0) || (len msgs <=? idx) = true) as ->.
  { destruct Hidx; [apply orb_true_iff; left|apply orb_true_iff; right]; lia. }
  assert ((idx <? 0) || (len msgs - 1 <=? idx) = true) as ->.
  { destruct Hidx; [apply orb_true_iff; left|apply orb_true_iff; right]; lia. }
  by repeat split.
Qed.

Lemma guarded_methods_reject_bad_index_witness :
  duplicate_message (-1) Demo.loaded_two
  = (Raise (dbc_error "Invalid message index"), Demo.loaded_two).
Proof.
  destruct (guarded_methods_reject_bad_index Demo.loaded_two [2%nat; 3%nat]
              (-1)) as [H _].
  - reflexivity.
  - left. reflexivity.
  - exact H.
Defined.

(** Before any document is open ([_modified_data] is [None]) every
    index-based method raises the editor's error, whatever the index, and
    the editor stays as it is. *)
Theorem no_document_rejects (ed : editor) (idx sig_idx : Z) (l : loc) :
  modified_data ed = None →
  update_message idx l ed = (Raise (dbc_error "Invalid message index"), ed)
  ∧ delete_message idx ed = (Raise (dbc_error "Invalid message index"), ed)
  ∧ duplicate_message idx ed
    = (Raise (dbc_error "Invalid message index"), ed)
  ∧ move_message_up idx ed
    = (Raise (dbc_error "Invalid message move operation"), ed)
  ∧ move_message_down idx ed
    = (Raise (dbc_error "Invalid message move operation"), ed)
  ∧ add_signal idx l ed = (Raise (dbc_error "Invalid message index"), ed)
  ∧ update_signal idx sig_idx l ed
    = (Raise (dbc_error "Invalid message index"), ed)
  ∧ delete_signal idx sig_idx ed
    = (Raise (dbc_error "Invalid message index"), ed)
  ∧ duplicate_signal idx sig_idx ed
    = (Raise (dbc_error "Invalid message index"), ed)
  ∧ move_signal_up idx sig_idx ed
    = (Raise (dbc_error "Invalid message index"), ed)
  ∧ move_signal_down idx sig_idx ed
    = (Raise (dbc_error "Invalid message index"), ed).
Proof.
  intros Hm.
  unfold update_message, delete_message, duplicate_message, move_message_up,
    move_message_down, add_signal, update_signal, delete_signal,
    duplicate_signal, move_signal_up, move_signal_down.
  rewrite Hm. by repeat split.
Qed.

Lemma no_document_rejects_witness :
  delete_message 0 init = (Raise (dbc_error "Invalid message index"), init).
Proof.
  destruct (no_document_rejects init 0 0 0%nat) as (_ & H & _).
  - reflexivity.
  - exact H.
Defined.


(** ** Editing the signals of a message *)

Lemma signals_of_set_sig_list h msgs msg_idx sl signals signals' :
  signals_of h msgs msg_idx = Ok (sl, signals) →
  signals_of (set_sig_list sl signals' h) msgs msg_idx = Ok (sl, signals').
Proof.
  intros (ml & m & Eml & Em & -> & Hsl)%signals_of_inv.
  unfold signals_of. rewrite Eml. simpl. rewrite Em. simpl.
  rewrite list_lookup_insert_eq by (by eapply lookup_lt_Some). done.
Qed.

Lemma set_sig_list_twice sl a b h :
  set_sig_list sl a (set_sig_list sl b h) = set_sig_list sl a h.
Proof. unfold set_sig_list. simpl. by rewrite list_insert_insert_eq. Qed.

Lemma set_sig_list_same sl signals h :
  sig_lists h !! sl = Some signals → set_sig_list sl signals h = h.
Proof.
  intros H. unfold set_sig_list. rewrite list_insert_id by done.
  by destruct h.
Qed.

Lemma set_heap_twice h1 h2 ed : set_heap h2 (set_heap h1 ed) = set_heap h2 ed.
Proof. done. Qed.

Lemma set_heap_same ed : set_heap (heap ed) ed = ed.
Proof. by destruct ed. Qed.

(** A signal index at or past the end of the message's list of signals is
    refused by [update_signal] and [delete_signal]; [duplicate_signal],
    [move_signal_up] and [move_signal_down] refuse a negative one as well.
    Nothing changes. *)
Theorem signal_index_rejected (ed : editor) (msgs : list loc)
    (msg_idx sig_idx : Z) (sl : loc) (signals : list loc) :
  modified_data ed = Some msgs → 0 ≤ msg_idx < len msgs →
  signals_of (heap ed) msgs msg_idx = Ok (sl, signals) →
  (len signals ≤ sig_idx →
     (∀ signal, update_signal msg_idx sig_idx signal ed
        = (Raise (dbc_error "Invalid signal index"), ed))
     ∧ delete_signal msg_idx sig_idx ed
       = (Raise (dbc_error "Invalid signal index"), ed))
  ∧ (sig_idx < 0 ∨ len signals ≤ sig_idx →
       duplicate_signal msg_idx sig_idx ed
       = (Raise (dbc_error "Invalid signal index"), ed)
       ∧ move_signal_up msg_idx sig_idx ed
         = (Raise (dbc_error "Invalid signal move operation"), ed)
       ∧ move_signal_down msg_idx sig_idx ed
         = (Raise (dbc_error "Invalid signal move operation"), ed)).
Proof.
  intros Hm Hmidx Hsig.
  unfold update_signal, delete_signal, duplicate_signal, move_signal_up,
    move_signal_down.
  rewrite Hm.
  destruct (Z.ltb_spec msg_idx 0) as [?|_]; [lia|].
  destruct (Z.leb_spec (len msgs) msg_idx) as [?|_]; [lia|].
  simpl. rewrite Hsig. simpl. split.
  - intros Hidx.
    destruct (Z.leb_spec (len signals) sig_idx) as [_|?]; [|lia]. done.
  - intros Hidx.
    assert ((sig_idx <? 0) || (len signals <=? sig_idx) = true) as ->.
    { destruct Hidx; apply orb_true_iff; [left|right]; lia. }
    assert ((sig_idx <=? 0) || (len signals <=? sig_idx) = true) as ->.
    { destruct Hidx; apply orb_true_iff; [left|right]; lia. }
    assert ((sig_idx <? 0) || (len signals - 1 <=? sig_idx) = true) as ->.
    { destruct Hidx; apply orb_true_iff; [left|right]; lia. }
    done.
Qed.

Lemma signal_index_rejected_witness :
  delete_signal 0 1 Demo.loaded_one
  = (Raise (dbc_error "Invalid signal index"), Demo.loaded_one)
  ∧ duplicate_signal 0 (-1) Demo.loaded_one
    = (Raise (dbc_error "Invalid signal index"), Demo.loaded_one).
Proof.
  destruct (signal_index_rejected Demo.loaded_one [1%nat] 0 1 1%nat [1%nat])
    as [Hpast _]; [reflexivity|split; [discriminate|reflexivity]
                  |reflexivity|].
  destruct (signal_index_rejected Demo.loaded_one [1%nat] 0 (-1) 1%nat
              [1%nat])
    as [_ Hneg]; [reflexivity|split; [discriminate|reflexivity]
                 |reflexivity|].
  split.
  - apply Hpast. discriminate.
  - apply Hneg. left. reflexivity.
Defined.

(** [add_signal] puts the signal at the end of the message's list of
    signals, at index [len] of the list before, and leaves the list of
    messages alone; [delete_signal] at that index then gives the editor
    back as it was. *)
Theorem add_signal_then_delete (ed : editor) (msgs : list loc) (msg_idx : Z)
    (sl : loc) (signals : list loc) (signal : loc) (s : signal_obj) :
  modified_data ed = Some msgs → 0 ≤ msg_idx < len msgs →
  signals_of (heap ed) msgs msg_idx = Ok (sl, signals) →
  sig_dicts (heap ed) !! signal = Some s →
  ∃ ed1,
    add_signal msg_idx signal ed = (Ok (), ed1)
    ∧ modified_data ed1 = Some msgs
    ∧ signals_of (heap ed1) msgs msg_idx = Ok (sl, signals ++ [signal])
    ∧ (signals ++ [signal]) !! Z.to_nat (len signals) = Some signal
    ∧ delete_signal msg_idx (len signals) ed1 = (Ok (), ed).
Proof.
  intros Hm Hmidx Hsig Hs.
  set (h1 := set_sig_list sl (signals ++ [signal]) (heap ed)).
  assert (signals_of h1 msgs msg_idx = Ok (sl, signals ++ [signal])) as Hsig1.
  { by apply (signals_of_set_sig_list _ _ _ _ signals). }
  assert ((signals ++ [signal]) !! Z.to_nat (len signals) = Some signal)
    as Hlast.
  { unfold len. rewrite Nat2Z.id. by apply list_lookup_middle. }
  exists (set_heap h1 ed). split; [|split; [|split; [|split]]]; try done.
  - unfold add_signal. rewrite Hm.
    destruct (Z.leb_spec (len msgs) msg_idx) as [?|_]; [lia|]. simpl.
    by rewrite Hsig.
  - unfold delete_signal. simpl. rewrite Hm.
    destruct (Z.leb_spec (len msgs) msg_idx) as [?|_]; [lia|]. simpl.
    rewrite Hsig1. simpl.
    destruct (Z.leb_spec (len (signals ++ [signal])) (len signals)) as [Hl|_].
    { unfold len in Hl. rewrite length_app in Hl. simpl in Hl. lia. }
    rewrite (py_getitem_nonneg _ _ signal) by (done || unfold len; lia).
    simpl. change (sig_dicts h1) with (sig_dicts (heap ed)). rewrite Hs. simpl.
    rewrite py_delitem_nonneg.
    2:{ unfold len. rewrite length_app. simpl. lia. }
    simpl. unfold len. rewrite Nat2Z.id.
    rewrite (delete_middle signals [] signal), app_nil_r.
    unfold h1. rewrite set_sig_list_twice.
    apply signals_of_inv in Hsig as (_ & _ & _ & _ & _ & Hsl).
    rewrite set_sig_list_same by done.
      by rewrite set_heap_twice, set_heap_same.
Qed.

Lemma add_signal_then_delete_witness :
  ∃ ed1,
    add_signal 0 0%nat Demo.loaded_one = (Ok (), ed1)
    ∧ modified_data ed1 = Some [1%nat]
    ∧ signals_of (heap ed1) [1%nat] 0 = Ok (1%nat, [1%nat] ++ [0%nat])
    ∧ ([1%nat] ++ [0%nat]) !! Z.to_nat (len [1%nat]) = Some 0%nat
    ∧ delete_signal 0 (len [1%nat]) ed1 = (Ok (), Demo.loaded_one).
Proof.
  apply (add_signal_then_delete Demo.loaded_one [1%nat] 0 1%nat [1%nat]
           0%nat (sig_with_receivers Demo.sig_S 0%nat)).
  - reflexivity.
  - split; [discriminate|reflexivity].
  - reflexivity.
  - reflexivity.
Defined.

(** [update_signal] and [delete_signal] at an index inside the list act on
    the message's list of signals as [update_message] and [delete_message]
    do on the list of messages; the list of messages is not touched. *)
Theorem signal_list_edits (ed : editor) (msgs : list loc) (msg_idx sig_idx : Z)
    (sl : loc) (signals : list loc) :
  modified_data ed = Some msgs → 0 ≤ msg_idx < len msgs →
  signals_of (heap ed) msgs msg_idx = Ok (sl, signals) →
  0 ≤ sig_idx < len signals →
  (∀ signal, ∃ ed1,
     update_signal msg_idx sig_idx signal ed = (Ok (), ed1)
     ∧ modified_data ed1 = Some msgs
     ∧ signals_of (heap ed1) msgs msg_idx
       = Ok (sl, <[Z.to_nat sig_idx := signal]> signals))
  ∧ (is_Some (signals !! Z.to_nat sig_idx ≫= (sig_dicts (heap ed) !!.)) →
     ∃ ed1,
       delete_signal msg_idx sig_idx ed = (Ok (), ed1)
       ∧ modified_data ed1 = Some msgs
       ∧ signals_of (heap ed1) msgs msg_idx
         = Ok (sl, delete (Z.to_nat sig_idx) signals)).
Proof.
  intros Hm Hmidx Hsig Hidx. split.
  - intros signal. eexists. split; [|split].
    + unfold update_signal. rewrite Hm.
      destruct (Z.leb_spec (len msgs) msg_idx) as [?|_]; [lia|]. simpl.
      rewrite Hsig. simpl.
      destruct (Z.leb_spec (len signals) sig_idx) as [?|_]; [lia|].
      rewrite py_setitem_nonneg by done. reflexivity.
    + done.
    + by apply (signals_of_set_sig_list _ _ _ _ signals).
  - intros [s Hs]. apply bind_Some in Hs as (ol & Hol & Hs).
    eexists. split; [|split].
    + unfold delete_signal. rewrite Hm.
      destruct (Z.leb_spec (len msgs) msg_idx) as [?|_]; [lia|]. simpl.
      rewrite Hsig. simpl.
      destruct (Z.leb_spec (len signals) sig_idx) as [?|_]; [lia|].
      rewrite (py_getitem_nonneg _ _ ol) by (done || lia). simpl.
      rewrite Hs. simpl. rewrite py_delitem_nonneg by done. reflexivity.
    + done.
    + by apply (signals_of_set_sig_list _ _ _ _ signals).
Qed.

Lemma signal_list_edits_witness :
  ∃ ed1,
    delete_signal 0 0 Demo.loaded_one = (Ok (), ed1)
    ∧ modified_data ed1 = Some [1%nat]
    ∧ signals_of (heap ed1) [1%nat] 0
      = Ok (1%nat, delete (Z.to_nat 0) [1%nat]).
Proof.
  destruct (signal_list_edits Demo.loaded_one [1%nat] 0 0 1%nat [1%nat])
    as [_ Hdel].
  - reflexivity.
  - split; [discriminate|reflexivity].
  - reflexivity.
  - split; [discriminate|reflexivity].
  - apply Hdel. eexists. reflexivity.
Defined.

(** [move_signal_down] followed by [move_signal_up] at the index it
    returned gives the editor back as it was. *)
Theorem move_signal_down_then_up (ed : editor) (msgs : list loc)
    (msg_idx sig_idx : Z) (sl : loc) (signals : list loc) :
  modified_data ed = Some msgs → 0 ≤ msg_idx < len msgs →
  signals_of (heap ed) msgs msg_idx = Ok (sl, signals) →
  0 ≤ sig_idx < len signals - 1 →
  ∃ ed1,
    move_signal_down msg_idx sig_idx ed = (Ok (sig_idx + 1), ed1)
    ∧ move_signal_up msg_idx (sig_idx + 1) ed1 = (Ok sig_idx, ed).
Proof.
  intros Hm Hmidx Hsig Hidx. unfold len in Hidx.
  assert (Z.to_nat (sig_idx + 1) = S (Z.to_nat sig_idx)) as Hn by lia.
  destruct (lookup_lt_is_Some_2 signals (Z.to_nat sig_idx)) as [a Ha]; [lia|].
  destruct (lookup_lt_is_Some_2 signals (S (Z.to_nat sig_idx))) as [b Hb];
    [lia|].
  pose proof (lookup_lt_Some _ _ _ Ha). pose proof (lookup_lt_Some _ _ _ Hb).
  set (signals1 := <[Z.to_nat sig_idx := b]>
                     (<[S (Z.to_nat sig_idx) := a]> signals)).
  set (h1 := set_sig_list sl signals1 (heap ed)).
  assert (signals_of h1 msgs msg_idx = Ok (sl, signals1)) as Hsig1.
  { by apply (signals_of_set_sig_list _ _ _ _ signals). }
  exists (set_heap h1 ed). split.
  - unfold move_signal_down. rewrite Hm.
    destruct (Z.ltb_spec msg_idx 0) as [?|_]; [lia|].
    destruct (Z.leb_spec (len msgs) msg_idx) as [?|_]; [lia|]. simpl.
    rewrite Hsig. simpl.
    destruct (Z.ltb_spec sig_idx 0) as [?|_]; [lia|].
    destruct (Z.leb_spec (len signals - 1) sig_idx) as [?|_];
      [unfold len in *; lia|].
    simpl. rewrite (py_swap_nonneg signals (sig_idx + 1) sig_idx b a);
      [by rewrite Hn|lia|lia|by rewrite Hn|done].
  - unfold move_signal_up. simpl. rewrite Hm.
    destruct (Z.ltb_spec msg_idx 0) as [?|_]; [lia|].
    destruct (Z.leb_spec (len msgs) msg_idx) as [?|_]; [lia|]. simpl.
    rewrite Hsig1. simpl.
    destruct (Z.leb_spec (sig_idx + 1) 0) as [?|_]; [lia|].
    destruct (Z.leb_spec (len signals1) (sig_idx + 1)) as [Hlen|_].
    { unfold len, signals1 in Hlen. rewrite !length_insert in Hlen. lia. }
    simpl. replace (sig_idx + 1 - 1) with sig_idx by lia.
    rewrite (py_swap_nonneg signals1 sig_idx (sig_idx + 1) b a); [|lia|lia|..].
    + simpl. rewrite Hn. unfold signals1.
      rewrite (swap_back signals (Z.to_nat sig_idx) a b) by done.
      unfold h1. rewrite set_sig_list_twice.
      apply signals_of_inv in Hsig as (_ & _ & _ & _ & _ & Hsl).
      rewrite set_sig_list_same by done.
      by rewrite set_heap_twice, set_heap_same.
    + unfold signals1.
      by rewrite list_lookup_insert_eq by (rewrite length_insert; lia).
    + rewrite Hn. unfold signals1. rewrite list_lookup_insert_ne by lia.
      by rewrite list_lookup_insert_eq by lia.
Qed.

Lemma move_signal_down_then_up_witness :
  let ed := (duplicate_signal 0 0 Demo.loaded_one).2 in
  ∃ ed1,
    move_signal_down 0 0 ed = (Ok (0 + 1), ed1)
    ∧ move_signal_up 0 (0 + 1) ed1 = (Ok 0, ed).
Proof.
  intros ed.
  apply (move_signal_down_then_up ed [1%nat] 0 0 1%nat [1%nat; 2%nat]).
  - reflexivity.
  - split; [discriminate|reflexivity].
  - reflexivity.
  - split; [discriminate|reflexivity].
Defined.


(** ** What [has_changes] sees *)

Lemma signals_changed_views h a b sa sb :
  view_signals h a = Some sa → view_signals h b = Some sb →
  length a = length b →
  signals_changed h a b = Ok (bool_decide (sa ≠ sb)).
Proof.
  revert b sa sb. induction a as [|x a IH]; intros b sa sb Ha Hb Hlen.
  - destruct b; [|done]. injection Ha as <-. injection Hb as <-.
    change (signals_changed h [] []) with (Ok false : result bool).
    by rewrite bool_decide_eq_false_2 by (intros ?; done).
  - destruct b as [|y b]; [done|].
    apply view_signals_cons_inv in Ha as (vx & sa' & -> & Hx & Ha).
    apply view_signals_cons_inv in Hb as (vy & sb' & -> & Hy & Hb).
    simpl. unfold signal_ne. rewrite Hx, Hy. simpl.
    case_bool_decide as Hne.
    + rewrite bool_decide_eq_true_2; [done|]. by intros [= ? ?].
    + subst vy.
      rewrite (IH b sa' sb') by (done || (simpl in Hlen; lia)).
      f_equal. apply bool_decide_ext. split; [by intros ? [= ?]|].
      intros H' ->. done.
Qed.

(** Two lists of messages of equal length: the loop of [has_changes]
    answers "changed" unless they agree, position by position, on name,
    frame id and signals. *)
Lemma messages_changed_views h a b va vb :
  view_messages h a = Some va → view_messages h b = Some vb →
  length a = length b →
  ∃ r, messages_changed h a b = Ok r
       ∧ (r = false ↔
          Forall2 (λ x y, msg_name x = msg_name y
                          ∧ msg_frame_id x = msg_frame_id y
                          ∧ msg_signals x = msg_signals y) va vb).
Proof.
  revert b va vb. induction a as [|x a IH]; intros b va vb Ha Hb Hlen.
  - destruct b; [|done]. injection Ha as <-. injection Hb as <-.
    exists false. split; [done|]. split; [constructor|done].
  - destruct b as [|y b]; [done|].
    apply view_messages_cons_inv in Ha as (vx & va' & -> & Hx & Ha).
    apply view_messages_cons_inv in Hb as (vy & vb' & -> & Hy & Hb).
    destruct (IH b va' vb' Ha Hb) as (r & Hr & Hiff);
      [simpl in Hlen; lia|].
    apply view_message_inv in Hx
      as (mx & sndx & slx & sx & Emx & _ & Eslx & Esx & ->).
    apply view_message_inv in Hy
      as (my & sndy & sly & sy & Emy & _ & Esly & Esy & ->).
    simpl. rewrite Emx, Emy. simpl.
    case_bool_decide as Hn; simpl.
    { exists true. split; [done|]. split; [done|].
      intros H. inversion H as [|???? (? & _) _]; subst. done. }
    case_bool_decide as Hf; simpl.
    { exists true. split; [done|]. split; [done|].
      intros H. inversion H as [|???? (_ & ? & _) _]; subst. done. }
    rewrite Eslx, Esly. simpl.
    case_bool_decide as Hl.
    { exists true. split; [done|]. split; [done|].
      intros H. inversion H as [|???? (_ & _ & Hs) _]; subst.
      simpl in Hs. subst. exfalso. apply Hl.
      by rewrite (view_signals_length _ _ _ Esx),
                 (view_signals_length _ _ _ Esy). }
    rewrite (signals_changed_views h slx sly sx sy) by done. simpl.
    case_bool_decide as Hs.
    { exists true. split; [done|]. split; [done|].
      intros H. inversion H as [|???? (_ & _ & Hs') _]; subst. done. }
    subst sy.
    exists r. split; [done|]. rewrite Hiff. split.
    + intros H. by constructor.
    + intros H. by inversion H.
Qed.

(** Two documents that read as the same records are not told apart. *)
Lemma has_changes_same_views (ed : editor) (orig work : list loc)
    (vs : list message_val) :
  original_data ed = Some orig → modified_data ed = Some work →
  view_messages (heap ed) orig = Some vs →
  view_messages (heap ed) work = Some vs →
  has_changes ed = false.
Proof.
  intros Ho Hw Hvo Hvw. unfold has_changes. rewrite Ho, Hw.
  rewrite bool_decide_eq_false_2.
  - by rewrite (messages_changed_same _ _ _ _ Hvo Hvw).
  - intros Hlen. apply Hlen.
    by rewrite (view_messages_length _ _ _ Hvo),
               (view_messages_length _ _ _ Hvw).
Qed.

(** [has_changes], when both documents can be read: it is false exactly
    when the working copy and the snapshot have the same number of messages
    and agree, position by position, on name, frame id and signals. *)
Theorem has_changes_iff (ed : editor) (orig work : list loc)
    (vo vw : list message_val) :
  original_data ed = Some orig → modified_data ed = Some work →
  view_messages (heap ed) orig = Some vo →
  view_messages (heap ed) work = Some vw →
  has_changes ed = false
  ↔ Forall2 (λ x y, msg_name x = msg_name y
                    ∧ msg_frame_id x = msg_frame_id y
                    ∧ msg_signals x = msg_signals y) vo vw.
Proof.
  intros Ho Hw Hvo Hvw. unfold has_changes. rewrite Ho, Hw.
  case_bool_decide as Hlen.
  - split; [done|]. intros H%Forall2_length. exfalso. apply Hlen.
    by rewrite (view_messages_length _ _ _ Hvo),
               (view_messages_length _ _ _ Hvw).
  - destruct (messages_changed_views _ _ _ _ _ Hvo Hvw Hlen)
      as (r & -> & Hiff).
    done.
Qed.

Lemma has_changes_iff_witness :
  has_changes Demo.loaded_one = false
  ↔ Forall2 (λ x y : message_val,
               msg_name x = msg_name y
               ∧ msg_frame_id x = msg_frame_id y
               ∧ msg_signals x = msg_signals y) [Demo.msg_M] [Demo.msg_M].
Proof.
  apply (has_changes_iff Demo.loaded_one [0%nat] [1%nat]); reflexivity.
Defined.

(** A change in the number of messages is always seen, whatever the
    documents hold. *)
Theorem count_change_detected (ed : editor) (orig work : list loc) :
  original_data ed = Some orig → modified_data ed = Some work →
  length orig ≠ length work → has_changes ed = true.
Proof.
  intros Ho Hw Hlen. unfold has_changes. rewrite Ho, Hw.
  by rewrite bool_decide_eq_true_2.
Qed.

Lemma count_change_detected_witness :
  has_changes (add_message 0%nat Demo.loaded_one).2 = true.
Proof.
  apply (count_change_detected _ [0%nat] [1%nat; 0%nat]);
    [reflexivity|reflexivity|discriminate].
Defined.

(** After [load_dbc_file] has succeeded, [has_changes] is false. *)
Theorem loaded_has_no_changes
    (parse_dbc : string → result (list message_val))
    (path : string) (ed : editor) (fs : files) (orig : list loc)
    (ed' : editor) :
  load_dbc_file parse_dbc path ed fs = (Ok orig, ed') →
  has_changes ed' = false.
Proof.
  intros Hload.
  destruct (fs !! path) as [text|] eqn:Hfs;
    [|unfold load_dbc_file in Hload; by rewrite Hfs in Hload].
  destruct (endswith (lower path) ".dbc") eqn:Hsuf;
    [|unfold load_dbc_file in Hload; by rewrite Hfs, Hsuf in Hload].
  destruct (parse_dbc text) as [database|e] eqn:Hparse;
    [|unfold load_dbc_file in Hload; by rewrite Hfs, Hsuf, Hparse in Hload].
  destruct (load_dbc_file_ok parse_dbc path ed fs text database Hfs Hsuf
              Hparse) as (orig' & work & h & Heq & Hvo & Hvw).
  rewrite Heq in Hload. injection Hload as <- <-.
  by apply (has_changes_same_views _ orig' work (six_keys <$> database)).
Qed.

Lemma loaded_has_no_changes_witness : has_changes Demo.loaded_two = false.
Proof.
  apply (loaded_has_no_changes Demo.parse "two.dbc" init Demo.disk
           [0%nat; 1%nat] Demo.loaded_two).
  vm_compute. reflexivity.
Defined.




(** ** A save that succeeds, and saves after a load *)

Lemma endswith_nonempty (s suffix : string) :
  endswith s suffix = true → suffix ≠ "" → s ≠ "".
Proof. intros [p ->]%endswith_spec Hs. by destruct p, suffix. Qed.

Lemma lower_nonempty (s : string) : lower s ≠ "" → s ≠ "".
Proof. by destruct s. Qed.

Section SaveOk.

Context {can_signal can_message : Type}.
Context (new_signal : signal_val → result can_signal).
Context (new_message :
  message_obj → list string → list can_signal → bool → result can_message).
Context (as_dbc_string : list can_message → result string).
Context (copy_fault : string → option (option nat)).
Context (open_fault : string → bool).
Context (write_fault : string → option nat).
Context (remove_fault : string → bool).

Local Abbreviation save :=
  (save_dbc_file can_signal can_message new_signal new_message
                 as_dbc_string copy_fault open_fault write_fault
                 remove_fault).
Local Abbreviation rebuild :=
  (rebuild_database can_signal can_message new_signal new_message).

Lemma rebuild_database_view ed database :
  rebuild ed = Ok database →
  ∃ msgs vs, modified_data ed = Some msgs
             ∧ view_messages (heap ed) msgs = Some vs.
Proof.
  unfold rebuild_database.
  destruct (modified_data ed) as [msgs|]; [|done]. simpl.
  intros [vs Hvs]%rebuild_messages_view. by exists msgs, vs.
Qed.

(** What [_cleanup_backup_file] leaves at each path: only the backup can
    go, and it stays when [os.remove] fails. *)
Lemma cleanup_backup_file_lookup path fs p :
  cleanup_backup_file remove_fault path fs !! p
  = if bool_decide (p = path +:+ ".backup")
    then (if remove_fault p then fs !! p else None)
    else fs !! p.
Proof.
  unfold cleanup_backup_file. case_bool_decide as Hp.
  - subst p. destruct (fs !! (path +:+ ".backup")) eqn:E.
    + destruct (remove_fault _); [done|apply lookup_delete_eq].
    + by destruct (remove_fault _).
  - destruct (fs !! (path +:+ ".backup"));
      [destruct (remove_fault _)|]; try done.
    by rewrite lookup_delete_ne.
Qed.

Lemma saved_disk_text path text fs :
  saved_disk remove_fault path text fs !! path = Some text.
Proof.
  unfold saved_disk. rewrite cleanup_backup_file_lookup.
  rewrite bool_decide_eq_false_2
    by (intros H; by apply (backup_path_ne path)).
  apply lookup_insert_eq.
Qed.

Lemma saved_disk_backup path text fs :
  saved_disk remove_fault path text fs !! (path +:+ ".backup")
  = if remove_fault (path +:+ ".backup")
    then match fs !! path with
         | Some old => Some old
         | None => fs !! (path +:+ ".backup")
         end
    else None.
Proof.
  unfold saved_disk. rewrite cleanup_backup_file_lookup.
  rewrite bool_decide_eq_true_2 by done.
  destruct (remove_fault _); [|done].
  rewrite !lookup_insert_ne by (intros H; by apply (backup_path_ne path)).
  destruct (fs !! path); [by rewrite lookup_insert_eq|done].
Qed.

Lemma saved_disk_other path text fs p :
  p ≠ path → p ≠ path +:+ ".backup" →
  saved_disk remove_fault path text fs !! p = fs !! p.
Proof.
  intros Hp1 Hp2. unfold saved_disk. rewrite cleanup_backup_file_lookup.
  rewrite bool_decide_eq_false_2 by done.
  rewrite !lookup_insert_ne by done.
  destruct (fs !! path); [by rewrite lookup_insert_ne|done].
Qed.

(** The run of [save_dbc_file] when nothing before the cleanup fails. *)
Lemma save_ok_run path_arg ed fs path database text :
  target_path path_arg ed = Some path → path ≠ "" →
  (fs !! path ≠ None → copy_fault path = None) →
  rebuild ed = Ok database →
  open_fault path = false →
  as_dbc_string database = Ok text →
  write_fault text = None →
  ∃ msgs copies h vs,
    save path_arg ed fs
    = (Ok (), Editor (db ed) (file_path ed) (Some copies) (Some msgs) h,
       saved_disk remove_fault path text fs)
    ∧ modified_data ed = Some msgs
    ∧ view_messages (heap ed) msgs = Some vs
    ∧ heap_ext (heap ed) h
    ∧ view_messages h copies = Some vs.
Proof.
  intros Hpath Hne Hcp Hreb Hop Hser Hwr.
  destruct (rebuild_database_view _ _ Hreb) as (msgs & vs & Hm & Hvs).
  destruct (mapM_store_copies view_message copy_msg_dict view_message_ext
              copy_msg_dict_spec msgs (heap ed) vs Hvs)
    as (copies & h' & Ec & He & Hc).
  exists msgs, copies, h', vs. split; [|done].
  unfold save_dbc_file, backup_copy, saved_disk. rewrite Hpath.
  rewrite bool_decide_eq_false_2 by done.
  destruct (fs !! path) as [old|] eqn:Hfs.
  - rewrite Hcp by done. by rewrite Hreb, Hop, Hser, Hwr, Hm, Ec.
  - by rewrite Hreb, Hop, Hser, Hwr, Hm, Ec.
Qed.

(** When the backup copy (made if the target exists) succeeds, the library
    accepts the working copy, the target opens for writing and the disk
    takes the text, [save_dbc_file] succeeds, whether or not the backup
    can be removed afterwards: the file at the target path holds the text
    the serializer gave and no other file but the backup is touched.  If
    [os.remove] works no backup file is left; if it fails, the failure is
    swallowed and the backup stays, holding the text the target had before
    (or, when there was no target, whatever an older backup held).
    [file_path] and the working copy are as before (also when the target
    is another path), and the snapshot now reads as the working copy. *)
Theorem save_writes_and_cleans path_arg ed fs path database text :
  target_path path_arg ed = Some path → path ≠ "" →
  (fs !! path ≠ None → copy_fault path = None) →
  rebuild ed = Ok database →
  open_fault path = false →
  as_dbc_string database = Ok text →
  write_fault text = None →
  ∃ ed' fs' msgs copies vs,
    save path_arg ed fs = (Ok (), ed', fs')
    ∧ fs' !! path = Some text
    ∧ fs' !! (path +:+ ".backup")
      = (if remove_fault (path +:+ ".backup")
         then match fs !! path with
              | Some old => Some old
              | None => fs !! (path +:+ ".backup")
              end
         else None)
    ∧ (∀ p, p ≠ path → p ≠ path +:+ ".backup" → fs' !! p = fs !! p)
    ∧ file_path ed' = file_path ed
    ∧ db ed' = db ed
    ∧ modified_data ed' = Some msgs ∧ modified_data ed = Some msgs
    ∧ original_data ed' = Some copies
    ∧ view_messages (heap ed') msgs = Some vs
    ∧ view_messages (heap ed') copies = Some vs
    ∧ view_messages (heap ed) msgs = Some vs.
Proof.
  intros Hpath Hne Hcp Hreb Hop Hser Hwr.
  destruct (save_ok_run path_arg ed fs path database text Hpath Hne Hcp Hreb
              Hop Hser Hwr)
    as (msgs & copies & h & vs & Hrun & Hm & Hvs & He & Hc).
  eexists _, _, msgs, copies, vs. split; [exact Hrun|].
  split; [apply saved_disk_text|].
  split; [apply saved_disk_backup|].
  split; [intros p Hp1 Hp2; by apply saved_disk_other|].
  cbn [file_path db modified_data original_data heap].
  split; [done|]. split; [done|]. split; [done|]. split; [done|].
  split; [done|]. split; [|done].
  by apply (view_messages_ext (heap ed)).
Qed.

(** Without a target path - no argument and no [file_path], or an empty
    one - [save_dbc_file] raises and touches neither the disk nor the
    editor. *)
Theorem save_without_path path_arg ed fs :
  target_path path_arg ed = None ∨ target_path path_arg ed = Some "" →
  save path_arg ed fs
  = (Raise (dbc_error
       "Failed to save DBC: No file path specified for saving"), ed, fs).
Proof. intros [H|H]; unfold save_dbc_file; by rewrite H. Qed.

(** A [load_dbc_file] that fails in the parser has already stored the
    path: the document that was open stays open, and a later
    [save_dbc_file()] without argument writes that document over the file
    that did not parse (when the backup copy and the disk do not fail). *)
Theorem failed_parse_redirects_save
    (parse_dbc : string → result (list message_val))
    path ed fs old_text e :
  fs !! path = Some old_text → endswith (lower path) ".dbc" = true →
  parse_dbc old_text = Raise e →
  ∃ ed1,
    load_dbc_file parse_dbc path ed fs
    = (Raise (dbc_error ("Failed to load DBC: " +:+ exn_str e)), ed1)
    ∧ original_data ed1 = original_data ed
    ∧ modified_data ed1 = modified_data ed
    ∧ heap ed1 = heap ed
    ∧ file_path ed1 = Some path
    ∧ (∀ database text,
         copy_fault path = None → open_fault path = false →
         rebuild ed = Ok database → as_dbc_string database = Ok text →
         write_fault text = None →
         ∃ ed2 fs2, save None ed1 fs = (Ok (), ed2, fs2)
                    ∧ fs2 !! path = Some text).
Proof.
  intros Hfs Hsuf Hparse.
  eexists. split.
  { unfold load_dbc_file. rewrite Hfs, Hsuf, Hparse. reflexivity. }
  simpl. repeat split.
  intros database text Hcp Hop Hreb Hser Hwr.
  destruct (save_ok_run None
              (Editor (db ed) (Some path) (original_data ed)
                      (modified_data ed) (heap ed)) fs path database text)
    as (? & ? & ? & ? & Hsave & _); try done.
  - apply lower_nonempty. by apply (endswith_nonempty _ ".dbc").
  - eexists _, _. split; [exact Hsave|apply saved_disk_text].
Qed.

(** Save, then load the same path again: if the save meets no failure and
    the parser reads the text that was written back as the records of the
    working copy, the reloaded document - snapshot and working copy -
    reads as the working copy did before the save on the six keys of the
    data model, and [has_changes] is false. *)
Theorem save_then_load
    (parse_dbc : string → result (list message_val))
    path_arg ed fs path database text msgs vs :
  target_path path_arg ed = Some path →
  endswith (lower path) ".dbc" = true →
  (fs !! path ≠ None → copy_fault path = None) →
  open_fault path = false →
  rebuild ed = Ok database → as_dbc_string database = Ok text →
  write_fault text = None →
  modified_data ed = Some msgs → view_messages (heap ed) msgs = Some vs →
  parse_dbc text = Ok vs →
  ∃ ed1 fs1 orig work ed2,
    save path_arg ed fs = (Ok (), ed1, fs1)
    ∧ load_dbc_file parse_dbc path ed1 fs1 = (Ok orig, ed2)
    ∧ original_data ed2 = Some orig
    ∧ modified_data ed2 = Some work
    ∧ file_path ed2 = Some path
    ∧ view_messages (heap ed2) orig = Some (six_keys <$> vs)
    ∧ view_messages (heap ed2) work = Some (six_keys <$> vs)
    ∧ has_changes ed2 = false.
Proof.
  intros Hpath Hsuf Hcp Hop Hreb Hser Hwr Hm Hvs Hparse.
  destruct (save_ok_run path_arg ed fs path database text)
    as (msgs' & copies & h1 & vs' & Hsave & _); try done.
  { apply lower_nonempty. by apply (endswith_nonempty _ ".dbc"). }
  set (ed1 := Editor (db ed) (file_path ed) (Some copies) (Some msgs') h1)
    in *.
  destruct (load_dbc_file_ok parse_dbc path ed1
              (saved_disk remove_fault path text fs)
              text vs (saved_disk_text path text fs) Hsuf Hparse)
    as (orig & work & h & Hload & Hvo & Hvw).
  exists ed1, (saved_disk remove_fault path text fs), orig, work,
    (Editor (Some vs) (Some path) (Some orig) (Some work) h).
  split; [done|]. split; [done|].
  split; [done|]. split; [done|]. split; [done|]. split; [done|].
  split; [done|].
  by apply (has_changes_same_views _ orig work (six_keys <$> vs)).
Qed.

End SaveOk.

Lemma save_writes_and_cleans_witness :
  ∃ ed' fs' msgs copies vs,
    Demo.save_remove_fails None Demo.loaded_two Demo.disk = (Ok (), ed', fs')
    ∧ fs' !! "two.dbc" = Some "VERSION"
    ∧ fs' !! ("two.dbc" +:+ ".backup") = Some "two"
    ∧ (∀ p, p ≠ "two.dbc" → p ≠ "two.dbc" +:+ ".backup" →
         fs' !! p = Demo.disk !! p)
    ∧ file_path ed' = file_path Demo.loaded_two
    ∧ db ed' = db Demo.loaded_two
    ∧ modified_data ed' = Some msgs
    ∧ modified_data Demo.loaded_two = Some msgs
    ∧ original_data ed' = Some copies
    ∧ view_messages (heap ed') msgs = Some vs
    ∧ view_messages (heap ed') copies = Some vs
    ∧ view_messages (heap Demo.loaded_two) msgs = Some vs.
Proof.
  apply (save_writes_and_cleans Demo.new_signal Demo.new_message
           Demo.as_dbc_string Demo.no_copy_fault Demo.never Demo.no_fault
           Demo.always None Demo.loaded_two Demo.disk
           "two.dbc" [Demo.msg_M; Demo.msg_N] "VERSION").
  - reflexivity.
  - discriminate.
  - reflexivity.
  - vm_compute. reflexivity.
  - reflexivity.
  - reflexivity.
  - reflexivity.
Defined.

(** The same save on a disk where [os.remove] works leaves no backup. *)
Example save_removes_backup :
  (Demo.save None Demo.loaded_two Demo.disk).1.1 = Ok ()
  ∧ (Demo.save None Demo.loaded_two Demo.disk).2 !! "two.dbc"
    = Some "VERSION"
  ∧ (Demo.save None Demo.loaded_two Demo.disk).2 !! "two.dbc.backup" = None.
Proof. vm_compute. done. Qed.

Lemma save_without_path_witness :
  Demo.save None init Demo.disk
  = (Raise (dbc_error
       "Failed to save DBC: No file path specified for saving"),
     init, Demo.disk).
Proof.
  apply (save_without_path Demo.new_signal Demo.new_message
           Demo.as_dbc_string Demo.no_copy_fault Demo.never Demo.no_fault
           Demo.never None init Demo.disk).
  left. reflexivity.
Defined.

Lemma failed_parse_redirects_save_witness :
  let broken (text : string) : result (list message_val) :=
    Raise (Exn LibraryError "syntax error") in
  ∃ ed1 ed2 fs2,
    load_dbc_file broken "two.dbc" Demo.loaded_one Demo.disk
    = (Raise (dbc_error "Failed to load DBC: syntax error"), ed1)
    ∧ file_path ed1 = Some "two.dbc"
    ∧ Demo.save None ed1 Demo.disk = (Ok (), ed2, fs2)
    ∧ fs2 !! "two.dbc" = Some "VERSION".
Proof.
  intros broken.
  destruct (failed_parse_redirects_save Demo.new_signal Demo.new_message
              Demo.as_dbc_string Demo.no_copy_fault Demo.never Demo.no_fault
              Demo.never broken "two.dbc"
              Demo.loaded_one Demo.disk "two"
              (Exn LibraryError "syntax error"))
    as (ed1 & Hload & _ & _ & _ & Hpath & Hsave).
  - reflexivity.
  - reflexivity.
  - reflexivity.
  - destruct (Hsave [Demo.msg_M] "VERSION") as (ed2 & fs2 & Hs & Ht).
    + reflexivity.
    + reflexivity.
    + vm_compute. reflexivity.
    + reflexivity.
    + reflexivity.
    + exists ed1, ed2, fs2. split; [exact Hload|].
      split; [exact Hpath|]. split; [exact Hs|exact Ht].
Defined.

Lemma save_then_load_witness :
  ∃ ed1 fs1 orig work ed2,
    Demo.save None Demo.loaded_two Demo.disk = (Ok (), ed1, fs1)
    ∧ load_dbc_file Demo.parse "two.dbc" ed1 fs1 = (Ok orig, ed2)
    ∧ original_data ed2 = Some orig
    ∧ modified_data ed2 = Some work
    ∧ file_path ed2 = Some "two.dbc"
    ∧ view_messages (heap ed2) orig = Some [Demo.msg_M; Demo.msg_N]
    ∧ view_messages (heap ed2) work = Some [Demo.msg_M; Demo.msg_N]
    ∧ has_changes ed2 = false.
Proof.
  apply (save_then_load Demo.new_signal Demo.new_message Demo.as_dbc_string
           Demo.no_copy_fault Demo.never Demo.no_fault Demo.never
           Demo.parse None Demo.loaded_two Demo.disk "two.dbc"
           [Demo.msg_M; Demo.msg_N] "VERSION" [2%nat; 3%nat]
           [Demo.msg_M; Demo.msg_N]).
  - reflexivity.
  - reflexivity.
  - reflexivity.
  - reflexivity.
  - vm_compute. reflexivity.
  - reflexivity.
  - reflexivity.
  - reflexivity.
  - reflexivity.
  - reflexivity.
Defined.

(** ** The snapshot from load on *)

Lemma prefix_insert_ge {A} (l1 l2 : list A) (i : nat) (x : A) :
  l1 `prefix_of` l2 → (length l1 ≤ i)%nat → l1 `prefix_of` <[i := x]> l2.
Proof.
  intros [k ->] Hi. rewrite insert_app_r_alt by done. by apply prefix_app_r.
Qed.

Lemma heap_ext_sig_lists_length h h' :
  heap_ext h h' → (length (sig_lists h) ≤ length (sig_lists h'))%nat.
Proof. intros (_ & _ & H & _). by apply prefix_length. Qed.

(** A list of signals made after [h0] can be written without touching what
    [h0] held. *)
Lemma heap_ext_set_sig_list h0 h sl signals :
  heap_ext h0 h → (length (sig_lists h0) ≤ sl)%nat →
  heap_ext h0 (set_sig_list sl signals h).
Proof.
  intros (Hm & Hs & Hl & Hr) Hsl. repeat split; simpl; try done.
  by apply prefix_insert_ge.
Qed.

(** The messages of the new working list are old ones, or dictionaries
    made after [h0]. *)
Lemma apart_step h0 ed h' msgs' :
  apart h0 ed → heap_ext h0 h' →
  msg_dicts (heap ed) `prefix_of` msg_dicts h' →
  Forall (λ l, l ∈ default [] (modified_data ed)
               ∨ ∃ m, msg_dicts h' !! l = Some m
                      ∧ (length (sig_lists h0) ≤ msg_signals m)%nat) msgs' →
  apart h0 (set_heap h' (set_modified (Some msgs') ed)).
Proof.
  intros [He Hall] He' Hpre Hnew. split; [done|]. simpl.
  rewrite list.Forall_forall in Hall. rewrite list.Forall_forall in Hnew.
  apply list.Forall_forall. intros l Hl.
  destruct (Hnew l Hl) as [Hold|Hfresh]; [|done].
  destruct (Hall l Hold) as (m & Hm & Hb). exists m. split; [|done].
  by apply (prefix_lookup_Some (msg_dicts (heap ed))).
Qed.

(** Objects the caller builds in between do no harm. *)
Lemma apart_ext h0 ed h' :
  apart h0 ed → heap_ext (heap ed) h' → apart h0 (set_heap h' ed).
Proof.
  intros [He Hall] He'. split; [by trans (heap ed)|]. simpl.
  eapply Forall_impl; [|exact Hall]. intros l (m & Hm & Hb).
  exists m. split; [|done].
  apply (prefix_lookup_Some (msg_dicts (heap ed))); [done|apply He'].
Qed.

Lemma apart_same_heap h0 ed msgs' :
  apart h0 ed → msgs' ⊆ default [] (modified_data ed) →
  apart h0 (set_modified (Some msgs') ed).
Proof.
  intros Ha Hsub.
  replace (set_modified (Some msgs') ed)
    with (set_heap (heap ed) (set_modified (Some msgs') ed)) by done.
  apply apart_step; [done|apply Ha|done|].
  apply list.Forall_forall. intros l Hl. left. by apply Hsub.
Qed.

Lemma py_getitem_elem {A} (l : list A) (i : Z) (x : A) :
  py_getitem l i = Ok x → x ∈ l.
Proof.
  unfold py_getitem.
  destruct (norm_index (length l) i) as [k|]; simpl; [|done].
  destruct (l !! k) eqn:E; [|done]. intros [= <-].
  by eapply list_elem_of_lookup_2.
Qed.

Lemma py_setitem_subseteq {A} (l l' : list A) (i : Z) (x : A) :
  py_setitem l i x = Ok l' → ∀ y, y ∈ l' → y ∈ l ∨ y = x.
Proof.
  unfold py_setitem. destruct (norm_index (length l) i) as [k|]; [|done].
  intros [= <-] y Hy. apply list_elem_of_lookup in Hy as [j Hj].
  destruct (decide (k = j)) as [->|Hne].
  - destruct (decide (j < length l)%nat).
    + rewrite list_lookup_insert_eq in Hj by done. right. congruence.
    + rewrite list_insert_ge in Hj by lia. left.
      by eapply list_elem_of_lookup_2.
  - rewrite list_lookup_insert_ne in Hj by done. left.
    by eapply list_elem_of_lookup_2.
Qed.

Lemma py_delitem_subseteq {A} (l l' : list A) (i : Z) :
  py_delitem l i = Ok l' → l' ⊆ l.
Proof.
  unfold py_delitem. destruct (norm_index (length l) i) as [k|]; [|done].
  intros [= <-]. apply sublist_subseteq, sublist_delete.
Qed.

Lemma py_swap_subseteq {A} (l l' : list A) (i j : Z) :
  py_swap l i j = Ok l' → l' ⊆ l.
Proof.
  unfold py_swap.
  destruct (py_getitem l j) as [xj|] eqn:Ej; [|done]. simpl.
  destruct (py_getitem l i) as [xi|] eqn:Ei; [|done]. simpl.
  destruct (py_setitem l i xj) as [l1|] eqn:E1; [|done]. simpl.
  intros E2 y Hy.
  destruct (py_setitem_subseteq _ _ _ _ E2 y Hy) as [Hy1| ->];
    [|by eapply py_getitem_elem].
  destruct (py_setitem_subseteq _ _ _ _ E1 y Hy1) as [?| ->];
    [done|by eapply py_getitem_elem].
Qed.

(** The list of signals a signal-level method writes to belongs to a
    message of the working copy. *)
Lemma apart_signals_of h0 ed msgs msg_idx sl signals :
  apart h0 ed → modified_data ed = Some msgs →
  signals_of (heap ed) msgs msg_idx = Ok (sl, signals) →
  (length (sig_lists h0) ≤ sl)%nat.
Proof.
  intros [_ Hall] Hm (ml & m & Eml & Em & -> & _)%signals_of_inv.
  rewrite Hm in Hall. simpl in Hall. rewrite list.Forall_forall in Hall.
  destruct (Hall ml (py_getitem_elem _ _ _ Eml)) as (m' & Em' & Hb).
  by simplify_eq.
Qed.

Lemma apart_set_sig_list h0 ed msgs msg_idx sl signals signals' h :
  apart h0 ed → modified_data ed = Some msgs →
  signals_of (heap ed) msgs msg_idx = Ok (sl, signals) →
  heap_ext (heap ed) h → msg_dicts h = msg_dicts (heap ed) →
  apart h0 (set_heap (set_sig_list sl signals' h) ed).
Proof.
  intros Ha Hm Hsig He Hmd.
  pose proof (apart_signals_of _ _ _ _ _ _ Ha Hm Hsig) as Hb.
  destruct Ha as [He0 Hall]. split.
  - apply heap_ext_set_sig_list; [by trans (heap ed)|done].
  - simpl. by rewrite Hmd.
Qed.

Lemma mapM_store_ext {A B} (f : A → store → result (B * store)) :
  (∀ x h y h', f x h = Ok (y, h') → heap_ext h h') →
  ∀ l h ys h', mapM_store f l h = Ok (ys, h') → heap_ext h h'.
Proof.
  intros Hf l. induction l as [|x l IH]; intros h ys h'; simpl.
  - by intros [= _ <-].
  - destruct (f x h) as [[y h1]|] eqn:Ef; [|done]. simpl.
    destruct (mapM_store f l h1) as [[ys' h2]|] eqn:Em; [|done]. simpl.
    intros [= _ <-]. trans h1; [by eapply Hf|by eapply IH].
Qed.

Lemma copy_sig_dict_ext l h l' h' :
  copy_sig_dict l h = Ok (l', h') → heap_ext h h'.
Proof.
  unfold copy_sig_dict. destruct (sig_dicts h !! l) as [s|]; [|done].
  simpl. intros [= _ <-]. apply (alloc_sig_ext s).
Qed.

Lemma deep_copy_signal_ext l h l' h' :
  deep_copy_signal l h = Ok (l', h') → heap_ext h h'.
Proof.
  unfold deep_copy_signal. destruct (sig_dicts h !! l) as [s|]; [|done].
  simpl. destruct (str_lists h !! sig_receivers s) as [r|]; [|done]. simpl.
  intros [= _ <-].
  trans (alloc_str_list r h).2; [apply alloc_str_list_ext|].
  apply (alloc_sig_ext (sig_with_receivers s (length (str_lists h)))).
Qed.

(** Every editing method keeps the working copy apart from what [h0]
    held. *)
Lemma apart_add_message h0 ed l :
  apart h0 ed →
  (∃ m, msg_dicts (heap ed) !! l = Some m
        ∧ (length (sig_lists h0) ≤ msg_signals m)%nat) →
  apart h0 (add_message l ed).2.
Proof.
  intros Ha Hl. unfold add_message. simpl.
  replace (set_modified _ ed)
    with (set_heap (heap ed) (set_modified
            (Some (default [] (modified_data ed) ++ [l])) ed))
    by (by destruct (modified_data ed)).
  apply apart_step; [done|apply Ha|done|].
  apply Forall_app. split.
  - apply list.Forall_forall. intros y Hy. by left.
  - apply Forall_singleton. by right.
Qed.

Lemma apart_update_message h0 ed idx l :
  apart h0 ed →
  (∃ m, msg_dicts (heap ed) !! l = Some m
        ∧ (length (sig_lists h0) ≤ msg_signals m)%nat) →
  apart h0 (update_message idx l ed).2.
Proof.
  intros Ha Hl. unfold update_message.
  destruct (modified_data ed) as [msgs|] eqn:Hm; [|done].
  destruct (len msgs <=? idx); [done|]. unfold atomically.
  destruct (py_setitem msgs idx l) as [msgs'|] eqn:E; [|done]. simpl.
  replace (set_modified (Some msgs') ed)
    with (set_heap (heap ed) (set_modified (Some msgs') ed)) by done.
  apply apart_step; [done|apply Ha|done|].
  apply list.Forall_forall. intros y Hy. rewrite Hm. simpl.
  destruct (py_setitem_subseteq _ _ _ _ E y Hy) as [?| ->]; [by left|by right].
Qed.

Lemma apart_delete_message h0 ed idx :
  apart h0 ed → apart h0 (delete_message idx ed).2.
Proof.
  intros Ha. unfold delete_message.
  destruct (modified_data ed) as [msgs|] eqn:Hm; [|done].
  destruct (len msgs <=? idx); [done|]. unfold atomically.
  destruct (py_delitem msgs idx) as [msgs'|] eqn:E; [|done]. simpl.
  apply apart_same_heap; [done|]. rewrite Hm. simpl.
  by eapply py_delitem_subseteq.
Qed.

Lemma apart_move_message_up h0 ed idx :
  apart h0 ed → apart h0 (move_message_up idx ed).2.
Proof.
  intros Ha. unfold move_message_up.
  destruct (modified_data ed) as [msgs|] eqn:Hm; [|done].
  destruct ((idx <=? 0) || (len msgs <=? idx)); [done|]. unfold atomically.
  destruct (py_swap msgs (idx - 1) idx) as [msgs'|] eqn:E; [|done]. simpl.
  apply apart_same_heap; [done|]. rewrite Hm. simpl.
  by eapply py_swap_subseteq.
Qed.

Lemma apart_move_message_down h0 ed idx :
  apart h0 ed → apart h0 (move_message_down idx ed).2.
Proof.
  intros Ha. unfold move_message_down.
  destruct (modified_data ed) as [msgs|] eqn:Hm; [|done].
  destruct ((idx <? 0) || (len msgs - 1 <=? idx)); [done|]. unfold atomically.
  destruct (py_swap msgs (idx + 1) idx) as [msgs'|] eqn:E; [|done]. simpl.
  apply apart_same_heap; [done|]. rewrite Hm. simpl.
  by eapply py_swap_subseteq.
Qed.

Lemma apart_duplicate_message h0 ed idx :
  apart h0 ed → apart h0 (duplicate_message idx ed).2.
Proof.
  intros Ha. unfold duplicate_message.
  destruct (modified_data ed) as [msgs|] eqn:Hm; [|done].
  destruct ((idx <? 0) || (len msgs <=? idx)); [done|]. unfold atomically.
  destruct (py_getitem msgs idx) as [ol|]; [|done]. simpl.
  destruct (msg_dicts (heap ed) !! ol) as [m|]; [|done]. simpl.
  destruct (str_lists (heap ed) !! msg_senders m) as [snd|]; [|done]. simpl.
  destruct (sig_lists (heap ed) !! msg_signals m) as [sl|]; [|done]. simpl.
  set (h1 := Store (msg_dicts (heap ed)) (sig_dicts (heap ed))
                   (sig_lists (heap ed)) (str_lists (heap ed) ++ [snd])).
  assert (heap_ext (heap ed) h1) as He1 by apply (alloc_str_list_ext snd).
  destruct (mapM_store copy_sig_dict sl h1) as [[sl' h2]|] eqn:Ec; [|done].
  simpl.
  pose proof (mapM_store_ext copy_sig_dict copy_sig_dict_ext _ _ _ _ Ec)
    as He2.
  set (h3 := Store (msg_dicts h2) (sig_dicts h2) (sig_lists h2 ++ [sl'])
                   (str_lists h2)).
  assert (heap_ext h2 h3) as He3 by apply (alloc_sig_list_ext sl').
  destruct (message_names h3 msgs) as [names|]; [|done]. simpl.
  destruct (unique_name (msg_name m) names) as [candidate|]; [|done]. simpl.
  assert (heap_ext (heap ed) h3) as He03 by (trans h1; [done|by trans h2]).
  apply apart_step; [done| |simpl|].
  - trans (heap ed); [apply Ha|]. trans h3; [done|].
    apply (alloc_msg_ext _ h3).
  - apply prefix_app_r. apply He03.
  - apply Forall_app. split.
    + apply list.Forall_forall. intros y Hy. left. by rewrite Hm.
    + apply Forall_singleton. right. eexists. split.
      * by apply list_lookup_middle.
      * simpl. destruct Ha as [Ha _].
        apply heap_ext_sig_lists_length in Ha.
        assert (heap_ext (heap ed) h2) as He02 by by trans h1.
        apply heap_ext_sig_lists_length in He02. lia.
Qed.

Lemma apart_add_signal h0 ed msg_idx l :
  apart h0 ed → apart h0 (add_signal msg_idx l ed).2.
Proof.
  intros Ha. unfold add_signal.
  destruct (modified_data ed) as [msgs|] eqn:Hm; [|done].
  destruct (len msgs <=? msg_idx); [done|]. unfold atomically.
  destruct (signals_of (heap ed) msgs msg_idx) as [[sl sigs]|] eqn:Es;
    [|done].
  simpl. by apply (apart_set_sig_list h0 ed msgs msg_idx sl sigs).
Qed.

Lemma apart_update_signal h0 ed msg_idx sig_idx l :
  apart h0 ed → apart h0 (update_signal msg_idx sig_idx l ed).2.
Proof.
  intros Ha. unfold update_signal.
  destruct (modified_data ed) as [msgs|] eqn:Hm; [|done].
  destruct (len msgs <=? msg_idx); [done|]. unfold atomically.
  destruct (signals_of (heap ed) msgs msg_idx) as [[sl sigs]|] eqn:Es;
    [|done].
  simpl. destruct (len sigs <=? sig_idx); [done|].
  destruct (py_setitem sigs sig_idx l) as [sigs'|]; [|done]. simpl.
  by apply (apart_set_sig_list h0 ed msgs msg_idx sl sigs).
Qed.

Lemma apart_delete_signal h0 ed msg_idx sig_idx :
  apart h0 ed → apart h0 (delete_signal msg_idx sig_idx ed).2.
Proof.
  intros Ha. unfold delete_signal.
  destruct (modified_data ed) as [msgs|] eqn:Hm; [|done].
  destruct (len msgs <=? msg_idx); [done|]. unfold atomically.
  destruct (signals_of (heap ed) msgs msg_idx) as [[sl sigs]|] eqn:Es;
    [|done].
  simpl. destruct (len sigs <=? sig_idx); [done|].
  destruct (py_getitem sigs sig_idx) as [ol|]; [|done]. simpl.
  destruct (sig_dicts (heap ed) !! ol); [|done]. simpl.
  destruct (py_delitem sigs sig_idx) as [sigs'|]; [|done]. simpl.
  by apply (apart_set_sig_list h0 ed msgs msg_idx sl sigs).
Qed.

Lemma apart_duplicate_signal h0 ed msg_idx sig_idx :
  apart h0 ed → apart h0 (duplicate_signal msg_idx sig_idx ed).2.
Proof.
  intros Ha. unfold duplicate_signal.
  destruct (modified_data ed) as [msgs|] eqn:Hm; [|done].
  destruct ((msg_idx <? 0) || (len msgs <=? msg_idx)); [done|].
  unfold atomically.
  destruct (signals_of (heap ed) msgs msg_idx) as [[sl sigs]|] eqn:Es;
    [|done].
  simpl. destruct ((sig_idx <? 0) || (len sigs <=? sig_idx)); [done|].
  destruct (py_getitem sigs sig_idx) as [ol|]; [|done]. simpl.
  destruct (sig_dicts (heap ed) !! ol) as [s|]; [|done]. simpl.
  destruct (signal_names (heap ed) sigs) as [names|]; [|done]. simpl.
  destruct (unique_name (sig_name s) names) as [candidate|]; [|done]. simpl.
  apply (apart_set_sig_list h0 ed msgs msg_idx sl sigs); try done.
  apply (alloc_sig_ext _ (heap ed)).
Qed.

Lemma apart_move_signal_up h0 ed msg_idx sig_idx :
  apart h0 ed → apart h0 (move_signal_up msg_idx sig_idx ed).2.
Proof.
  intros Ha. unfold move_signal_up.
  destruct (modified_data ed) as [msgs|] eqn:Hm; [|done].
  destruct ((msg_idx <? 0) || (len msgs <=? msg_idx)); [done|].
  unfold atomically.
  destruct (signals_of (heap ed) msgs msg_idx) as [[sl sigs]|] eqn:Es;
    [|done].
  simpl. destruct ((sig_idx <=? 0) || (len sigs <=? sig_idx)); [done|].
  destruct (py_swap sigs (sig_idx - 1) sig_idx) as [sigs'|]; [|done]. simpl.
  by apply (apart_set_sig_list h0 ed msgs msg_idx sl sigs).
Qed.

Lemma apart_move_signal_down h0 ed msg_idx sig_idx :
  apart h0 ed → apart h0 (move_signal_down msg_idx sig_idx ed).2.
Proof.
  intros Ha. unfold move_signal_down.
  destruct (modified_data ed) as [msgs|] eqn:Hm; [|done].
  destruct ((msg_idx <? 0) || (len msgs <=? msg_idx)); [done|].
  unfold atomically.
  destruct (signals_of (heap ed) msgs msg_idx) as [[sl sigs]|] eqn:Es;
    [|done].
  simpl. destruct ((sig_idx <? 0) || (len sigs - 1 <=? sig_idx)); [done|].
  destruct (py_swap sigs (sig_idx + 1) sig_idx) as [sigs'|]; [|done]. simpl.
  by apply (apart_set_sig_list h0 ed msgs msg_idx sl sigs).
Qed.

Lemma alloc_signal_vals_ext vs h : heap_ext h (alloc_signal_vals vs h).2.
Proof. apply alloc_signal_vals_spec. Qed.

(** A dictionary built from a value holds a list of signals of its own. *)
Lemma alloc_message_val_fresh v h :
  ∃ m, msg_dicts (alloc_message_val v h).2 !! (alloc_message_val v h).1
       = Some m
       ∧ (length (sig_lists h) ≤ msg_signals m)%nat.
Proof.
  unfold alloc_message_val.
  pose proof (alloc_signal_vals_ext (msg_signals v) h) as He.
  destruct (alloc_signal_vals (msg_signals v) h) as [sigs h1].
  apply heap_ext_sig_lists_length in He. simpl in *.
  eexists. split; [by apply list_lookup_middle|]. simpl. lia.
Qed.

Lemma deep_copy_message_fresh l h l' h' :
  deep_copy_message l h = Ok (l', h') →
  heap_ext h h'
  ∧ ∃ m, msg_dicts h' !! l' = Some m
         ∧ (length (sig_lists h) ≤ msg_signals m)%nat.
Proof.
  unfold deep_copy_message.
  destruct (msg_dicts h !! l) as [m|]; [|done]. simpl.
  destruct (str_lists h !! msg_senders m) as [snd|]; [|done]. simpl.
  destruct (sig_lists h !! msg_signals m) as [sl|]; [|done]. simpl.
  set (h1 := Store (msg_dicts h) (sig_dicts h) (sig_lists h)
                   (str_lists h ++ [snd])).
  assert (heap_ext h h1) as He1 by apply (alloc_str_list_ext snd).
  destruct (mapM_store deep_copy_signal sl h1) as [[sl' h2]|] eqn:Ec; [|done].
  simpl.
  pose proof (mapM_store_ext deep_copy_signal deep_copy_signal_ext _ _ _ _ Ec)
    as He2.
  intros [= <- <-]. split.
  - trans h1; [done|]. trans h2; [done|].
    trans (alloc_sig_list sl' h2).2; [apply alloc_sig_list_ext|].
    apply (alloc_msg_ext
      (six_keys
         (msg_with_refs m (length (str_lists h)) (length (sig_lists h2))))).
  - eexists. split; [by apply list_lookup_middle|]. simpl.
    assert (heap_ext h h2) as He02 by by trans h1.
    apply heap_ext_sig_lists_length in He02. lia.
Qed.

Lemma deep_copy_messages_fresh ls h ls' h' :
  mapM_store deep_copy_message ls h = Ok (ls', h') →
  heap_ext h h'
  ∧ Forall (λ l', ∃ m, msg_dicts h' !! l' = Some m
                       ∧ (length (sig_lists h) ≤ msg_signals m)%nat) ls'.
Proof.
  revert h ls' h'. induction ls as [|l ls IH]; intros h ls' h'; simpl.
  - intros [= <- <-]. by split.
  - destruct (deep_copy_message l h) as [[l1 h1]|] eqn:E1; [|done]. simpl.
    destruct (mapM_store deep_copy_message ls h1) as [[ls1 h2]|] eqn:E2;
      [|done].
    simpl. intros [= <- <-].
    destruct (deep_copy_message_fresh _ _ _ _ E1) as (He1 & m & Hm & Hb).
    destruct (IH _ _ _ E2) as [He2 Hall].
    split; [by trans h1|]. constructor.
    + exists m. split; [|done].
      apply (prefix_lookup_Some (msg_dicts h1)); [done|apply He2].
    + eapply Forall_impl; [|exact Hall]. intros l' (m' & Hm' & Hb').
      exists m'. split; [done|].
      apply heap_ext_sig_lists_length in He1. lia.
Qed.

(** After [load_dbc_file] the working copy is apart from the store in
    which the snapshot was built. *)
Lemma load_dbc_file_apart parse_dbc path ed fs orig ed1 :
  load_dbc_file parse_dbc path ed fs = (Ok orig, ed1) →
  ∃ h0 database,
    original_data ed1 = Some orig
    ∧ view_messages h0 orig = Some database
    ∧ apart h0 ed1.
Proof.
  unfold load_dbc_file.
  destruct (fs !! path) as [text|]; [|done].
  destruct (negb (endswith (lower path) ".dbc")); [done|].
  destruct (parse_dbc text) as [database|]; [|done].
  pose proof (alloc_message_vals_spec (six_keys <$> database) (heap ed))
    as [_ Hv].
  destruct (alloc_message_vals (six_keys <$> database) (heap ed))
    as [orig' h1].
  simpl in Hv.
  destruct (mapM_store deep_copy_message orig' h1) as [[copies h2]|] eqn:Ec;
    [|done].
  intros [= <- <-].
  destruct (deep_copy_messages_fresh _ _ _ _ Ec) as [He Hall].
  exists h1, (six_keys <$> database).
  split; [done|]. split; [done|]. by split.
Qed.

(** An edit keeps the separation. *)
Lemma apply_edit_apart h0 ed e :
  apart h0 ed → apart h0 (apply_edit ed e).
Proof.
  intros Ha. destruct e; cbn [apply_edit];
    try (by auto using apart_delete_message, apart_duplicate_message,
           apart_move_message_up, apart_move_message_down,
           apart_delete_signal, apart_duplicate_signal,
           apart_move_signal_up, apart_move_signal_down).
  - pose proof (alloc_message_val_spec v (heap ed)) as [He _].
    pose proof (alloc_message_val_fresh v (heap ed)) as (m & Hm & Hb).
    destruct (alloc_message_val v (heap ed)) as [l h]. cbn [fst snd] in *. lazy beta iota.
    apply (apart_add_message h0 (set_heap h ed) l); [by apply apart_ext|].
    exists m. split; [done|].
    destruct Ha as [Ha _]. apply heap_ext_sig_lists_length in Ha. lia.
  - pose proof (alloc_message_val_spec v (heap ed)) as [He _].
    pose proof (alloc_message_val_fresh v (heap ed)) as (m & Hm & Hb).
    destruct (alloc_message_val v (heap ed)) as [l h]. cbn [fst snd] in *. lazy beta iota.
    apply (apart_update_message h0 (set_heap h ed) idx l);
      [by apply apart_ext|].
    exists m. split; [done|].
    destruct Ha as [Ha _]. apply heap_ext_sig_lists_length in Ha. lia.
  - pose proof (alloc_signal_val_spec v (heap ed)) as [He _].
    destruct (alloc_signal_val v (heap ed)) as [l h]. cbn [fst snd] in *. lazy beta iota.
    apply (apart_add_signal h0 (set_heap h ed) msg_idx l).
    by apply apart_ext.
  - pose proof (alloc_signal_val_spec v (heap ed)) as [He _].
    destruct (alloc_signal_val v (heap ed)) as [l h]. cbn [fst snd] in *. lazy beta iota.
    apply (apart_update_signal h0 (set_heap h ed) msg_idx sig_idx l).
    by apply apart_ext.
Qed.

Lemma atomically_original {A} ed (body : result (A * editor)) :
  (∀ a ed', body = Ok (a, ed') → original_data ed' = original_data ed) →
  original_data (atomically ed body).2 = original_data ed.
Proof. intros H. destruct body as [[a ed']|]; simpl; [by eapply H|done]. Qed.

(** No editing method assigns [_original_data]. *)
Lemma methods_keep_original ed :
  (∀ l, original_data (add_message l ed).2 = original_data ed)
  ∧ (∀ i l, original_data (update_message i l ed).2 = original_data ed)
  ∧ (∀ i, original_data (delete_message i ed).2 = original_data ed)
  ∧ (∀ i, original_data (duplicate_message i ed).2 = original_data ed)
  ∧ (∀ i, original_data (move_message_up i ed).2 = original_data ed)
  ∧ (∀ i, original_data (move_message_down i ed).2 = original_data ed)
  ∧ (∀ i l, original_data (add_signal i l ed).2 = original_data ed)
  ∧ (∀ i j l, original_data (update_signal i j l ed).2 = original_data ed)
  ∧ (∀ i j, original_data (delete_signal i j ed).2 = original_data ed)
  ∧ (∀ i j, original_data (duplicate_signal i j ed).2 = original_data ed)
  ∧ (∀ i j, original_data (move_signal_up i j ed).2 = original_data ed)
  ∧ (∀ i j, original_data (move_signal_down i j ed).2 = original_data ed).
Proof.
  repeat split; intros;
    unfold add_message, update_message, delete_message, duplicate_message,
      move_message_up, move_message_down, add_signal, update_signal,
      delete_signal, duplicate_signal, move_signal_up, move_signal_down;
    try done;
    destruct (modified_data ed); try done;
    try (case_match; [done|]);
    apply atomically_original; intros a ed';
    unfold mbind, result_bind;
    repeat (case_match; try done; simplify_eq; simpl in * );
    intros; by simplify_eq.
Qed.

Lemma apply_edit_original ed e :
  original_data (apply_edit ed e) = original_data ed.
Proof.
  destruct e; cbn [apply_edit];
    try destruct (alloc_message_val _ _) as [l h];
    try destruct (alloc_signal_val _ _) as [l h];
    match goal with
    | |- original_data (_ ?ed').2 = _ =>
        pose proof (methods_keep_original ed')
          as (H1 & H2 & H3 & H4 & H5 & H6 & H7 & H8 & H9 & H10 & H11 & H12)
    end;
    first [ by rewrite H1 | by rewrite H2 | by rewrite H3 | by rewrite H4
          | by rewrite H5 | by rewrite H6 | by rewrite H7 | by rewrite H8
          | by rewrite H9 | by rewrite H10 | by rewrite H11 | by rewrite H12 ].
Qed.

(** From a successful [load_dbc_file] on, whatever editing methods are
    called and in whatever order - adding, replacing, deleting,
    duplicating and moving messages and signals - the snapshot stays the
    document that was loaded: [_original_data] is the same list and reads
    as the same records. *)
Theorem edits_after_load_keep_snapshot
    (parse_dbc : string → result (list message_val))
    (path : string) (ed : editor) (fs : files) (orig : list loc)
    (ed1 : editor) :
  load_dbc_file parse_dbc path ed fs = (Ok orig, ed1) →
  ∃ database,
    view_messages (heap ed1) orig = Some database
    ∧ ∀ edits : list edit,
        original_data (foldl apply_edit ed1 edits) = Some orig
        ∧ view_messages (heap (foldl apply_edit ed1 edits)) orig
          = Some database.
Proof.
  intros (h0 & database & Ho & Hv & Ha)%load_dbc_file_apart.
  exists database. split; [apply (view_messages_ext h0); [apply Ha|done]|].
  intros edits.
  assert (original_data (foldl apply_edit ed1 edits) = Some orig
          ∧ apart h0 (foldl apply_edit ed1 edits)) as [Ho' Ha'].
  { revert ed1 Ho Ha. induction edits as [|e edits IH]; intros ed1 Ho Ha;
      [done|].
    simpl. apply IH; [by rewrite apply_edit_original|].
    by apply apply_edit_apart. }
  split; [done|]. apply (view_messages_ext h0); [apply Ha'|done].
Qed.

Lemma edits_after_load_keep_snapshot_witness :
  ∃ database,
    view_messages (heap Demo.loaded_one) [0%nat] = Some database
    ∧ ∀ edits : list edit,
        original_data (foldl apply_edit Demo.loaded_one edits)
        = Some [0%nat]
        ∧ view_messages (heap (foldl apply_edit Demo.loaded_one edits))
            [0%nat]
          = Some database.
Proof.
  apply (edits_after_load_keep_snapshot Demo.parse "one.dbc" init Demo.disk
           [0%nat] Demo.loaded_one).
  vm_compute. reflexivity.
Defined.


(** ** A new document, and the backup file at shutdown *)

Lemma atomically_modified {A} ed (body : result (A * editor)) :
  is_Some (modified_data ed) →
  (∀ a ed', body = Ok (a, ed') → is_Some (modified_data ed')) →
  is_Some (modified_data (atomically ed body).2).
Proof. intros H0 H. destruct body as [[a ed']|]; simpl; [by eapply H|done]. Qed.

(** No editing method closes the working copy. *)
Lemma methods_keep_modified ed :
  is_Some (modified_data ed) →
  (∀ l, is_Some (modified_data (add_message l ed).2))
  ∧ (∀ i l, is_Some (modified_data (update_message i l ed).2))
  ∧ (∀ i, is_Some (modified_data (delete_message i ed).2))
  ∧ (∀ i, is_Some (modified_data (duplicate_message i ed).2))
  ∧ (∀ i, is_Some (modified_data (move_message_up i ed).2))
  ∧ (∀ i, is_Some (modified_data (move_message_down i ed).2))
  ∧ (∀ i l, is_Some (modified_data (add_signal i l ed).2))
  ∧ (∀ i j l, is_Some (modified_data (update_signal i j l ed).2))
  ∧ (∀ i j, is_Some (modified_data (delete_signal i j ed).2))
  ∧ (∀ i j, is_Some (modified_data (duplicate_signal i j ed).2))
  ∧ (∀ i j, is_Some (modified_data (move_signal_up i j ed).2))
  ∧ (∀ i j, is_Some (modified_data (move_signal_down i j ed).2)).
Proof.
  intros [msgs Hm].
  repeat split; intros;
    unfold add_message, update_message, delete_message, duplicate_message,
      move_message_up, move_message_down, add_signal, update_signal,
      delete_signal, duplicate_signal, move_signal_up, move_signal_down;
    rewrite Hm; try done;
    try (case_match; [by exists msgs|]);
    (apply atomically_modified; [by exists msgs|]); intros a ed';
    unfold mbind, result_bind;
    repeat (case_match; try done; simplify_eq; simpl in * );
    intros; by simplify_eq.
Qed.

Lemma apply_edit_modified ed e :
  is_Some (modified_data ed) → is_Some (modified_data (apply_edit ed e)).
Proof.
  intros Hm.
  destruct e; cbn [apply_edit];
    try destruct (alloc_message_val _ _) as [l h];
    try destruct (alloc_signal_val _ _) as [l h];
    match goal with
    | |- is_Some (modified_data (_ ?ed').2) =>
        destruct (methods_keep_modified ed' Hm)
          as (H1 & H2 & H3 & H4 & H5 & H6 & H7 & H8 & H9 & H10 & H11 & H12)
    end;
    first [ apply H1 | apply H2 | apply H3 | apply H4 | apply H5 | apply H6
          | apply H7 | apply H8 | apply H9 | apply H10 | apply H11
          | apply H12 ].
Qed.

(** After [create_new_dbc] the snapshot is the empty document and stays so
    under every sequence of editing calls: [has_changes] then answers
    whether the working copy holds a message at all.  The path of a file
    that was open before is forgotten. *)
Theorem new_document_changes (ed : editor) (edits : list edit) :
  file_path (create_new_dbc ed).2 = None
  ∧ ∃ work,
      original_data (foldl apply_edit (create_new_dbc ed).2 edits) = Some []
      ∧ modified_data (foldl apply_edit (create_new_dbc ed).2 edits)
        = Some work
      ∧ has_changes (foldl apply_edit (create_new_dbc ed).2 edits)
        = bool_decide (work ≠ []).
Proof.
  split; [done|].
  assert (original_data (foldl apply_edit (create_new_dbc ed).2 edits)
          = Some []
          ∧ is_Some (modified_data
                       (foldl apply_edit (create_new_dbc ed).2 edits)))
    as [Ho [work Hw]].
  { generalize (create_new_dbc ed).2
      (eq_refl : original_data (create_new_dbc ed).2 = Some [])
      (ltac:(by eexists) : is_Some (modified_data (create_new_dbc ed).2)).
    induction edits as [|e edits IH]; intros ed1 Ho Hw; [done|].
    simpl. apply IH; [by rewrite apply_edit_original|].
    by apply apply_edit_modified. }
  exists work. split; [done|]. split; [done|].
  unfold has_changes. rewrite Ho, Hw.
  destruct work; [done|]. by rewrite bool_decide_eq_true_2.
Qed.

(** [cleanup_all_backups] touches no file but the one at
    [file_path + '.backup']: the document itself and every other file stay
    as they are.  The backup is removed when [os.remove] works; when it
    fails the failure is swallowed and the disk is as before.  A second
    call that meets the same disk changes nothing more.  Without a path
    the call does nothing. *)
Theorem cleanup_removes_only_backup (remove_fault : string → bool)
    (ed : editor) (fs : files) :
  (∀ path, file_path ed = Some path → path ≠ "" →
     cleanup_all_backups remove_fault ed fs !! (path +:+ ".backup")
     = (if remove_fault (path +:+ ".backup")
        then fs !! (path +:+ ".backup") else None)
     ∧ cleanup_all_backups remove_fault ed fs !! path = fs !! path
     ∧ (∀ p, p ≠ path +:+ ".backup" →
          cleanup_all_backups remove_fault ed fs !! p = fs !! p)
     ∧ (remove_fault (path +:+ ".backup") = true →
        cleanup_all_backups remove_fault ed fs = fs))
  ∧ (file_path ed = None ∨ file_path ed = Some "" →
     cleanup_all_backups remove_fault ed fs = fs)
  ∧ cleanup_all_backups remove_fault ed
      (cleanup_all_backups remove_fault ed fs)
    = cleanup_all_backups remove_fault ed fs.
Proof.
  unfold cleanup_all_backups.
  split; [|split].
  - intros path -> Hne. rewrite bool_decide_eq_false_2 by done.
    split; [|split; [|split]].
    + rewrite cleanup_backup_file_lookup.
      by rewrite bool_decide_eq_true_2.
    + rewrite cleanup_backup_file_lookup.
      rewrite bool_decide_eq_false_2; [done|].
      intros H. by apply (backup_path_ne path).
    + intros p Hp. rewrite cleanup_backup_file_lookup.
      by rewrite bool_decide_eq_false_2.
    + intros Hrf. unfold cleanup_backup_file. rewrite Hrf.
      by destruct (fs !! (path +:+ ".backup")).
  - by intros [->| ->].
  - destruct (file_path ed) as [p|]; [|done].
    case_bool_decide; [done|]. unfold cleanup_backup_file.
    destruct (fs !! (p +:+ ".backup")) eqn:E.
    + destruct (remove_fault (p +:+ ".backup")) eqn:Hrf.
      * by rewrite E.
      * by rewrite lookup_delete_eq.
    + by rewrite E.
Qed.

Lemma cleanup_removes_only_backup_witness :
  cleanup_all_backups Demo.never Demo.loaded_one
    (<["one.dbc.backup" := "old"]> Demo.disk) !! "one.dbc.backup" = None
  ∧ cleanup_all_backups Demo.always Demo.loaded_one
      (<["one.dbc.backup" := "old"]> Demo.disk)
    = <["one.dbc.backup" := "old"]> Demo.disk.
Proof.
  split.
  - destruct (cleanup_removes_only_backup Demo.never Demo.loaded_one
                (<["one.dbc.backup" := "old"]> Demo.disk)) as [H _].
    destruct (H "one.dbc") as (Hb & _).
    + reflexivity.
    + discriminate.
    + exact Hb.
  - destruct (cleanup_removes_only_backup Demo.always Demo.loaded_one
                (<["one.dbc.backup" := "old"]> Demo.disk)) as [H _].
    destruct (H "one.dbc") as (_ & _ & _ & Hsame).
    + reflexivity.
    + discriminate.
    + apply Hsame. reflexivity.
Defined.

Section Shutdown.

Context {can_signal can_message : Type}.
Context (new_signal : signal_val → result can_signal).
Context (new_message :
  message_obj → list string → list can_signal → bool → result can_message).
Context (as_dbc_string : list can_message → result string).
Context (copy_fault : string → option (option nat)).
Context (open_fault : string → bool).
Context (write_fault : string → option nat).
Context (remove_fault : string → bool).

Local Abbreviation save :=
  (save_dbc_file can_signal can_message new_signal new_message
                 as_dbc_string copy_fault open_fault write_fault
                 remove_fault).
Local Abbreviation rebuild :=
  (rebuild_database can_signal can_message new_signal new_message).

(** A [save_dbc_file()] over the open file that gets as far as the
    serializer (the backup copy is made, the library objects are built,
    the file opens for writing) and fails there leaves the file empty and
    its old text in the backup file.  A call of [cleanup_all_backups]
    after it removes that backup, and the old text is then in neither
    file; only if [os.remove] fails does the backup, and with it the old
    text, survive the call. *)
Theorem cleanup_after_failed_save ed fs path text database e :
  file_path ed = Some path → path ≠ "" → fs !! path = Some text →
  copy_fault path = None →
  rebuild ed = Ok database →
  open_fault path = false →
  as_dbc_string database = Raise e →
  ∃ fs',
    save None ed fs
    = (Raise (dbc_error ("Failed to save DBC: " +:+ exn_str e)), ed, fs')
    ∧ fs' !! (path +:+ ".backup") = Some text
    ∧ fs' !! path = Some ""
    ∧ cleanup_all_backups remove_fault ed fs'
      = (if remove_fault (path +:+ ".backup") then fs'
         else <[path := ""]> (delete (path +:+ ".backup") fs)).
Proof.
  intros Hpath Hne Hfs Hcp Hdb Hop Hser.
  pose proof (backup_path_ne path) as Hb.
  exists (<[path := ""]> (<[path +:+ ".backup" := text]> fs)).
  split; [|split; [|split]].
  - unfold save_dbc_file, target_path, backup_copy. rewrite Hpath.
    rewrite bool_decide_eq_false_2 by done.
    by rewrite Hfs, Hcp, Hdb, Hop, Hser.
  - rewrite lookup_insert_ne by done. apply lookup_insert_eq.
  - apply lookup_insert_eq.
  - unfold cleanup_all_backups, cleanup_backup_file. rewrite Hpath.
    rewrite bool_decide_eq_false_2 by done.
    rewrite lookup_insert_ne by done. rewrite lookup_insert_eq.
    destruct (remove_fault _); [done|].
    rewrite delete_insert_ne by done. by rewrite delete_insert_eq.
Qed.

End Shutdown.

Lemma cleanup_after_failed_save_witness :
  ∃ fs',
    Demo.save_failing None Demo.loaded_one Demo.disk
    = (Raise (dbc_error ("Failed to save DBC: "
                         +:+ exn_str (Exn LibraryError "cannot serialize"))),
       Demo.loaded_one, fs')
    ∧ fs' !! ("one.dbc" +:+ ".backup") = Some "one"
    ∧ fs' !! "one.dbc" = Some ""
    ∧ cleanup_all_backups Demo.never Demo.loaded_one fs'
      = <["one.dbc" := ""]> (delete ("one.dbc" +:+ ".backup") Demo.disk).
Proof.
  apply (cleanup_after_failed_save Demo.new_signal Demo.new_message
           Demo.failing_as_dbc_string Demo.no_copy_fault Demo.never
           Demo.no_fault Demo.never
           Demo.loaded_one Demo.disk "one.dbc" "one"
           [Demo.msg_M] (Exn LibraryError "cannot serialize")).
  - reflexivity.
  - discriminate.
  - reflexivity.
  - reflexivity.
  - vm_compute. reflexivity.
  - reflexivity.
  - reflexivity.
Defined.

(** When [os.remove] fails at shutdown the old text is still in the backup
    file. *)
Example failed_cleanup_keeps_backup :
  cleanup_all_backups Demo.always Demo.loaded_one
    (Demo.save_failing None Demo.loaded_one Demo.disk).2 !! "one.dbc.backup"
  = Some "one".
Proof. vm_compute. reflexivity. Qed.

(** ** The summary by name *)

(** *** Dictionaries keyed by name *)

Lemma dict_get_Some_elem {V} (k : string) (d : list (string * V)) (v : V) :
  dict_get k d = Some v → (k, v) ∈ d.
Proof.
  induction d as [|[k' v'] d IH]; simpl; [done|].
  destruct (decide (k = k')) as [->|_].
  - intros [= ->]. left.
  - intros H. right. by apply IH.
Qed.

Lemma dict_get_is_Some {V} (k : string) (d : list (string * V)) :
  is_Some (dict_get k d) ↔ k ∈ d.*1.
Proof.
  induction d as [|[k' v'] d IH].
  - split; [by intros [? ?]|by intros ?%elem_of_nil].
  - rewrite fmap_cons, elem_of_cons. cbn [dict_get fst].
    destruct (decide (k = k')) as [->|Hne].
    + split; [by left|by eexists].
    + rewrite IH. split; [by right|]. by intros [?|?].
Qed.

Lemma dict_has_true {V} (k : string) (d : list (string * V)) :
  dict_has k d = true ↔ k ∈ d.*1.
Proof. unfold dict_has. rewrite bool_decide_eq_true. apply dict_get_is_Some. Qed.

Lemma dict_has_false {V} (k : string) (d : list (string * V)) :
  dict_has k d = false ↔ k ∉ d.*1.
Proof.
  unfold dict_has. rewrite bool_decide_eq_false. by rewrite dict_get_is_Some.
Qed.

Lemma dict_set_elem {V} (k : string) (v : V) d x :
  x ∈ dict_set k v d → x = (k, v) ∨ x ∈ d.
Proof.
  induction d as [|[k' v'] d IH]; cbn [dict_set].
  - intros ->%list_elem_of_singleton. by left.
  - destruct (decide (k = k')) as [->|_]; rewrite !elem_of_cons.
    + intros [->|Hx]; [by left|right; by right].
    + intros [->|Hx]; [right; by left|].
      destruct (IH Hx) as [->|Hd]; [by left|right; by right].
Qed.

Lemma dict_set_keys {V} (k : string) (v : V) d n :
  n ∈ (dict_set k v d).*1 ↔ n = k ∨ n ∈ d.*1.
Proof.
  induction d as [|[k' v'] d IH]; cbn [dict_set].
  - rewrite fmap_cons, !fmap_nil, list_elem_of_singleton, elem_of_nil.
    cbn [fst]. tauto.
  - destruct (decide (k = k')) as [->|_]; rewrite !fmap_cons, !elem_of_cons;
      cbn [fst]; [tauto|]. rewrite IH. tauto.
Qed.

Lemma dict_set_NoDup {V} (k : string) (v : V) d :
  NoDup d.*1 → NoDup (dict_set k v d).*1.
Proof.
  induction d as [|[k' v'] d IH]; cbn [dict_set].
  - intros _. apply NoDup_singleton.
  - destruct (decide (k = k')) as [->|Hne]; rewrite !fmap_cons; cbn [fst];
      [done|].
    intros [Hk Hd]%list.NoDup_cons. apply list.NoDup_cons. split; [|by apply IH].
    rewrite dict_set_keys. intros [?|?]; [by subst|done].
Qed.

(** The comprehension [{x['name']: x for x in l}]: its keys are the names
    that occur, each once, and each of its items is an item of [l]. *)
Lemma dict_of_list_spec {V} (kvs : list (string * V)) :
  NoDup (dict_of_list kvs).*1
  ∧ (∀ n, n ∈ (dict_of_list kvs).*1 ↔ n ∈ kvs.*1)
  ∧ (∀ x, x ∈ dict_of_list kvs → x ∈ kvs).
Proof.
  unfold dict_of_list.
  assert (∀ d : list (string * V), NoDup d.*1 →
    NoDup (foldl (λ d kv, dict_set kv.1 kv.2 d) d kvs).*1
    ∧ (∀ n, n ∈ (foldl (λ d kv, dict_set kv.1 kv.2 d) d kvs).*1
            ↔ n ∈ d.*1 ∨ n ∈ kvs.*1)
    ∧ (∀ x, x ∈ foldl (λ d kv, dict_set kv.1 kv.2 d) d kvs
            → x ∈ d ∨ x ∈ kvs)) as H.
  { induction kvs as [|[k v] kvs IH]; intros d Hd; cbn [foldl fst snd].
    - split; [done|]. split; [|by left]. intros n. rewrite fmap_nil.
      rewrite elem_of_nil. tauto.
    - destruct (IH (dict_set k v d) (dict_set_NoDup k v d Hd))
        as (Hn & Hk & He).
      split; [done|]. split.
      + intros n. rewrite Hk, dict_set_keys, fmap_cons, elem_of_cons.
        cbn [fst]. tauto.
      + intros x [Hx|Hx]%He; [|right; by right].
        apply dict_set_elem in Hx as [->|Hx]; [right; left|by left]. }
  destruct (H [] (NoDup_nil_2 : NoDup ([] : list (string * V)).*1))
    as (Hn & Hk & He).
  split; [done|]. split.
  - intros n. rewrite Hk, fmap_nil, elem_of_nil. tauto.
  - intros x [Hx|Hx]%He; [by apply elem_of_nil in Hx|done].
Qed.

(** *** The two documents, keyed *)

Lemma messages_by_name_views h msgs vs :
  view_messages h msgs = Some vs →
  ∃ named,
    messages_by_name h msgs = Ok (dict_of_list named)
    ∧ named.*1 = msg_name <$> vs
    ∧ ∀ x, x ∈ named →
        ∃ v, v ∈ vs ∧ view_message h x.2 = Some v ∧ x.1 = msg_name v.
Proof.
  unfold view_messages, messages_by_name. intros H%mapM_Some.
  assert (∃ named,
    Forall2 (λ l kv, (m ← msg_dicts h !! l; Some (msg_name m, l)) = Some kv)
      msgs named
    ∧ named.*1 = msg_name <$> vs
    ∧ ∀ x, x ∈ named →
        ∃ v, v ∈ vs ∧ view_message h x.2 = Some v ∧ x.1 = msg_name v)
    as (named & Hf & Hk & He).
  { induction H as [|l v msgs vs Hv _ (named & Hf & Hk & He)].
    - exists []. split; [constructor|]. split; [done|].
      by intros x ?%elem_of_nil.
    - pose proof Hv as (m & snd & sl & sigs & Em & _ & _ & _ & ->)
        %view_message_inv.
      exists ((msg_name m, l) :: named). split; [|split].
      + constructor; [by rewrite Em|done].
      + rewrite !fmap_cons. cbn [fst msg_name msg_with_refs]. by rewrite Hk.
      + intros x [->|Hx]%elem_of_cons.
        * eexists. split; [left|]. by split.
        * destruct (He x Hx) as (v & Hin & Hview & Hname).
          exists v. split; [by right|done]. }
  apply mapM_Some in Hf. rewrite Hf. simpl. by exists named.
Qed.

Lemma signals_by_name_views h (m : message_obj) sl svs :
  sig_lists h !! msg_signals m = Some sl → view_signals h sl = Some svs →
  ∃ named,
    signals_by_name h m = Ok (dict_of_list named)
    ∧ ∀ x, x ∈ named → is_Some (view_signal h x.2).
Proof.
  unfold view_signals, signals_by_name. intros -> H%mapM_Some. simpl.
  assert (∃ named,
    Forall2 (λ l kv, (s ← sig_dicts h !! l; Some (sig_name s, l)) = Some kv)
      sl named
    ∧ ∀ x, x ∈ named → is_Some (view_signal h x.2)) as (named & Hf & He).
  { induction H as [|l v sl svs Hv _ (named & Hf & He)].
    - exists []. split; [constructor|]. by intros x ?%elem_of_nil.
    - pose proof Hv as Hv'. unfold view_signal in Hv'.
      apply bind_Some in Hv' as (s & Es & _).
      exists ((sig_name s, l) :: named). split.
      + constructor; [by rewrite Es|done].
      + intros x [->|Hx]%elem_of_cons; [by eexists|by apply He]. }
  apply mapM_Some in Hf. rewrite Hf. simpl. by exists named.
Qed.

(** *** The loop over the messages of the working copy *)

Lemma signal_changes_ok h n ol ml acc :
  is_Some (view_message h ol) → is_Some (view_message h ml) →
  filed acc →
  ∃ c, signal_changes h n ol ml acc = Ok c
       ∧ added_messages c = added_messages acc
       ∧ deleted_messages c = deleted_messages acc
       ∧ modified_messages c = modified_messages acc ++ [n]
       ∧ filed c.
Proof.
  intros [vo (om & sndo & slo & sigso & Eo & _ & Eslo & Eso & _)
            %view_message_inv]
         [vm (mm & sndm & slm & sigsm & Em & _ & Eslm & Esm & _)
            %view_message_inv] Hacc.
  unfold signal_changes. rewrite Eo, Em. simpl.
  destruct (signals_by_name_views h om slo sigso Eslo Eso)
    as (no & -> & Hno).
  destruct (signals_by_name_views h mm slm sigsm Eslm Esm)
    as (nm & -> & Hnm).
  simpl.
  pose proof (dict_of_list_spec no) as (_ & _ & Heo).
  pose proof (dict_of_list_spec nm) as (_ & _ & Hem).
  set (orig_signals := dict_of_list no) in *.
  assert (∀ (l : list (string * loc)) (acc0 : list string),
    (∀ x, x ∈ l → is_Some (view_signal h x.2)) →
    ∃ r, foldl (λ (racc : result (list string)) (kv : string * loc),
            acc' ← racc;
            match dict_get kv.1 orig_signals with
            | Some os =>
                ne ← signal_ne h kv.2 os;
                Ok (if ne : bool then acc' ++ [kv.1] else acc')
            | None => Ok acc'
            end) (Ok acc0) l = Ok r) as Hfold.
  { induction l as [|kv l IH]; intros acc0 Hl; [by eexists|].
    simpl.
    destruct (dict_get kv.1 orig_signals) as [os|] eqn:Eg.
    - apply dict_get_Some_elem, Heo, Hno in Eg as [vos Evos].
      destruct (Hl kv) as [vkv Evkv]; [left|].
      unfold signal_ne. simpl in *. rewrite Evkv, Evos. simpl.
      apply IH. intros x Hx. apply Hl. by right.
    - apply IH. intros x Hx. apply Hl. by right. }
  destruct (Hfold (dict_of_list nm) []) as [r ->].
  { intros x Hx. by apply Hnm, Hem. }
  simpl. eexists. split; [done|]. split; [done|]. split; [done|]. split; [done|].
  intros q. simpl. rewrite !elem_of_app.
  assert (n ∈ modified_messages acc ++ [n]) as Hn
    by (apply elem_of_app; right; left).
  intros [[Hq|Hq]|[[Hq|Hq]|[Hq|Hq]]];
    try (apply list_elem_of_fmap in Hq as (s & -> & _); by exists n, s);
    (destruct (Hacc q) as (m & s & -> & Hm);
      [rewrite !elem_of_app; by auto|]);
    exists m, s; (split; [done|]); apply elem_of_app; by left.
Qed.

Lemma summary_loop_ok h orig mod_ acc :
  (∀ x, x ∈ orig → is_Some (view_message h x.2)) →
  (∀ x, x ∈ mod_ → is_Some (view_message h x.2)) →
  filed acc →
  ∃ c, summary_loop h orig mod_ acc = Ok c
       ∧ added_messages c = added_messages acc
       ∧ deleted_messages c = deleted_messages acc
       ∧ (∀ n, n ∈ modified_messages c →
            n ∈ modified_messages acc ∨ (n ∈ mod_.*1 ∧ n ∈ orig.*1))
       ∧ filed c.
Proof.
  intros Ho. unfold summary_loop. revert acc.
  induction mod_ as [|kv mod_ IH]; intros acc Hm Hacc.
  - exists acc. simpl. split; [done|]. split; [done|]. split; [done|].
    split; [by left|done].
  - simpl. destruct (dict_get kv.1 orig) as [orig_msg|] eqn:Eg.
    + pose proof (dict_get_Some_elem _ _ _ Eg) as Hin.
      destruct (Ho _ Hin) as [vo Evo]. simpl in Evo.
      destruct (Hm kv) as [vk Evk]; [left|].
      unfold message_ne at 2. rewrite Evk, Evo. simpl.
      assert (kv.1 ∈ orig.*1) as Hko.
      { apply list_elem_of_fmap. by exists (kv.1, orig_msg). }
      destruct (bool_decide (vk ≠ vo)).
      * destruct (signal_changes_ok h kv.1 orig_msg kv.2 acc)
          as (c1 & -> & Ha1 & Hd1 & Hm1 & Hf1); [by eexists..|done|].
        destruct (IH c1) as (c & Ec & Ha & Hd & Hmm & Hf); [|done|].
        { intros x Hx. apply Hm. by right. }
        exists c. split; [done|]. rewrite Ha, Hd. split; [done|].
        split; [done|]. split; [|done].
        intros n [Hn|[Hn1 Hn2]]%Hmm.
        -- rewrite Hm1 in Hn. apply elem_of_app in Hn as [Hn|Hn]; [by left|].
           apply list_elem_of_singleton in Hn as ->. right.
           split; [left|done].
        -- right. split; [by right|done].
      * destruct (IH acc) as (c & Ec & Ha & Hd & Hmm & Hf); [|done|].
        { intros x Hx. apply Hm. by right. }
        exists c. split; [done|]. split; [done|]. split; [done|].
        split; [|done].
        intros n [Hn|[Hn1 Hn2]]%Hmm; [by left|]. right.
        split; [by right|done].
    + destruct (IH acc) as (c & Ec & Ha & Hd & Hmm & Hf); [|done|].
      { intros x Hx. apply Hm. by right. }
      exists c. split; [done|]. split; [done|]. split; [done|].
      split; [|done].
      intros n [Hn|[Hn1 Hn2]]%Hmm; [by left|]. right.
      split; [by right|done].
Qed.

(** [get_changes_summary] when something has changed and both documents
    can be read: it returns the six lists.  The added messages are the
    names of the working copy that the snapshot does not have, the deleted
    ones the names of the snapshot that the working copy does not have,
    each name once; a message listed as modified has its name in both; and
    every entry of the three lists of signals is [message.signal] for a
    message listed as modified. *)
Theorem summary_by_name (ed : editor) (orig work : list loc)
    (vo vw : list message_val) :
  original_data ed = Some orig → modified_data ed = Some work →
  view_messages (heap ed) orig = Some vo →
  view_messages (heap ed) work = Some vw →
  has_changes ed = true →
  ∃ c, get_changes_summary ed = Summary c
    ∧ (∀ n, n ∈ added_messages c
            ↔ n ∈ msg_name <$> vw ∧ n ∉ msg_name <$> vo)
    ∧ (∀ n, n ∈ deleted_messages c
            ↔ n ∈ msg_name <$> vo ∧ n ∉ msg_name <$> vw)
    ∧ NoDup (added_messages c) ∧ NoDup (deleted_messages c)
    ∧ (∀ n, n ∈ modified_messages c
            → n ∈ msg_name <$> vo ∧ n ∈ msg_name <$> vw)
    ∧ filed c.
Proof.
  intros Ho Hw Hvo Hvw Hch. unfold get_changes_summary.
  rewrite Hch, Ho, Hw. cbn [negb mbind result_bind].
  destruct (messages_by_name_views _ _ _ Hvo) as (no & -> & Hko & Heo).
  destruct (messages_by_name_views _ _ _ Hvw) as (nw & -> & Hkw & Hew).
  cbn [mbind result_bind].
  pose proof (dict_of_list_spec no) as (Hndo & Hkeyo & Hino).
  pose proof (dict_of_list_spec nw) as (Hndw & Hkeyw & Hinw).
  destruct (summary_loop_ok (heap ed) (dict_of_list no) (dict_of_list nw)
    (Changes
       (filter (λ n, dict_has n (dict_of_list no) = false)
          (dict_of_list nw).*1)
       (filter (λ n, dict_has n (dict_of_list nw) = false)
          (dict_of_list no).*1) [] [] [] []))
    as (c & -> & Ha & Hd & Hm & Hf).
  { intros x Hx. destruct (Heo x (Hino x Hx)) as (v & _ & Hv & _).
    by eexists. }
  { intros x Hx. destruct (Hew x (Hinw x Hx)) as (v & _ & Hv & _).
    by eexists. }
  { by intros q ?%elem_of_nil. }
  exists c. split; [done|]. rewrite Ha, Hd. cbn [added_messages deleted_messages].
  split; [|split; [|split; [|split; [|split]]]].
  - intros n. rewrite list_elem_of_filter, dict_has_false.
    rewrite Hkeyw, Hkeyo, Hkw, Hko. tauto.
  - intros n. rewrite list_elem_of_filter, dict_has_false.
    rewrite Hkeyw, Hkeyo, Hkw, Hko. tauto.
  - by apply list.NoDup_filter.
  - by apply list.NoDup_filter.
  - intros n [Hn|[Hn1 Hn2]]%Hm; [by apply elem_of_nil in Hn|].
    apply Hkeyw in Hn1. apply Hkeyo in Hn2. by rewrite <- Hko, <- Hkw.
  - done.
Qed.

Lemma summary_by_name_witness :
  ∃ c, get_changes_summary (delete_message 1 Demo.loaded_two).2 = Summary c
    ∧ (∀ n, n ∈ added_messages c
            ↔ n ∈ msg_name <$> [Demo.msg_M]
              ∧ n ∉ msg_name <$> [Demo.msg_M; Demo.msg_N])
    ∧ (∀ n, n ∈ deleted_messages c
            ↔ n ∈ msg_name <$> [Demo.msg_M; Demo.msg_N]
              ∧ n ∉ msg_name <$> [Demo.msg_M])
    ∧ NoDup (added_messages c) ∧ NoDup (deleted_messages c)
    ∧ (∀ n, n ∈ modified_messages c
            → n ∈ msg_name <$> [Demo.msg_M; Demo.msg_N]
              ∧ n ∈ msg_name <$> [Demo.msg_M])
    ∧ filed c.
Proof.
  apply (summary_by_name (delete_message 1 Demo.loaded_two).2
           [0%nat; 1%nat] [2%nat]).
  - reflexivity.
  - reflexivity.
  - vm_compute. reflexivity.
  - vm_compute. reflexivity.
  - vm_compute. reflexivity.
Defined.

Lemma NoDup_fmap_eq {A B} (f : A → B) (l : list A) (x y : A) :
  NoDup (f <$> l) → x ∈ l → y ∈ l → f x = f y → x = y.
Proof.
  induction l as [|a l IH]; [by intros _ ?%elem_of_nil|].
  rewrite fmap_cons. intros [Ha Hl]%list.NoDup_cons.
  intros [->|Hx]%elem_of_cons [->|Hy]%elem_of_cons Heq; [done|..].
  - destruct Ha. rewrite Heq. by apply list_elem_of_fmap_2.
  - destruct Ha. rewrite <- Heq. by apply list_elem_of_fmap_2.
  - by apply IH.
Qed.

Lemma summary_loop_same h orig mod_ acc :
  (∀ x, x ∈ mod_ →
     ∃ ol v, dict_get x.1 orig = Some ol
             ∧ view_message h x.2 = Some v ∧ view_message h ol = Some v) →
  summary_loop h orig mod_ acc = Ok acc.
Proof.
  unfold summary_loop. induction mod_ as [|kv mod_ IH]; intros Hm; [done|].
  cbn [foldl]. destruct (Hm kv) as (ol & v & Eg & Ek & Eo); [left|].
  cbn [mbind result_bind]. rewrite Eg. unfold message_ne at 2.
  rewrite Ek, Eo. cbn [deref mbind result_bind].
  rewrite bool_decide_eq_false_2 by (by intros ?).
  apply IH. intros x Hx. apply Hm. by right.
Qed.

(** A working copy that holds the records of the snapshot in another
    order, under names that are all different: whatever [has_changes]
    answers, the summary lists nothing. *)
Theorem reordering_not_in_summary (ed : editor) (orig work : list loc)
    (vo vw : list message_val) :
  original_data ed = Some orig → modified_data ed = Some work →
  view_messages (heap ed) orig = Some vo →
  view_messages (heap ed) work = Some vw →
  NoDup (msg_name <$> vo) → vw ≡ₚ vo →
  get_changes_summary ed
  = if has_changes ed then Summary (Changes [] [] [] [] [] [])
    else NoChanges.
Proof.
  intros Ho Hw Hvo Hvw Hnd Hperm. unfold get_changes_summary.
  destruct (has_changes ed); [|done].
  rewrite Ho, Hw. cbn [negb mbind result_bind].
  destruct (messages_by_name_views _ _ _ Hvo) as (no & -> & Hko & Heo).
  destruct (messages_by_name_views _ _ _ Hvw) as (nw & -> & Hkw & Hew).
  cbn [mbind result_bind].
  pose proof (dict_of_list_spec no) as (Hndo & Hkeyo & Hino).
  pose proof (dict_of_list_spec nw) as (Hndw & Hkeyw & Hinw).
  assert (∀ n, n ∈ msg_name <$> vw ↔ n ∈ msg_name <$> vo) as Hnames.
  { intros n. by rewrite Hperm. }
  rewrite summary_loop_same.
  - f_equal. f_equal.
    + apply elem_of_nil_inv. intros n.
      rewrite list_elem_of_filter, dict_has_false, Hkeyw, Hkeyo, Hkw, Hko.
      rewrite Hnames. tauto.
    + apply elem_of_nil_inv. intros n.
      rewrite list_elem_of_filter, dict_has_false, Hkeyw, Hkeyo, Hkw, Hko.
      rewrite Hnames. tauto.
  - intros x Hx. destruct (Hew x (Hinw x Hx)) as (v & Hin & Hv & Hname).
    assert (is_Some (dict_get x.1 (dict_of_list no))) as [ol Eg].
    { apply dict_get_is_Some, Hkeyo. rewrite Hko, <- Hnames, Hname.
      by apply list_elem_of_fmap_2. }
    pose proof (dict_get_Some_elem _ _ _ Eg) as Hol.
    destruct (Heo _ (Hino _ Hol)) as (v' & Hin' & Hv' & Hname').
    exists ol, v. split; [done|]. split; [done|].
    cbn [fst snd] in *. rewrite Hv'. f_equal.
    apply (NoDup_fmap_eq msg_name vo); [done|done|by rewrite <- Hperm|].
    by rewrite <- Hname', <- Hname.
Qed.

Lemma reordering_not_in_summary_witness :
  get_changes_summary (move_message_down 0 Demo.loaded_two).2
  = if has_changes (move_message_down 0 Demo.loaded_two).2
    then Summary (Changes [] [] [] [] [] [])
    else NoChanges.
Proof.
  apply (reordering_not_in_summary (move_message_down 0 Demo.loaded_two).2
           [0%nat; 1%nat] [3%nat; 2%nat]
           [Demo.msg_M; Demo.msg_N] [Demo.msg_N; Demo.msg_M]).
  - reflexivity.
  - reflexivity.
  - vm_compute. reflexivity.
  - vm_compute. reflexivity.
  - apply (bool_decide_unpack _). vm_compute. exact I.
  - apply perm_swap.
Defined.


(** ** Comments read from the library *)

Lemma string_app_empty (s : string) : EmptyString +:+ s = s.
Proof. reflexivity. Qed.

Lemma replace_from_chars (s old : string) (skip : nat) (c : ascii) :
  c ∈ String.list_ascii_of_string (replace_from skip old EmptyString s) →
  c ∈ String.list_ascii_of_string s.
Proof.
  revert skip. induction s as [|a s IH]; intros skip; [done|].
  cbn [replace_from String.list_ascii_of_string]. destruct skip as [|skip].
  - destruct (startswith (String a s) old).
    + intros H. right. by eapply IH.
    + cbn [String.list_ascii_of_string]. intros [->|H]%elem_of_cons; [left|].
      right. by eapply IH.
  - intros H. right. by eapply IH.
Qed.

(** Taking occurrences out of a text adds no character to it. *)
Lemma replace_chars (s old : string) (c : ascii) :
  c ∈ String.list_ascii_of_string (replace s old EmptyString) →
  c ∈ String.list_ascii_of_string s.
Proof.
  destruct old as [|o old]; [|apply replace_from_chars].
  cbn [replace]. induction s as [|a s IH]; [done|].
  rewrite string_app_empty. cbn [String.list_ascii_of_string].
  rewrite !elem_of_cons.
  intros [->|H]; [by left|right; by apply IH].
Qed.

Lemma replace_char_gone (s : string) (c : ascii) :
  c ∉ String.list_ascii_of_string (replace s (String c EmptyString) EmptyString).
Proof.
  cbn [replace]. induction s as [|a s IH]; [by intros ?%elem_of_nil|].
  cbn [replace_from startswith String.length Nat.sub].
  destruct (Ascii.eqb_spec c a) as [->|Hne]; cbn [andb];
    [by rewrite string_app_empty|].
  cbn [String.list_ascii_of_string]. rewrite elem_of_cons. by intros [?|?].
Qed.

Lemma lstrip_chars (chars : list ascii) (s : string) (c : ascii) :
  c ∈ String.list_ascii_of_string (lstrip chars s) → c ∈ String.list_ascii_of_string s.
Proof.
  induction s as [|a s IH]; [done|]. cbn [lstrip].
  case_bool_decide; [|done]. intros Hc. right. by apply IH.
Qed.

Lemma rstrip_chars (chars : list ascii) (s : string) (c : ascii) :
  c ∈ String.list_ascii_of_string (rstrip chars s) → c ∈ String.list_ascii_of_string s.
Proof.
  induction s as [|a s IH]; [done|]. cbn [rstrip String.list_ascii_of_string].
  destruct (rstrip chars s) as [|b r] eqn:Er.
  - case_bool_decide; [by intros ?%elem_of_nil|].
    intros ->%list_elem_of_singleton. left.
  - cbn [String.list_ascii_of_string] in *. rewrite !elem_of_cons.
    intros [->|Hc]; [by left|]. right. apply IH. by apply elem_of_cons.
Qed.

Lemma strip_chars (chars : list ascii) (s : string) (c : ascii) :
  c ∈ String.list_ascii_of_string (strip chars s) → c ∈ String.list_ascii_of_string s.
Proof. intros H%rstrip_chars. by apply lstrip_chars in H. Qed.

(** A text that does not hold the first character of [old] holds no
    occurrence of it. *)
Lemma replace_absent (s : string) (o : ascii) (old new : string) :
  o ∉ String.list_ascii_of_string s → replace s (String o old) new = s.
Proof.
  cbn [replace]. induction s as [|a s IH]; [done|].
  cbn [String.list_ascii_of_string replace_from startswith].
  rewrite elem_of_cons. intros Hn.
  destruct (Ascii.eqb_spec o a) as [->|Hne]; [destruct Hn; by left|].
  cbn [andb]. rewrite IH; [done|]. intros ?. apply Hn. by right.
Qed.

Lemma strip_absent (chars : list ascii) (s : string) :
  (∀ c, c ∈ String.list_ascii_of_string s → c ∉ chars) → strip chars s = s.
Proof.
  intros Hs. unfold strip.
  assert (lstrip chars s = s) as ->.
  { destruct s as [|a s]; [done|]. cbn [lstrip].
    rewrite bool_decide_eq_false_2; [done|]. apply Hs. left. }
  induction s as [|a s IH]; [done|]. cbn [rstrip].
  rewrite IH by (intros c Hc; apply Hs; by right).
  destruct s; [|done].
  rewrite bool_decide_eq_false_2; [done|]. apply Hs. left.
Qed.

(** The text taken from a dictionary holds no closing brace. *)
Theorem clean_leaves_no_brace (value : string) :
  "}"%char ∉ String.list_ascii_of_string (clean value).
Proof.
  unfold clean. intros H%replace_chars%strip_chars.
  by apply replace_char_gone in H.
Qed.

(** A text of ASCII characters without quotes, braces and backslashes is
    taken from a dictionary as it is. *)
Theorem clean_keeps_plain_text (value : string) :
  Forall (λ c, (c ∉ [backslash; "{"%char; "}"%char; "'"%char; dquote])
               ∧ (nat_of_ascii c < 128)%nat)
         (String.list_ascii_of_string value) →
  clean value = value.
Proof.
  rewrite list.Forall_forall. intros Hv. unfold clean.
  assert (∀ o, (o ∈ [backslash; "{"%char; "}"%char; "'"%char; dquote]
                ∨ (128 ≤ nat_of_ascii o)%nat) →
               o ∉ String.list_ascii_of_string value) as Hno.
  { intros o Ho Hin. destruct (Hv o Hin) as [H1 H2].
    destruct Ho as [Ho|Ho]; [done|lia]. }
  assert (∀ o, bool_decide
                 (o ∈ [backslash; "{"%char; "}"%char; "'"%char; dquote])
               = true →
               o ∉ String.list_ascii_of_string value) as Hsp.
  { intros o Ho%bool_decide_eq_true. apply Hno. by left. }
  rewrite (replace_absent value backslash) by by apply Hsp.
  rewrite (replace_absent value backslash) by by apply Hsp.
  rewrite (replace_absent value "{") by by apply Hsp.
  rewrite (replace_absent value "}") by by apply Hsp.
  rewrite strip_absent.
  - apply (replace_absent value "195"%char). apply Hno. right.
    vm_compute. lia.
  - intros c Hc Hin. apply (Hsp c); [|done].
    apply bool_decide_eq_true.
    apply elem_of_cons in Hin as [->|Hin]; [by apply (bool_decide_unpack _)|].
    apply list_elem_of_singleton in Hin as ->.
    by apply (bool_decide_unpack _).
Qed.

Lemma clean_keeps_plain_text_witness :
  clean "Engine speed in rpm" = "Engine speed in rpm".
Proof.
  apply (clean_keeps_plain_text "Engine speed in rpm").
  apply (bool_decide_unpack _). vm_compute. exact I.
Defined.

Section CommentsProps.

Context (str : pyobj → string).

Lemma extract_comment_from_dict_items items depth :
  extract_comment_from_dict str (PyDict items) depth
  = if depth <=? 0 then str (PyDict items)
    else first_comment str
           (λ value, extract_comment_from_dict str value (depth - 1))
           (str (PyDict items)) items.
Proof. reflexivity. Qed.

(** The loop returns the fallback, a string value cleaned, or what the
    call on a nested dictionary gave when that is neither empty nor the
    dictionary printed. *)
Lemma first_comment_cases recurse fallback items (P : string → Prop) :
  P fallback →
  (∀ k s, (k, PyStr s) ∈ items → P (clean s)) →
  (∀ k its, (k, PyDict its) ∈ items →
     recurse (PyDict its) ≠ str (PyDict its) → P (recurse (PyDict its))) →
  P (first_comment str recurse fallback items).
Proof.
  intros Hf. induction items as [|[k v] items IH]; intros Hs Hd; [done|].
  assert (P (first_comment str recurse fallback items)) as Hrest.
  { apply IH.
    - intros k' s Hin. apply (Hs k'). by right.
    - intros k' its Hin. apply (Hd k'). by right. }
  destruct v as [|s|its|t]; cbn [first_comment]; [done| |                   |done].
  - apply (Hs k). left.
  - destruct (String.eqb_spec (recurse (PyDict its)) EmptyString) as [_|_];
      cbn [negb andb]; [done|].
    destruct (String.eqb_spec (recurse (PyDict its)) (str (PyDict its)))
      as [_|Hne]; cbn [negb]; [done|].
    apply (Hd k); [left|done].
Qed.

Lemma extract_comment_from_dict_cases (n : nat) :
  ∀ d depth, depth ≤ Z.of_nat n →
    extract_comment_from_dict str d depth = str d
    ∨ ∃ m s, string_at m d s ∧ Z.of_nat m < depth
             ∧ extract_comment_from_dict str d depth = clean s.
Proof.
  induction n as [|n IH]; intros d depth Hdepth.
  - left. destruct d; try done. rewrite extract_comment_from_dict_items.
    destruct (Z.leb_spec depth 0); [done|lia].
  - destruct d as [| |items|]; try (by left).
    rewrite extract_comment_from_dict_items.
    destruct (Z.leb_spec depth 0) as [|Hpos]; [by left|].
    apply first_comment_cases.
    + by left.
    + intros k s Hin. right. exists 0%nat, s.
      split; [by eapply string_here|]. split; [lia|done].
    + intros k its Hin Hne.
      destruct (IH (PyDict its) (depth - 1)) as [He|(m & s & Hat & Hm & He)];
        [lia|done|].
      right. exists (S m), s. split; [by eapply string_below|].
      split; [lia|done].
Qed.

(** [_extract_comment_text]: a string is returned as it is, with nothing
    taken out of it; [None], an empty dictionary and every other object
    that counts as false give the empty text; from a dictionary comes
    either the dictionary printed or a string value found fewer than
    [max_depth] dictionaries below it, cleaned. *)
Theorem extract_comment_text_cases (max_depth : Z) :
  (∀ s, extract_comment_text str (PyStr s) max_depth = s)
  ∧ (∀ obj, truthy obj = false →
       extract_comment_text str obj max_depth = EmptyString)
  ∧ (∀ items,
       (items = []
        ∧ extract_comment_text str (PyDict items) max_depth = EmptyString)
       ∨ extract_comment_text str (PyDict items) max_depth
         = str (PyDict items)
       ∨ ∃ m s, string_at m (PyDict items) s ∧ Z.of_nat m < max_depth
                ∧ extract_comment_text str (PyDict items) max_depth
                  = clean s).
Proof.
  split; [|split].
  - intros s. unfold extract_comment_text. cbn [truthy].
    destruct (String.eqb_spec s EmptyString) as [->|_]; done.
  - intros obj Ht. unfold extract_comment_text. by rewrite Ht.
  - intros items. unfold extract_comment_text. cbn [truthy].
    destruct (decide (items = [])) as [->|Hne]; [by left|right].
    rewrite bool_decide_eq_false_2 by done. cbn [negb].
    apply (extract_comment_from_dict_cases (Z.to_nat max_depth)). lia.
Qed.

End CommentsProps.

Lemma extract_comment_text_cases_witness :
  extract_comment_text (λ _, "{}") PyNone 5 = EmptyString.
Proof.
  destruct (extract_comment_text_cases (λ _, "{}") 5) as (_ & H & _).
  apply (H PyNone). reflexivity.
Defined.


(** ** Recent files *)

Lemma NoDup_take_keeps {A} (n : nat) (l : list A) :
  NoDup l → NoDup (take n l).
Proof. intros H. eapply sublist_NoDup; [exact H|apply sublist_take]. Qed.

Section RecentFilesProps.

Context (normpath : string → string) (max_files : nat).

Local Abbreviation step := (save_step normpath).

(** The loop of [_save_entries]: [seen] holds the paths of [unique], which
    are all different; every entry added comes from an entry of the list
    with a path that is not empty, normalized. *)
Lemma save_loop_invariant (entries : list recent_entry) :
  ∀ unique seen,
    NoDup (entry_path <$> unique) →
    (∀ p, p ∈ seen ↔ p ∈ entry_path <$> unique) →
    ∃ added,
      (foldl step (unique, seen) entries).1 = unique ++ added
      ∧ NoDup (entry_path <$> (unique ++ added))
      ∧ (∀ p, p ∈ (foldl step (unique, seen) entries).2
              ↔ p ∈ entry_path <$> (unique ++ added))
      ∧ Forall (λ e, ∃ e0, e0 ∈ entries ∧ entry_path e0 ≠ EmptyString
                           ∧ entry_path e = normpath (entry_path e0)
                           ∧ last_opened e = last_opened e0) added.
Proof.
  induction entries as [|e entries IH]; intros unique seen Hnd Hseen.
  - exists []. rewrite app_nil_r. cbn [foldl fst snd].
    split; [done|]. split; [done|]. split; [done|]. constructor.
  - assert (∀ added : list recent_entry,
      Forall (λ e', ∃ e0, e0 ∈ entries ∧ entry_path e0 ≠ EmptyString
                          ∧ entry_path e' = normpath (entry_path e0)
                          ∧ last_opened e' = last_opened e0) added →
      Forall (λ e', ∃ e0, e0 ∈ e :: entries ∧ entry_path e0 ≠ EmptyString
                          ∧ entry_path e' = normpath (entry_path e0)
                          ∧ last_opened e' = last_opened e0) added) as Hweak.
    { intros added E4. eapply Forall_impl; [|exact E4].
      intros e' (e0 & ? & ?). exists e0. split; [by right|done]. }
    cbn [foldl]. unfold save_step at 2 4. cbn [fst snd].
    case_bool_decide as Hempty.
    { destruct (IH unique seen Hnd Hseen) as (added & E1 & E2 & E3 & E4).
      exists added. split; [done|]. split; [done|]. split; [done|].
      by apply Hweak. }
    case_bool_decide as Hin.
    { destruct (IH unique seen Hnd Hseen) as (added & E1 & E2 & E3 & E4).
      exists added. split; [done|]. split; [done|]. split; [done|].
      by apply Hweak. }
    destruct (IH (unique ++ [RecentEntry (normpath (entry_path e))
                               (last_opened e)])
                 ({[normpath (entry_path e)]} ∪ seen))
      as (added & E1 & E2 & E3 & E4).
    { rewrite fmap_app. apply list.NoDup_app. split; [done|]. split.
      - intros p Hp ->%list_elem_of_singleton. apply Hin. by apply Hseen.
      - apply NoDup_singleton. }
    { intros p. rewrite fmap_app, elem_of_app, elem_of_union, Hseen.
      rewrite elem_of_singleton. cbn [fmap list_fmap entry_path].
      rewrite list_elem_of_singleton. tauto. }
    exists (RecentEntry (normpath (entry_path e)) (last_opened e) :: added).
    rewrite <- !app_assoc in *. cbn [app] in *.
    split; [done|]. split; [done|]. split; [done|].
    constructor; [|by apply Hweak].
    exists e. split; [left|done].
Qed.

(** [_save_entries] writes at most [max_files] entries, with paths that
    are all different; each of them is an entry it was given, with a path
    that is not empty, normalized. *)
Theorem saved_entries_distinct_and_capped (entries : list recent_entry) :
  (length (save_entries normpath max_files entries) ≤ max_files)%nat
  ∧ NoDup (entry_path <$> save_entries normpath max_files entries)
  ∧ Forall (λ e, ∃ e0, e0 ∈ entries ∧ entry_path e0 ≠ EmptyString
                       ∧ entry_path e = normpath (entry_path e0)
                       ∧ last_opened e = last_opened e0)
      (save_entries normpath max_files entries).
Proof.
  unfold save_entries.
  destruct (save_loop_invariant entries [] ∅) as (added & E1 & E2 & _ & E4).
  { constructor. }
  { intros p. rewrite elem_of_empty, fmap_nil, elem_of_nil. tauto. }
  cbn [app] in *. rewrite E1. split; [|split].
  - rewrite length_take. lia.
  - rewrite fmap_take. by apply NoDup_take_keeps.
  - by apply list.Forall_take.
Qed.

(** On tidy entries the loop changes nothing. *)
Lemma save_loop_tidy (entries : list recent_entry) :
  ∀ unique seen,
    tidy normpath entries →
    (∀ p, p ∈ entry_path <$> entries → p ∉ seen) →
    (foldl step (unique, seen) entries).1 = unique ++ entries.
Proof.
  induction entries as [|e entries IH]; intros unique seen [Hall Hnd] Hseen.
  - by rewrite app_nil_r.
  - apply list.Forall_cons in Hall as [[Hne Hnorm] Hall].
    rewrite fmap_cons in Hnd. apply list.NoDup_cons in Hnd as [Hfresh Hnd].
    cbn [foldl]. unfold save_step at 2. cbn [fst snd].
    rewrite bool_decide_eq_false_2 by done. rewrite Hnorm.
    rewrite bool_decide_eq_false_2 by (apply Hseen; rewrite fmap_cons; left).
    rewrite IH.
    + rewrite <- app_assoc. by destruct e.
    + by split.
    + intros p Hp. rewrite elem_of_union, elem_of_singleton.
      intros [->|Hs]; [done|]. apply (Hseen p); [|done].
      rewrite fmap_cons. by right.
Qed.

Lemma save_entries_tidy (entries : list recent_entry) :
  tidy normpath entries →
  save_entries normpath max_files entries = take max_files entries.
Proof.
  intros Ht. unfold save_entries. rewrite save_loop_tidy; [done..|].
  intros p _. apply not_elem_of_empty.
Qed.

Lemma load_entries_tidy (stored : list recent_entry) :
  tidy normpath stored →
  load_entries normpath max_files stored = take max_files stored.
Proof.
  intros [Hall _]. unfold load_entries. f_equal.
  induction Hall as [|e es [Hne Hnorm] _ IH]; [done|].
  cbn [omap list_omap]. rewrite bool_decide_eq_false_2 by done.
  rewrite Hnorm. cbn [omap list_omap] in IH. rewrite IH. by destruct e.
Qed.

Lemma tidy_take n (es : list recent_entry) :
  tidy normpath es → tidy normpath (take n es).
Proof.
  intros [Hall Hnd]. split; [by apply Forall_take|].
  rewrite fmap_take. by apply NoDup_take_keeps.
Qed.

Lemma tidy_filter (P : recent_entry → Prop) `{∀ e, Decision (P e)}
    (es : list recent_entry) :
  tidy normpath es → tidy normpath (filter P es).
Proof.
  intros [Hall Hnd]. split.
  { apply list.Forall_forall. intros e [_ Hin]%list_elem_of_filter.
    by apply (proj1 (list.Forall_forall _ _) Hall). }
  induction es as [|e es IH]; [constructor|].
  rewrite fmap_cons in Hnd. apply list.NoDup_cons in Hnd as [Hfresh Hnd].
  apply list.Forall_cons in Hall as [_ Hall].
  rewrite filter_cons. destruct (decide (P e)); [|by apply IH].
  rewrite fmap_cons. apply list.NoDup_cons. split; [|by apply IH].
  intros (e' & Heq & Hin%list_elem_of_filter)%list_elem_of_fmap.
  apply Hfresh. rewrite Heq. apply list_elem_of_fmap_2. by destruct Hin.
Qed.

Lemma saved_entries_tidy (entries : list recent_entry) :
  (∀ p, normpath (normpath p) = normpath p) →
  (∀ p, p ≠ EmptyString → normpath p ≠ EmptyString) →
  tidy normpath (save_entries normpath max_files entries).
Proof.
  intros Hidem Hne. unfold save_entries.
  destruct (save_loop_invariant entries [] ∅) as (added & E1 & E2 & _ & E4).
  { constructor. }
  { intros p. rewrite elem_of_empty, fmap_nil, elem_of_nil. tauto. }
  cbn [app] in *. rewrite E1. apply tidy_take. split; [|done].
  eapply Forall_impl; [|exact E4].
  intros e (e0 & _ & Hne0 & -> & _). split; [by apply Hne|apply Hidem].
Qed.

Lemma take_take_same {A} n (l : list A) : take n (take n l) = take n l.
Proof. rewrite take_take. by rewrite Nat.min_id. Qed.

Lemma filter_paths (path : string) (es : list recent_entry) :
  entry_path <$> filter (λ e, entry_path e ≠ path) es
  = filter (λ p, p ≠ path) (entry_path <$> es).
Proof.
  induction es as [|e es IH]; [done|].
  rewrite fmap_cons, !filter_cons.
  destruct (decide (entry_path e ≠ path)); [|done].
  by rewrite fmap_cons, IH.
Qed.

(** [add_file] after the list has been written by [_save_entries]: the
    file becomes the first of the recent files, it is listed once, the
    files listed before follow in the order they had, and the list is cut
    at [max_files]. *)
Theorem add_file_most_recent_first (path : string) (now : Z)
    (entries : list recent_entry) :
  (∀ p, normpath (normpath p) = normpath p) →
  (∀ p, p ≠ EmptyString → normpath p ≠ EmptyString) →
  path ≠ EmptyString →
  get_recent_files normpath max_files
    (add_file normpath max_files path now
       (save_entries normpath max_files entries))
  = take max_files
      (normpath path
       :: filter (λ p, p ≠ normpath path)
            (get_recent_files normpath max_files
               (save_entries normpath max_files entries))).
Proof.
  intros Hidem Hne Hpath.
  pose proof (saved_entries_tidy entries Hidem Hne) as Hstored.
  set (stored := save_entries normpath max_files entries) in *.
  assert (take max_files stored = stored) as Hshort.
  { unfold stored, save_entries. apply take_take_same. }
  unfold get_recent_files, add_file.
  rewrite bool_decide_eq_false_2 by done.
  rewrite (load_entries_tidy stored), Hshort by done.
  assert (tidy normpath
            (RecentEntry (normpath path) now
             :: filter (λ e, entry_path e ≠ normpath path) stored)) as Hnew.
  { pose proof (tidy_filter (λ e, entry_path e ≠ normpath path) stored Hstored)
      as [Hall Hnd].
    split.
    - constructor; [|done]. split; [by apply Hne|apply Hidem].
    - rewrite fmap_cons. apply list.NoDup_cons. split; [|done].
      cbn [entry_path].
      intros (e' & Heq & [Hp _]%list_elem_of_filter)%list_elem_of_fmap.
      by apply Hp. }
  rewrite save_entries_tidy by done.
  rewrite load_entries_tidy by by apply tidy_take.
  rewrite take_take_same, fmap_take, fmap_cons. cbn [entry_path].
  by rewrite filter_paths.
Qed.

End RecentFilesProps.

Lemma add_file_most_recent_first_witness :
  get_recent_files id 2
    (add_file id 2 "b.dbc" 7
       (save_entries id 2 [RecentEntry "a.dbc" 1; RecentEntry "b.dbc" 2]))
  = take 2
      (id "b.dbc"
       :: filter (λ p, p ≠ id "b.dbc")
            (get_recent_files id 2
               (save_entries id 2
                  [RecentEntry "a.dbc" 1; RecentEntry "b.dbc" 2]))).
Proof.
  apply (add_file_most_recent_first id 2 "b.dbc" 7
           [RecentEntry "a.dbc" 1; RecentEntry "b.dbc" 2]).
  - reflexivity.
  - intros p Hp. exact Hp.
  - discriminate.
Defined.

